(** * The disaggregation calculator of the OpenQuake engine

    A shallow embedding of [openquake/calculators/disaggregation.py]:
    the probability combiner [agg_probs], the reducer [agg_result], the
    magnitude binning of [get_indices_by_gidx_mag], the checks of [init],
    [check_poes_disagg] and [save_bin_edges], the selection of the
    realizations in [full_disaggregation] and the extraction of the PMFs in
    [save_disagg_results] and [_save].

    Numbers.  The calculator computes with Python floats and numpy [float64]
    arrays.  The embedding is written once, over a class [Number] of scalars,
    and read at two instances: [float], the kernel's binary64 numbers, which
    round exactly as the Python program does, and [R], the real numbers,
    which is the arithmetic the formulas are meant to approximate. *)

From Stdlib Require Import ZArith List Bool Floats Reals Lra Lia.
From stdpp Require Import gmap strings list sorting.

Set Warnings "-register-all".

(** ** Scalars *)

Class Number (A : Type) := {
  zero : A;                 (* the Python literal [0], converted *)
  one : A;                  (* the Python literal [1.] *)
  sub : A -> A -> A;        (* [x - y] *)
  mul : A -> A -> A;        (* [x * y] *)
  ltb : A -> A -> bool;     (* [x < y] *)
  eqb : A -> A -> bool      (* [x == y] *)
}.

#[export] Instance float_Number : Number float := {|
  zero := 0%float;
  one := 1%float;
  sub := PrimFloat.sub;
  mul := PrimFloat.mul;
  ltb := PrimFloat.ltb;
  eqb := PrimFloat.eqb
|}.

#[export] Instance R_Number : Number R := {|
  zero := 0%R;
  one := 1%R;
  sub := Rminus;
  mul := Rmult;
  ltb := fun x y => if Rlt_dec x y then true else false;
  eqb := fun x y => if Req_dec_T x y then true else false
|}.

(** ** Exceptions and logged warnings *)

Inductive exn : Type :=
| IndexError
| TypeError
| KeyError
| AssertionError (Z R : Z)          (* [assert Z <= self.R, (Z, self.R)] *)
| SystemExit                        (* 'Cannot do any disaggregation' *)
| ValueError_shape                  (* numpy: operands could not be broadcast together *)
| ValueError_empty                  (* numpy: reduction of an empty array *)
| ValueError_max_sites              (* 'You can disaggregate at max 32,768 sites' *)
| ValueError_few (N few : Z)        (* 'The number of sites is to disaggregate is %d, ...' *)
| ValueError_too_large (size : Z).  (* 'The disaggregation matrix is too large (%d elements)' *)

Inductive result (T : Type) : Type :=
| Ok (v : T)
| Raise (e : exn).
Arguments Ok {T} v.
Arguments Raise {T} e.

#[export] Instance result_ret : MRet result := fun _ v => Ok v.
#[export] Instance result_bind : MBind result := fun _ _ f r =>
  match r with
  | Ok v => f v
  | Raise e => Raise e
  end.

#[export] Instance result_fmap : FMap result := fun _ _ f r =>
  match r with
  | Ok v => Ok (f v)
  | Raise e => Raise e
  end.

Definition is_Ok {T} (r : result T) : Prop := exists v, r = Ok v.

(** A [for] loop whose body may raise. *)
Fixpoint foldlM {S T} (body : S -> T -> result S) (s : S) (l : list T) : result S :=
  match l with
  | [] => Ok s
  | x :: l' => s' ← body s x; foldlM body s' l'
  end.

(** ** numpy arrays

    An n-dimensional array is the list of its slices along the first axis;
    [Sc] is a Python scalar (or a cell). *)

Inductive ndarray (A : Type) : Type :=
| Sc (x : A)
| Arr (rows : list (ndarray A)).
Arguments Sc {A} x.
Arguments Arr {A} rows.

(** A function that may fail, along a list and along two lists of one
    length. *)
Definition map_opt {X Y} (g : X -> option Y) : list X -> option (list Y) :=
  fix each (l : list X) : option (list Y) :=
    match l with
    | [] => Some []
    | x :: l' => match g x, each l' with
                 | Some z, Some zs => Some (z :: zs)
                 | _, _ => None
                 end
    end.

Definition zip_opt {X Y Z'} (g : X -> Y -> option Z')
  : list X -> list Y -> option (list Z') :=
  fix rows (l : list X) (k : list Y) {struct l} : option (list Z') :=
    match l, k with
    | [], [] => Some []
    | x :: l', y :: k' => match g x y, rows l' k' with
                          | Some z, Some zs => Some (z :: zs)
                          | _, _ => None
                          end
    | _, _ => None
    end.

Section Numpy.
Context {A : Type} `{Number A}.

Fixpoint nd_map (f : A -> A) (a : ndarray A) : ndarray A :=
  match a with
  | Sc x => Sc (f x)
  | Arr rows => Arr (List.map (nd_map f) rows)
  end.

(** [c - a], cell by cell. *)
Definition rsub (c : A) (a : ndarray A) : ndarray A := nd_map (sub c) a.

(** [a.ndim], read along the first slices. *)
Fixpoint nd_ndim (a : ndarray A) : nat :=
  match a with
  | Sc _ => 0
  | Arr rows => S (match rows with
                   | r :: _ => nd_ndim r
                   | [] => 0
                   end)
  end.

(** What numpy does with [acc *= x] or [acc[...] = x] on an array [acc]:
    [x] is broadcast to the shape of [acc], which stays the shape of the
    result, and [f] is applied cell by cell.  [x] may lack the leading axes
    of [acc], and an axis of [x] of length one is repeated along the axis
    of [acc]; in any other case numpy raises a [ValueError], here [None]. *)
Fixpoint nd_broadcast (f : A -> A -> A) (acc x : ndarray A) {struct acc}
  : option (ndarray A) :=
  match acc with
  | Sc a => match x with
            | Sc b => Some (Sc (f a b))
            | Arr _ => None
            end
  | Arr ra =>
      if Nat.ltb (nd_ndim x) (nd_ndim acc) then
        option_map Arr (map_opt (fun r => nd_broadcast f r x) ra)
      else if Nat.ltb (nd_ndim acc) (nd_ndim x) then None
      else match x with
           | Sc _ => None
           | Arr rb =>
               if Nat.eqb (length rb) (length ra) then
                 option_map Arr (zip_opt (fun r y => nd_broadcast f r y) ra rb)
               else match rb with
                    | [y] => option_map Arr (map_opt (fun r => nd_broadcast f r y) ra)
                    | _ => None
                    end
           end
  end.

(** [acc *= x].  When [acc] is a Python float the product is a new array
    of the shape of [x]; when [acc] is an array the product is made in
    place, [x] being broadcast to the shape of [acc]. *)
Definition imul (acc x : ndarray A) : result (ndarray A) :=
  match acc, x with
  | Sc c, _ => Ok (nd_map (mul c) x)
  | Arr _, Sc c => Ok (nd_map (fun v => mul v c) acc)
  | Arr _, Arr _ =>
      match nd_broadcast mul acc x with
      | Some r => Ok r
      | None => Raise ValueError_shape
      end
  end.

(** [a.any()]: some cell is not zero. *)
Fixpoint nd_any (a : ndarray A) : bool :=
  match a with
  | Sc x => negb (eqb x zero)
  | Arr rows => existsb nd_any rows
  end.

(** ** [agg_probs] *)

Definition agg_probs (probs : list (ndarray A)) : result (ndarray A) :=
  match probs with
  | [] => Raise IndexError                                   (* probs[0] *)
  | p0 :: rest =>
      acc ← foldlM (fun acc prob => imul acc (rsub one prob))      (* acc *= 1. - prob *)
                   (rsub one p0) rest;                             (* acc = 1. - probs[0] *)
      Ok (rsub one acc)                                            (* return 1. - acc *)
  end.

(** The rule for two scalars, [1 - (1 - a) * (1 - b)]. *)
Definition combine (a b : A) : A := sub one (mul (sub one a) (sub one b)).

End Numpy.

(** ** The reducer: [DisaggregationCalculator.agg_result] *)

(** What a task returns: [{'trti': trti, 'magi': magi, 'imti': imti,
    sid: matrix}].  The three tags are popped by [agg_result]; the rest of
    the dictionary maps site ids to matrices. *)
Record task_result (A : Type) : Type := {
  trti : nat;
  magi : Z;
  imti : nat;
  by_sid : gmap nat (ndarray A)
}.
Arguments trti {A} _.
Arguments magi {A} _.
Arguments imti {A} _.
Arguments by_sid {A} _.

(** The accumulator, [imti, sid -> trti, magi -> 6D array]. *)
Abbreviation accum A := (gmap (nat * nat) (gmap (nat * Z) (ndarray A))).

Section Reducer.
Context {A : Type} `{Number A}.

(** Modelled from the spec: [AccumDict(accum={})] of
    [openquake.baselib.general], the accumulator the reducer starts from.
    Reading a key that is absent stores an empty dictionary under it and
    returns that dictionary. *)
Definition accum_getitem (acc : accum A) (k : nat * nat)
  : gmap (nat * Z) (ndarray A) * accum A :=
  match acc !! k with
  | Some inner => (inner, acc)
  | None => (∅, <[k := ∅]> acc)
  end.

(** [dict.get((trti, magi), 0)] *)
Definition get_before (inner : gmap (nat * Z) (ndarray A)) (k : nat * Z) : ndarray A :=
  default (Sc zero) (inner !! k).

(** The body of the loop [for sid, probs in result.items()]. *)
Definition agg_result_step (trti : nat) (magi : Z) (imti : nat)
    (acc : accum A) (sid : nat) (probs : ndarray A) : result (accum A) :=
  let '(inner, acc1) := accum_getitem acc (imti, sid) in
  let before := get_before inner (trti, magi) in
  v ← agg_probs [before; probs];
  Ok (<[(imti, sid) := <[(trti, magi) := v]> inner]> acc1).

(** The sites of one result are distinct keys of a dictionary and each
    touches its own slot, so the order of the loop is immaterial; the model
    walks them in the order of [map_fold]. *)
Definition agg_result (acc : accum A) (res : task_result A) : result (accum A) :=
  map_fold (fun sid probs racc =>
              acc' ← racc; agg_result_step (trti res) (magi res) (imti res) acc' sid probs)
           (Ok acc) (by_sid res).

(** The slot [acc[imti, sid][trti, magi]], if any. *)
Definition slot (acc : accum A) (imti sid trti : nat) (magi : Z) : option (ndarray A) :=
  inner ← acc !! (imti, sid); inner !! (trti, magi).

End Reducer.

(** ** Magnitude bins: [get_indices_by_gidx_mag] *)

Section MagBins.
Context {A : Type} `{Number A}.

(** [numpy.searchsorted(a, v)] with the default [side='left']: on a sorted
    array, the index [i] with [a[i-1] < v <= a[i]], that is the number of
    leading entries below [v].  The model counts them from the left, which
    is the answer of numpy's bisection on edges in increasing order and for
    a [v] that is not a NaN. *)
Fixpoint searchsorted (a : list A) (v : A) : Z :=
  match a with
  | [] => 0
  | x :: a' => if ltb x v then 1 + searchsorted a' v else 0
  end.

(** [magi = numpy.searchsorted(mag_edges, mag) - 1] *)
Definition mag_bin (mag_edges : list A) (mag : A) : Z :=
  searchsorted mag_edges mag - 1.

(** [acc[gidx, magi].extend(...)] on [AccumDict(accum=[])]. *)
Definition extend_indices (acc : gmap (Z * Z) (list Z)) (k : Z * Z) (i : Z)
  : gmap (Z * Z) (list Z) :=
  <[k := default [] (acc !! k) ++ [i]]> acc.

(** The rupture store holds the columns [rup/grp_id] and [rup/mag]; a
    rupture is its row number.  [groupby] leaves out the rows whose
    magnitude is a NaN and hands the others over group by group; as every
    list is sorted at the end, the model takes them row by row. *)
Fixpoint collect_indices (mag_edges : list A) (rows : list (Z * A)) (i : Z)
    (acc : gmap (Z * Z) (list Z)) : gmap (Z * Z) (list Z) :=
  match rows with
  | [] => acc
  | (gidx, mag) :: rows' =>
      collect_indices mag_edges rows' (i + 1)
        (if eqb mag mag                                      (* mag is not a NaN *)
         then extend_indices acc (gidx, mag_bin mag_edges mag) i
         else acc)
  end.

Definition get_indices_by_gidx_mag (rup_grp_id : list Z) (rup_mag : list A)
    (mag_edges : list A) : gmap (Z * Z) (list Z) :=
  merge_sort Z.le <$> collect_indices mag_edges (zip rup_grp_id rup_mag) 0 ∅.

End MagBins.

(** ** [DisaggregationCalculator.init] *)

Section Init.
Context {T : Type}.
Variable super_init : result T.       (* [super().init()] *)

Definition init (N few : Z) : result T :=
  if (32768 <=? N)%Z then Raise ValueError_max_sites
  else if (few <? N)%Z then Raise (ValueError_few N few)
  else super_init.

End Init.

(** ** The curve check: [_check_curves] and [check_poes_disagg] *)

Inductive warning (A : Type) : Type :=
| POE_TOO_BIG (sid : nat) (poe max_poe : A) (rlz : Z) (imt : string)
| Doing_the_disaggregation_on (sitecol : list nat).
Arguments POE_TOO_BIG {A} sid poe max_poe rlz imt.
Arguments Doing_the_disaggregation_on {A} sitecol.

(** Code that logs and may raise: the log is threaded through, and is kept
    when an exception ends the computation. *)
Definition logged (A T : Type) : Type :=
  list (warning A) -> list (warning A) * result T.

#[export] Instance logged_ret {A} : MRet (logged A) := fun _ v log => (log, Ok v).
#[export] Instance logged_bind {A} : MBind (logged A) := fun _ _ f m log =>
  match m log with
  | (log', Ok v) => f v log'
  | (log', Raise e) => (log', Raise e)
  end.

Definition logging_warning {A} (w : warning A) : logged A unit :=
  fun log => (log ++ [w], Ok tt).

Definition raise {A T} (e : exn) : logged A T := fun log => (log, Raise e).

Definition lift {A T} (r : result T) : logged A T := fun log => (log, r).

(** A [for] loop carrying the variables it updates. *)
Fixpoint for_loop {A S T} (l : list T) (s : S) (body : S -> T -> logged A S) : logged A S :=
  match l with
  | [] => mret s
  | x :: l' => s' ← body s x; for_loop l' s' body
  end.

Section CheckCurves.
Context {A : Type} `{Number A}.

(** The hazard curves of one realization at one site, converted with
    [convert(imtls)]: a record with one array of poes per IMT. *)
Definition curve : Type := string -> list A.

Definition is_nan (x : A) : bool := negb (eqb x x).

(** [numpy.maximum], which lets a NaN through. *)
Definition maximum (m x : A) : A :=
  if is_nan m then m else if is_nan x then x else if ltb m x then x else m.

(** [a.max()] *)
Definition amax (a : list A) : result A :=
  match a with
  | [] => Raise ValueError_empty
  | x :: a' => Ok (fold_left maximum a' x)
  end.

(** [curve[imt].max()], where [curve] may be [None]. *)
Definition curve_max (c : option curve) (imt : string) : result A :=
  match c with
  | None => Raise TypeError
  | Some cv => amax (cv imt)
  end.

Definition _check_curves (sid : nat) (rlzs : list Z) (curves : list (option curve))
    (imtls : list string) (poes_disagg : list A) : logged A bool :=
  bad ← for_loop (zip rlzs curves) 0%nat (fun bad '(rlz, c) =>
    for_loop imtls bad (fun bad imt =>
      max_poe ← lift (curve_max c imt);
      for_loop poes_disagg bad (fun bad poe =>
        if ltb max_poe poe                                   (* poe > max_poe *)
        then _ ← logging_warning (POE_TOO_BIG sid poe max_poe rlz imt);
             mret (bad + 1)%nat
        else mret bad)));
  mret (negb (Nat.eqb bad 0)).

Definition is_None {T} (o : option T) : bool :=
  match o with None => true | Some _ => false end.

(** [seq[i]] on a Python list or on the rows of an array. *)
Definition getitem {T} (l : list T) (i : nat) : result T :=
  match l !! i with
  | Some x => Ok x
  | None => Raise IndexError
  end.

(** [self.sitecol.sids] is [sids] and [self.N] its length. *)
Definition check_poes_disagg (sids : list nat) (imtls : list string)
    (poes_disagg : list A) (curves : list (list (option curve)))
    (rlzs : list (list Z)) : logged A (list nat) :=
  ok_sites ← for_loop sids [] (fun ok_sites sid =>
    cs ← lift (getitem curves sid);
    if forallb is_None cs then mret (ok_sites ++ [sid])
    else
      rs ← lift (getitem rlzs sid);
      bad ← _check_curves sid rs cs imtls poes_disagg;
      if negb bad then mret (ok_sites ++ [sid]) else mret ok_sites);
  if Nat.eqb (length ok_sites) 0 then raise SystemExit
  else if Nat.ltb (length ok_sites) (length sids)
       then _ ← logging_warning (Doing_the_disaggregation_on sids); mret ok_sites
       else mret ok_sites.

End CheckCurves.
Arguments curve : clear implicits.

(** ** [DisaggregationCalculator.save_bin_edges] *)

(** numpy multiplies integers in 64 bits and wraps around silently. *)
Definition wrap64 (x : Z) : Z := ((x + 2 ^ 63) mod 2 ^ 64 - 2 ^ 63)%Z.

(** [numpy.prod] of a list of Python integers. *)
Definition numpy_prod (shape : list Z) : Z :=
  fold_left (fun acc n => wrap64 (acc * n)) shape 1%Z.

(** [self.bin_edges]: magnitudes, distances, longitudes and latitudes per
    site, epsilons. *)
Record bin_edges (A : Type) : Type := {
  mag_edges : list A;
  dist_edges : list A;
  lon_edges : gmap nat (list A);
  lat_edges : gmap nat (list A);
  eps_edges : list A
}.
Arguments mag_edges {A} _.
Arguments dist_edges {A} _.
Arguments lon_edges {A} _.
Arguments lat_edges {A} _.
Arguments eps_edges {A} _.

(** The datasets ['disagg-bins/...']. *)
Inductive bins_key : Type :=
| disagg_bins_mags
| disagg_bins_dists
| disagg_bins_lons (sid : nat)
| disagg_bins_lats (sid : nat)
| disagg_bins_eps.

Section SaveBinEdges.
Context {A : Type}.

Definition len {T} (l : list T) : Z := Z.of_nat (length l).

Definition dict_getitem {V} (d : gmap nat V) (k : nat) : result V :=
  match d !! k with
  | Some v => Ok v
  | None => Raise KeyError
  end.

(** The datastore is the list of the writes made so far. *)
Definition save_bin_edges (b : bin_edges A) (trts : list string) (sids : list nat)
    (datastore : list (bins_key * list A)) : result (list (bins_key * list A)) :=
  let T := len trts in
  lons0 ← dict_getitem (lon_edges b) 0;
  lats0 ← dict_getitem (lat_edges b) 0;
  let shape := [len (mag_edges b) - 1; len (dist_edges b) - 1; len lons0 - 1;
                len lats0 - 1; len (eps_edges b) - 1; T]%Z in
  let matrix_size := numpy_prod shape in
  if (1000000 <? matrix_size)%Z then Raise (ValueError_too_large matrix_size)
  else
    let ds := datastore ++ [(disagg_bins_mags, mag_edges b);
                            (disagg_bins_dists, dist_edges b)] in
    ds ← foldlM (fun ds sid =>
                   lo ← dict_getitem (lon_edges b) sid;
                   la ← dict_getitem (lat_edges b) sid;
                   Ok (ds ++ [(disagg_bins_lons sid, lo); (disagg_bins_lats sid, la)]))
                ds sids;
    Ok (ds ++ [(disagg_bins_eps, eps_edges b)]).

(** The end of [full_disaggregation]: the bins are saved, then everything
    from the estimate of the output size to the reduction of the tasks
    ([submit]) runs. *)
Definition save_then_submit {Res} (submit : result Res)
    (b : bin_edges A) (trts : list string) (sids : list nat)
    (datastore : list (bins_key * list A))
  : result (list (bins_key * list A) * Res) :=
  ds ← save_bin_edges b trts sids datastore;
  r ← submit;
  Ok (ds, r).

End SaveBinEdges.

(** ** The selection of the realizations in [full_disaggregation] *)

Section Selection.

(** [util.closest_to_ref(curves, mean.array)] for the curves of a site: the
    indices of the realizations, closest to the mean first. *)
Variable closest_to_ref : nat -> list Z.

(** [rlzs[sid] = values]: numpy copies a sequence as long as the row, or
    repeats a single value along it. *)
Definition set_row (rlzs : list (list Z)) (nZ : nat) (sid : nat) (values : list Z)
  : result (list (list Z)) :=
  match rlzs !! sid with
  | None => Raise IndexError
  | Some _ =>
      if Nat.eqb (length values) nZ then Ok (<[sid := values]> rlzs)
      else match values with
           | [v] => Ok (<[sid := replicate nZ v]> rlzs)
           | _ => Raise ValueError_shape
           end
  end.

(** Lines 290-309: the array [rlzs] of shape (N, Z) and the number [Z] of
    selected realizations, written [nZ]. *)
Definition select_rlzs (rlz_index : option (list Z)) (num_rlzs_disagg : nat)
    (sids : list nat) (R : Z) : result (nat * list (list Z)) :=
  let N := length sids in
  '(nZ, rlzs) ←
    match rlz_index with
    | None =>
        let nZ := num_rlzs_disagg in
        let rlzs := replicate N (replicate nZ 0%Z) in
        if (1 <? R)%Z
        then rlzs ← foldlM (fun rlzs sid =>
                              set_row rlzs nZ sid (take nZ (closest_to_ref sid)))
                           rlzs sids;
             Ok (nZ, rlzs)
        else Ok (nZ, rlzs)
    | Some idx =>
        let nZ := length idx in
        let rlzs := replicate N (replicate nZ 0%Z) in
        (* for z in range(Z): rlzs[:, z] = oq.rlz_index[z] *)
        let rlzs := fold_left (fun rlzs z =>
                                 (fun row => <[z := default 0%Z (idx !! z)]> row) <$> rlzs)
                              (seq 0 nZ) rlzs in
        Ok (nZ, rlzs)
    end;
  if (Z.of_nat nZ <=? R)%Z then Ok (nZ, rlzs)
  else Raise (AssertionError (Z.of_nat nZ) R).

End Selection.

(** ** The task: [compute_disagg] *)

Section ComputeDisagg.
Context {A : Type} `{Number A}.

(** The truth value of a Python float. *)
Definition truthy (x : A) : bool := negb (eqb x zero).

(** The collaborators of [openquake.hazardlib.calc.disagg] and the rupture
    store, which the task calls and this development does not look into. *)
Variable IML2 BinData : Type.
Variable close_ruptures : nat -> list nat.
  (* numpy.where(rupdata['rrup_'][:, sid] <= maxdist) *)
Variable disaggregate : nat -> list nat -> IML2 -> BinData.
  (* disagg.disaggregate(ctxs, zs_by_gsim, iml3.imt, iml2, eps3, ...) *)
Variable pnes_sum : BinData -> A.
  (* bdata.pnes.sum() *)
Variable build_disagg_matrix : BinData -> nat -> ndarray A.
  (* disagg.build_disagg_matrix(bdata, bins), with the bins of the site *)

(** The results the generator yields, in order. *)
Definition compute_disagg (sids : list nat) (iml3 : list IML2)
    (trti : nat) (magi : Z) (imti : nat) : list (task_result A) :=
  flat_map (fun '(sid, iml2) =>
    match close_ruptures sid with
    | [] => []                                               (* if not ctxs: continue *)
    | ctxs =>
        let bdata := disaggregate sid ctxs iml2 in
        if truthy (pnes_sum bdata) then
          let matrix := build_disagg_matrix bdata sid in
          if nd_any matrix
          then [ {| trti := trti; magi := magi; imti := imti;
                    by_sid := {[ sid := matrix ]} |} ]
          else []
        else []
    end) (zip sids iml3).

End ComputeDisagg.
Arguments compute_disagg {A H IML2 BinData} _ _ _ _ _ _ _ _ _.

(** ** Saving the PMFs: [save_disagg_results] and [_save] *)

(** A realization, or the mean over the selected realizations. *)
Inductive rlz_ref : Type :=
| Rlz (i : Z)
| Mean.

(** ['disagg/' + DISAGG_RES_FMT % dict(rlz=..., imt=..., sid=..., poe=...)] *)
Record disp_name : Type := {
  name_rlz : rlz_ref;
  name_imt : string;
  name_sid : nat;
  name_poe : nat
}.

(** [key.endswith(suffix)] *)
Definition endswith (key suffix : string) : bool :=
  let n := String.length key in
  let k := String.length suffix in
  if Nat.leb k n then String.eqb (String.substring (n - k) k key) suffix else false.

Section Save.
Context {A : Type} `{Number A}.

(** The datasets [disp_name + key] written so far. *)
Definition pmf_store : Type := list ((disp_name * string) * ndarray A).

(** [disagg.pmf_map]: the names of the PMFs and the functions that project
    a matrix onto them, in the order of the dictionary. *)
Variable pmf_map : list (string * (ndarray A -> ndarray A)).

Fixpoint cells (a : ndarray A) : list A :=
  match a with
  | Sc x => [x]
  | Arr rows => flat_map cells rows
  end.

(** [numpy.prod(a)] *)
Definition nd_prod (a : ndarray A) : A := fold_left mul (cells a) one.

Definition poe_eqb (p q : option A) : bool :=
  match p, q with
  | None, None => true
  | Some x, Some y => eqb x y
  | _, _ => false
  end.

(** [self.poe_id[poe]] *)
Fixpoint poe_id_getitem (poe_id : list (option A * nat)) (poe : option A) : result nat :=
  match poe_id with
  | [] => Raise KeyError
  | (k, i) :: poe_id' => if poe_eqb k poe then Ok i else poe_id_getitem poe_id' poe
  end.

(** [*matrix6]: the slices along the first axis, that of the TRTs. *)
Definition unpack (a : ndarray A) : result (list (ndarray A)) :=
  match a with
  | Arr rows => Ok rows
  | Sc _ => Raise TypeError
  end.

(** [not disagg_outputs or key in disagg_outputs] *)
Definition requested (disagg_outputs : list string) (key : string) : bool :=
  match disagg_outputs with
  | [] => true
  | _ => existsb (String.eqb key) disagg_outputs
  end.

(** The datasets written by [_save] and the list [poe_agg]; the attributes
    set afterwards are left out. *)
Definition _save (disagg_outputs : list string) (poe_id : list (option A * nat))
    (site_id : nat) (rlz_id : rlz_ref) (poe : option A) (imt_str : string)
    (matrix6 : ndarray A) (datastore : pmf_store) : result (pmf_store * list A) :=
  p ← poe_id_getitem poe_id poe;
  let name := {| name_rlz := rlz_id; name_imt := imt_str;
                 name_sid := site_id; name_poe := p |} in
  slices ← unpack matrix6;
  aggmatrix ← agg_probs slices;
  foldlM (fun '(ds, poe_agg) '(key, fn) =>
            if requested disagg_outputs key then
              let pmf := fn (if endswith key "TRT" then matrix6 else aggmatrix) in
              Ok (ds ++ [((name, key), pmf)],
                  poe_agg ++ [sub one (nd_prod (rsub one pmf))])
            else Ok (ds, poe_agg))
         (datastore, []) pmf_map.

(** [numpy.average(mat7, -1, weights)], with the weights of the
    realizations [rlzs] for [imt] rescaled to sum to 1. *)
Variable average : string -> list Z -> list (ndarray A) -> ndarray A.

(** An 8-D matrix is held as its 6-D matrices [mat8[..., p, z]], by [p] and
    then by [z]. *)
Definition save_disagg_results (disagg_outputs : list string)
    (poe_id : list (option A * nat)) (imts : list string)
    (self_rlzs : list (list Z)) (poes_disagg : list (option A)) (nZ : nat)
    (results : list ((nat * nat) * list (list (ndarray A))))
    (datastore : pmf_store) : result pmf_store :=
  foldlM (fun ds '((m, s), mat8) =>
    imt ← getitem imts m;
    rlzs ← getitem self_rlzs s;
    let many_rlzs := Nat.ltb 1 (length rlzs) in
    foldlM (fun ds '(p, poe) =>
      mat7 ← getitem mat8 p;
      ds ← foldlM (fun ds z =>
              mat6 ← getitem mat7 z;
              if nd_any mat6 then
                r ← getitem rlzs z;
                fst <$> _save disagg_outputs poe_id s (Rlz r) poe imt mat6 ds
              else Ok ds) ds (seq 0 nZ);
      if many_rlzs then
        let mean_matrix := average imt rlzs mat7 in
        if nd_any mean_matrix then
          fst <$> _save disagg_outputs poe_id s Mean poe imt mean_matrix ds
        else Ok ds
      else Ok ds) ds (imap pair poes_disagg)) datastore results.

End Save.

(** ** [_matrix] *)

(** What a function that starts with [next(iter(d))] does: on an empty
    dictionary it raises [StopIteration]. *)
Inductive iteration (T : Type) : Type :=
| StopIteration
| Returns (r : result T).
Arguments StopIteration {T}.
Arguments Returns {T} r.

Section Matrix.
Context {A : Type} `{Number A}.

(** [a.shape], read along the first slices. *)
Fixpoint nd_shape (a : ndarray A) : list nat :=
  match a with
  | Sc _ => []
  | Arr rows => length rows :: match rows with
                               | r :: _ => nd_shape r
                               | [] => []
                               end
  end.

(** [numpy.zeros(shape)] *)
Fixpoint nd_zeros (shape : list nat) : ndarray A :=
  match shape with
  | [] => Sc zero
  | n :: shape' => Arr (replicate n (nd_zeros shape'))
  end.

(** An index along an axis of length [n]: numpy counts a negative index
    from the end. *)
Definition axis_index (i : Z) (n : nat) : result nat :=
  if ((0 <=? i) && (i <? Z.of_nat n))%Z then Ok (Z.to_nat i)
  else if ((- Z.of_nat n <=? i) && (i <? 0))%Z then Ok (Z.to_nat (Z.of_nat n + i))
  else Raise IndexError.

(** [mat[trti, magi] = m]: a matrix of the shape of the cell is copied
    into it, any other is broadcast to the cell if numpy can. *)
Definition setitem2 (mat : ndarray A) (trti magi : Z) (m : ndarray A)
  : result (ndarray A) :=
  match mat with
  | Sc _ => Raise IndexError
  | Arr rows =>
      t ← axis_index trti (length rows);
      match rows !! t with
      | Some (Arr cols) =>
          g ← axis_index magi (length cols);
          match cols !! g with
          | Some old =>
              if decide (nd_shape m = nd_shape old)
              then Ok (Arr (<[t := Arr (<[g := m]> cols)]> rows))
              else match nd_broadcast (fun _ v => v) old m with
                   | Some m' => Ok (Arr (<[t := Arr (<[g := m']> cols)]> rows))
                   | None => Raise ValueError_shape
                   end
          | None => Raise IndexError
          end
      | _ => Raise IndexError
      end
  end.

(** The dictionary [trti, magi -> matrix] is the list of its items. *)
Definition _matrix (matrices : list ((nat * Z) * ndarray A))
    (num_trts num_mag_bins : nat) : iteration (ndarray A) :=
  match matrices with
  | [] => StopIteration                          (* next(iter(matrices)) *)
  | (_, first) :: _ =>
      let mat := nd_zeros (num_trts :: num_mag_bins :: nd_shape first) in
      Returns (foldlM (fun mat '((trti, magi), m) =>
                         setitem2 mat (Z.of_nat trti) magi m)
                      mat matrices)
  end.

End Matrix.

(** ** [get_outputs_size] *)

(** [c.lower()], for the ASCII letters. *)
Definition lower_ascii (c : Ascii.ascii) : Ascii.ascii :=
  let n := Ascii.nat_of_ascii c in
  if (Nat.leb 65 n && Nat.leb n 90)%bool then Ascii.ascii_of_nat (n + 32) else c.

(** [s.lower()] *)
Fixpoint lower (s : string) : string :=
  match s with
  | EmptyString => EmptyString
  | String c s' => String (lower_ascii c) (lower s')
  end.

(** [s.split(sep)] for a separator of one character: the pieces between
    the separators, empty pieces included. *)
Fixpoint split (sep : Ascii.ascii) (s : string) : list string :=
  match s with
  | EmptyString => [EmptyString]
  | String c s' =>
      if Ascii.eqb c sep then EmptyString :: split sep s'
      else match split sep s' with
           | piece :: pieces => String c piece :: pieces
           | [] => [String c EmptyString]
           end
  end.

(** The character ['_']. *)
Definition underscore : Ascii.ascii := Ascii.ascii_of_nat 95.

(** [d[key]] on a dictionary keyed by strings. *)
Definition str_getitem {V} (d : gmap string V) (key : string) : result V :=
  match d !! key with
  | Some v => Ok v
  | None => Raise KeyError
  end.

(** [tot[out] = 8] and then [tot[out] *= shapedic[key]] for the keys of
    the name. *)
Definition output_size (shapedic : gmap string Z) (out : string) : result Z :=
  foldlM (fun size key => n ← str_getitem shapedic key; Ok (size * n)%Z)
         8%Z (split underscore (lower out)).

Section OutputsSize.

(** [AccumDict.__mul__] of [openquake.baselib.general], the product of a
    dictionary of numbers and a number, is not among the sources. *)
Variable accumdict_mul : gmap string Z -> Z -> gmap string Z.

(** The integers are Python's, without bound. *)
Definition get_outputs_size (shapedic : gmap string Z) (disagg_outputs : list string)
  : result (gmap string Z) :=
  tot ← foldlM (fun tot out =>
                  size ← output_size shapedic out;
                  Ok (<[out := size]> tot))
               (∅ : gmap string Z) disagg_outputs;
  n ← str_getitem shapedic "N";
  let tot := accumdict_mul tot n in
  m ← str_getitem shapedic "M";
  let tot := accumdict_mul tot m in
  p ← str_getitem shapedic "P";
  let tot := accumdict_mul tot p in
  z ← str_getitem shapedic "Z";
  Ok (accumdict_mul tot z).

End OutputsSize.

(** ** [get_curve] and the dictionary [poe_id] *)

Section GetCurve.
Context {A : Type} `{Number A}.

(** [self.pgetter.get(rlz)], the curves of a realization by site, and
    [pcurve.convert(self.oqparam.imtls)]. *)
Variable PCurve : Type.
Variable pgetter_get : Z -> gmap nat PCurve.
Variable convert : PCurve -> curve A.

Definition get_curve (sid : nat) (rlzs : list Z) : list (option (curve A)) :=
  (fun rlz => convert <$> (pgetter_get rlz !! sid)) <$> rlzs.

(** [[self.get_curve(sid, rlzs[sid]) for sid in self.sitecol.sids]] *)
Definition get_curves (sids : list nat) (rlzs : list (list Z))
  : result (list (list (option (curve A)))) :=
  foldlM (fun curves sid => rs ← getitem rlzs sid; Ok (curves ++ [get_curve sid rs]))
         [] sids.

(** [d[k] = v] on a dictionary held as the list of its items: the value of
    a key that is there is replaced where it stands. *)
Fixpoint dict_set (d : list (option A * nat)) (k : option A) (v : nat)
  : list (option A * nat) :=
  match d with
  | [] => [(k, v)]
  | (k', v') :: d' =>
      if poe_eqb k' k then (k', v) :: d' else (k', v') :: dict_set d' k v
  end.

(** [{poe: i for i, poe in enumerate(oq.poes_disagg)}] *)
Definition make_poe_id (poes_disagg : list A) : list (option A * nat) :=
  fold_left (fun d '(i, poe) => dict_set d (Some poe) i) (imap pair poes_disagg) [].

End GetCurve.
Arguments get_curve {A PCurve} _ _ _ _.
Arguments get_curves {A PCurve} _ _ _ _.

(** * The vocabulary of the statements *)

Section ArrayVocabulary.
Context {A : Type} `{Number A}.

(** The cell [a[i1, ..., ik]]. *)
Fixpoint nd_get (idx : list nat) (a : ndarray A) {struct idx} : option A :=
  match idx, a with
  | [], Sc x => Some x
  | i :: idx', Arr rows => r ← rows !! i; nd_get idx' r
  | _, _ => None
  end.

(** [a] is an array of shape [sh]; a scalar has the shape []. *)
Fixpoint of_shape (sh : list nat) (a : ndarray A) {struct sh} : Prop :=
  match sh with
  | [] => exists x, a = Sc x
  | n :: sh' => exists rows, a = Arr rows /\ length rows = n /\ Forall (of_shape sh') rows
  end.

(** The product, cell by cell, of two arrays of one shape. *)
Fixpoint nd_zip_mul (a b : ndarray A) {struct a} : option (ndarray A) :=
  match a, b with
  | Sc x, Sc y => Some (Sc (mul x y))
  | Arr ra, Arr rb =>
      option_map Arr
        ((fix rows (ra rb : list (ndarray A)) {struct ra} : option (list (ndarray A)) :=
            match ra, rb with
            | [], [] => Some []
            | x :: ra', y :: rb' =>
                match nd_zip_mul x y, rows ra' rb' with
                | Some z, Some zs => Some (z :: zs)
                | _, _ => None
                end
            | _, _ => None
            end) ra rb)
  | _, _ => None
  end.

(** [acc *= x] when nothing is broadcast: the product of a scalar and an
    array, or of two arrays of one shape cell by cell. *)
Definition imul_cells (acc x : ndarray A) : result (ndarray A) :=
  match acc, x with
  | Sc c, _ => Ok (nd_map (mul c) x)
  | Arr _, Sc c => Ok (nd_map (fun v => mul v c) acc)
  | Arr _, Arr _ =>
      match nd_zip_mul acc x with
      | Some r => Ok r
      | None => Raise ValueError_shape
      end
  end.

(** A scalar, or an array of the shape [sh]. *)
Definition scalar_or (sh : list nat) (a : ndarray A) : Prop :=
  of_shape [] a \/ of_shape sh a.

End ArrayVocabulary.

(** A binary64 number between 0 and 1, as Python compares them. *)
Definition probability (p : float) : Prop :=
  (0 <=? p)%float = true /\ (p <=? 1)%float = true.

(** The same, on the sign, mantissa and exponent of the number: a zero, or
    a positive number that is 1 or has an exponent below that of 1. *)
Definition unit_sf (x : spec_float) : Prop :=
  match x with
  | S754_zero _ => True
  | S754_finite false m e =>
      (e <= -53)%Z \/ (m = 4503599627370496%positive /\ e = (-52)%Z)
  | _ => False
  end.

Section ReducerVocabulary.
Context {A : Type} `{Number A}.

(** The value [agg_result] reads before merging: the slot, or 0. *)
Definition before (acc : accum A) (res : task_result A) (sid : nat) : ndarray A :=
  default (Sc zero) (slot acc (imti res) sid (trti res) (magi res)).

(** The cell [idx] of that value: the cell of the matrix in the slot, or 0
    whatever the cell when the slot is empty. *)
Definition before_cell (acc : accum A) (res : task_result A) (sid : nat)
    (idx : list nat) : option A :=
  match slot acc (imti res) sid (trti res) (magi res) with
  | Some old => nd_get idx old
  | None => Some zero
  end.

(** The matrices of a result fit the accumulator: the matrix of the site
    [sid] has the shape [sh sid], and so has the matrix that the slot of the
    site holds, if any. *)
Definition fits (sh : nat -> list nat) (acc : accum A) (res : task_result A) : Prop :=
  forall sid probs, by_sid res !! sid = Some probs ->
    of_shape (sh sid) probs /\
    forall old, slot acc (imti res) sid (trti res) (magi res) = Some old ->
                of_shape (sh sid) old.

End ReducerVocabulary.

Section BinsVocabulary.
Context {A : Type}.

(** The number of cells of the 6-D matrix, as an integer. *)
Definition element_count (b : bin_edges A) (lons0 lats0 : list A) (trts : list string) : Z :=
  ((len (mag_edges b) - 1) * (len (dist_edges b) - 1) * (len lons0 - 1) *
   (len lats0 - 1) * (len (eps_edges b) - 1) * len trts)%Z.

(** The names of the datasets written. *)
Definition keys_written (ds : list (bins_key * list A)) : list bins_key :=
  List.map fst ds.

End BinsVocabulary.

(** The shape (N, Z) of the array [rlzs]. *)
Definition has_shape (N nZ : nat) (rlzs : list (list Z)) : Prop :=
  length rlzs = N /\ Forall (fun row => length row = nZ) rlzs.

Section CurvesVocabulary.
Context {A : Type} `{Number A}.

(** The warnings of one curve for one IMT, of one curve, of one site. *)
Definition poe_warnings (sid : nat) (rlz : Z) (imt : string) (max_poe : A)
    (poes_disagg : list A) : list (warning A) :=
  flat_map (fun poe => if ltb max_poe poe
                       then [POE_TOO_BIG sid poe max_poe rlz imt] else [])
           poes_disagg.

Definition curve_warnings (sid : nat) (rlz : Z) (c : option (curve A))
    (imtls : list string) (poes_disagg : list A) : list (warning A) :=
  flat_map (fun imt => match curve_max c imt with
                       | Ok max_poe => poe_warnings sid rlz imt max_poe poes_disagg
                       | Raise _ => []
                       end) imtls.

Definition site_warnings (sid : nat) (rlzs : list Z) (curves : list (option (curve A)))
    (imtls : list string) (poes_disagg : list A) : list (warning A) :=
  flat_map (fun '(rlz, c) => curve_warnings sid rlz c imtls poes_disagg)
           (zip rlzs curves).

(** The curves of a site are all there, with a poe at least per IMT. *)
Definition present (imtls : list string) (curves : list (option (curve A))) : Prop :=
  Forall (fun c => exists cv, c = Some cv /\
                              Forall (fun imt => cv imt <> []) imtls) curves.

Variables (imtls : list string) (poes_disagg : list A).
Variables (curves : list (list (option (curve A)))) (rlzs : list (list Z)).

(** At site [sid], whose curves are there, the requested [poe] exceeds the
    maximum [max_poe] of the curve of the realization [rlz] for [imt]. *)
Definition exceeds (sid : nat) (poe max_poe : A) (rlz : Z) (imt : string) : Prop :=
  exists cs rs cv,
    curves !! sid = Some cs /\ rlzs !! sid = Some rs /\ present imtls cs /\
    (rlz, Some cv) ∈ zip rs cs /\ imt ∈ imtls /\ poe ∈ poes_disagg /\
    amax (cv imt) = Ok max_poe /\ ltb max_poe poe = true.

Definition too_big (sid : nat) : Prop :=
  exists poe max_poe rlz imt, exceeds sid poe max_poe rlz imt.

(** The site has its rows in [curves] and [rlzs], and its curves are all
    missing or all there. *)
Definition well_formed_site (sid : nat) : Prop :=
  exists cs rs,
    curves !! sid = Some cs /\ rlzs !! sid = Some rs /\
    (forallb is_None cs = true \/ present imtls cs).

Definition sid_warnings (sid : nat) : list (warning A) :=
  match curves !! sid, rlzs !! sid with
  | Some cs, Some rs =>
      if forallb is_None cs then [] else site_warnings sid rs cs imtls poes_disagg
  | _, _ => []
  end.

Definition sid_ok (sid : nat) : bool :=
  match sid_warnings sid with [] => true | _ => false end.

End CurvesVocabulary.

Section PmfVocabulary.
Context {A : Type} `{Number A}.
Variable pmf_map : list (string * (ndarray A -> ndarray A)).
Variable average : string -> list Z -> list (ndarray A) -> ndarray A.
Variables (disagg_outputs : list string) (poe_id : list (option A * nat)).
Variables (imts : list string) (self_rlzs : list (list Z)).
Variables (poes_disagg : list (option A)) (nZ : nat).

(** The dataset and the entry of [poe_agg] of one PMF. *)
Definition pmf_of (matrix6 aggmatrix : ndarray A) (key : string)
    (fn : ndarray A -> ndarray A) : ndarray A :=
  fn (if endswith key "TRT" then matrix6 else aggmatrix).

Definition pmfs_requested : list (string * (ndarray A -> ndarray A)) :=
  List.filter (fun kf => requested disagg_outputs (fst kf)) pmf_map.

(** The result [((m, s), mat8)] has its IMT, its realizations and its
    [P x Z] matrices, and all of these, and their means, are zero. *)
Definition all_zero (res : (nat * nat) * list (list (ndarray A))) : Prop :=
  let '((m, s), mat8) := res in
  exists imt rlzs,
    imts !! m = Some imt /\ self_rlzs !! s = Some rlzs /\
    forall p, p < length poes_disagg ->
      exists mat7,
        mat8 !! p = Some mat7 /\
        (forall z, z < nZ -> exists mat6, mat7 !! z = Some mat6 /\ nd_any mat6 = false) /\
        nd_any (average imt rlzs mat7) = false.

Variable results : list ((nat * nat) * list (list (ndarray A))).

(** [matrix6] is the 6-D matrix of site [s], realization [r] (or the mean),
    [poe] and [imt] in [results]. *)
Definition combination (s : nat) (r : rlz_ref) (poe : option A) (imt : string)
    (matrix6 : ndarray A) : Prop :=
  exists m mat8 p mat7 rlzs,
    ((m, s), mat8) ∈ results /\ imts !! m = Some imt /\
    self_rlzs !! s = Some rlzs /\ poes_disagg !! p = Some poe /\
    mat8 !! p = Some mat7 /\
    ((exists z i, z < nZ /\ mat7 !! z = Some matrix6 /\ rlzs !! z = Some i /\ r = Rlz i) \/
     (1 < length rlzs /\ r = Mean /\ matrix6 = average imt rlzs mat7)).

(** The dataset [w] was written by [_save] for a combination whose matrix
    has a cell that is not zero. *)
Definition from_nonzero_matrix (w : (disp_name * string) * ndarray A) : Prop :=
  exists s r poe imt matrix6 out poe_agg,
    combination s r poe imt matrix6 /\
    nd_any matrix6 = true /\
    _save pmf_map disagg_outputs poe_id s r poe imt matrix6 [] = Ok (out, poe_agg) /\
    w ∈ out.

Definition only_nonzero (ds0 ds : pmf_store (A := A)) : Prop :=
  exists new, ds = ds0 ++ new /\ Forall from_nonzero_matrix new.

(** The requested PMFs of the site [s], realization [r] (or the mean),
    [poe] and [imt], extracted from [matrix6], are all among the datasets
    [ds]. *)
Definition persisted (s : nat) (r : rlz_ref) (poe : option A) (imt : string)
    (matrix6 : ndarray A) (ds : pmf_store (A := A)) : Prop :=
  exists p slices aggmatrix,
    poe_id_getitem poe_id poe = Ok p /\
    unpack matrix6 = Ok slices /\
    agg_probs slices = Ok aggmatrix /\
    forall key fn, (key, fn) ∈ pmf_map -> requested disagg_outputs key = true ->
      (({| name_rlz := r; name_imt := imt; name_sid := s; name_poe := p |}, key),
       pmf_of matrix6 aggmatrix key fn) ∈ ds.

End PmfVocabulary.

(** Modelled from the spec: a PMF that keeps the first axis of the matrix
    it is given and folds the other axes with [1 - prod(1 - p)] (section
    4.6).  The functions of [disagg.pmf_map] are not among the sources;
    the PMF by magnitude, on the collapsed matrix, and the PMF by TRT, on
    the full one, have this form. *)
Definition first_axis_pmf {A : Type} `{Number A} (m : ndarray A) : ndarray A :=
  match m with
  | Sc x => Sc x
  | Arr rows => Arr ((fun row => Sc (sub one (nd_prod (rsub one row)))) <$> rows)
  end.

(** The product [(1 - P1) ... (1 - Pn)] of the docstring of [agg_probs]. *)
Definition survival {A : Type} `{Number A} (ps : list A) : A :=
  foldr (fun p acc => mul (sub one p) acc) one ps.

(** The cell [mat[t, g]] of a matrix with two leading axes. *)
Definition cell2 {A : Type} (mat : ndarray A) (t g : nat) : option (ndarray A) :=
  match mat with
  | Arr rows => match rows !! t with
                | Some (Arr cols) => cols !! g
                | _ => None
                end
  | Sc _ => None
  end.

(** A matrix with [T] times [Ma] cells, each an array of shape [sh]. *)
Definition grid {A : Type} (T Ma : nat) (sh : list nat) (mat : ndarray A) : Prop :=
  exists rows,
    mat = Arr rows /\ length rows = T /\
    forall t row, rows !! t = Some row ->
      exists cols, row = Arr cols /\ length cols = Ma /\
                   forall g c, cols !! g = Some c -> nd_shape c = sh.

(** The indices that numpy accepts along an axis of length [n], and the
    position they stand for. *)
Definition on_axis (i : Z) (n : nat) : Prop := (- Z.of_nat n <= i < Z.of_nat n)%Z.

Definition position (i : Z) (n : nat) : nat := Z.to_nat (i mod Z.of_nat n).

(** The keys that [get_outputs_size] reads in [shapedic], in the order
    it reads them, and the numbers it multiplies. *)
Definition needed_keys (disagg_outputs : list string) : list string :=
  flat_map (fun out => split underscore (lower out)) disagg_outputs
  ++ ["N"; "M"; "P"; "Z"].

Definition shape_of (shapedic : gmap string Z) (key : string) : Z :=
  default 0%Z (shapedic !! key).

Definition product_of (l : list Z) : Z := foldr Z.mul 1%Z l.

(** What [AccumDict.__mul__] does to a dictionary of numbers: every value
    is multiplied by the number. *)
Definition scales_values (accumdict_mul : gmap string Z -> Z -> gmap string Z) : Prop :=
  forall (d : gmap string Z) (n : Z),
    accumdict_mul d n = fmap (M := gmap string) (fun size => size * n)%Z d.

(** The sites of the results of a task, in the order they are yielded. *)
Definition sites_of {A : Type} (results : list (task_result A)) : list nat :=
  flat_map (fun r => (map_to_list (by_sid r)).*1) results.

(** The datasets of the edges of the sites, in the order of the sites. *)
Definition site_edges {A : Type} (b : bin_edges A) (sids : list nat)
  : list (bins_key * list A) :=
  flat_map (fun sid => [(disagg_bins_lons sid, default [] (lon_edges b !! sid));
                        (disagg_bins_lats sid, default [] (lat_edges b !! sid))]) sids.

(** A result with one site, as the tasks yield them. *)
Definition one_site {A : Type} (r : task_result A) : Prop :=
  exists sid m, by_sid r = {[ sid := m ]}.

(** * The inputs of the scenarios *)

(** A 6-D matrix of shape (2, 1, 1, 1, 1, 1): two distance bins, one bin
    of longitude, latitude and epsilon, one poe and one realization. *)
Definition cell5 (x : float) : ndarray float := Arr [Arr [Arr [Arr [Arr [Sc x]]]]].

Definition matrix6_of (x y : float) : ndarray float := Arr [cell5 x; cell5 y].

(** The scenario of two tasks that return a 6-D matrix holding 0.5 in one
    cell, for the same site and bin. *)
Definition half_result : task_result float :=
  {| trti := 0; magi := 0; imti := 0;
     by_sid := {[ 0%nat := matrix6_of 0.5 0 ]} |}.

(** Edges every 1 unit from 0: [n - 1] bins. *)
Fixpoint edges_from (x : float) (n : nat) : list float :=
  match n with
  | O => []
  | S n' => x :: edges_from (x + 1)%float n'
  end.

(** A binning with 65536 bins of magnitude, distance, longitude and
    latitude, one bin of epsilon and one tectonic region type. *)
Definition fine_edges : list float := edges_from 0%float (Z.to_nat 65537).

Definition fine_bins : bin_edges float := {|
  mag_edges := fine_edges;
  dist_edges := fine_edges;
  lon_edges := {[ 0%nat := fine_edges ]};
  lat_edges := {[ 0%nat := fine_edges ]};
  eps_edges := [(-3)%float; 3%float]
|}.

(** The scenario of a site whose curve reaches 1e-6 at most, next to a site
    whose curve reaches 0.5, for the requested poe 0.1. *)
Definition low_curves : list (list (option (curve float))) :=
  [[Some (fun _ => [0x1.0c6f7a0b5ed8dp-20; 0x1.ad7f29abcaf48p-24]%float)];
   [Some (fun _ => [0.5; 0.25]%float)]].

(** The curves of two sites for two realizations: site 0 reaches 1e-6 in
    both, site 1 reaches 0.5 in realization 0 and is not among the curves of
    realization 1. *)
Definition pmaps_of_two_rlzs (rlz : Z) : gmap nat (curve float) :=
  if (rlz =? 0)%Z
  then {[ 0%nat := fun _ => [0x1.0c6f7a0b5ed8dp-20; 0x1.ad7f29abcaf48p-24]%float;
          1%nat := fun _ => [0.5; 0.25]%float ]}
  else {[ 0%nat := fun _ => [0x1.0c6f7a0b5ed8dp-20; 0x1.ad7f29abcaf48p-24]%float ]}.

Definition mixed_curves : list (list (option (curve float))) :=
  [[Some (fun _ => [0x1.0c6f7a0b5ed8dp-20; 0x1.ad7f29abcaf48p-24]%float);
    Some (fun _ => [0x1.0c6f7a0b5ed8dp-20; 0x1.ad7f29abcaf48p-24]%float)];
   [Some (fun _ => [0.5; 0.25]%float); None]].

(** A matrix with two TRTs and two cells per TRT. *)
Definition two_trts : ndarray float :=
  Arr [Arr [Sc 0.5%float; Sc 0%float]; Arr [Sc 0.5%float; Sc 0.25%float]].

Definition site0_poe0 : disp_name :=
  {| name_rlz := Rlz 3; name_imt := "PGA"; name_sid := 0; name_poe := 0 |}.

(** A result that is zero throughout: one site, one realization, one poe. *)
Definition zero_results : list ((nat * nat) * list (list (ndarray float))) :=
  [((0, 0), [[Arr [Arr [Sc 0%float; Sc 0%float]]]])].

(** A 6-D matrix with a single cell, which holds 1e-17. *)
Definition tiny6 : ndarray float :=
  Arr [Arr [Arr [Arr [Arr [Arr [Sc 0x1.70ef54646d497p-57%float]]]]]].

(** A [shapedic]: two magnitude bins, three distance bins, four by four
    cells of longitude and latitude, five epsilon bins, one TRT; one site,
    two IMTs, one poe and one realization. *)
Definition small_shapedic : gmap string Z :=
  list_to_map [("mag", 2); ("dist", 3); ("lon", 4); ("lat", 4); ("eps", 5);
               ("trt", 1); ("N", 1); ("M", 2); ("P", 1); ("Z", 1)]%Z.

(** The curves of two realizations: those of realization 0 have site 0,
    those of realization 1 have no site. *)
Definition pmaps_of_rlz0 (rlz : Z) : gmap nat (curve float) :=
  if (rlz =? 0)%Z then {[ 0%nat := fun _ => [0.5; 0.25]%float ]} else ∅.

(** Bins for two sites: one magnitude bin, one distance bin, one cell of
    longitude and latitude, one epsilon bin. *)
Definition small_bins : bin_edges float := {|
  mag_edges := [5; 6]%float;
  dist_edges := [0; 100]%float;
  lon_edges := {[ 0%nat := [10; 11]%float; 1%nat := [12; 13]%float ]};
  lat_edges := {[ 0%nat := [40; 41]%float; 1%nat := [42; 43]%float ]};
  eps_edges := [-3; 3]%float
|}.

(** Bins for one site, with 100 magnitude bins, 100 distance bins and 101
    cells of longitude: 1,010,000 cells for one TRT. *)
Definition large_bins : bin_edges float := {|
  mag_edges := edges_from 0%float 101;
  dist_edges := edges_from 0%float 101;
  lon_edges := {[ 0%nat := edges_from 0%float 102 ]};
  lat_edges := {[ 0%nat := [40; 41]%float ]};
  eps_edges := [-3; 3]%float
|}.

(** Two results for one slot and one for another, over the reals. *)
Definition real_results : list (task_result R) :=
  [ {| trti := 0; magi := 0; imti := 0;
       by_sid := {[ 0%nat := Arr [Sc (1 / 2)%R; Sc 0%R] ]} |};
    {| trti := 0; magi := 0; imti := 0;
       by_sid := {[ 0%nat := Arr [Sc (1 / 4)%R; Sc (1 / 2)%R] ]} |};
    {| trti := 1; magi := 0; imti := 0;
       by_sid := {[ 0%nat := Arr [Sc (1 / 2)%R; Sc (1 / 2)%R] ]} |} ].

(** * Properties *)

(** ** Arrays *)

Section ndarray_induction.
Context {A : Type} (P : ndarray A -> Prop).
Hypothesis HSc : forall x, P (Sc x).
Hypothesis HArr : forall rows, Forall P rows -> P (Arr rows).

Lemma ndarray_nested_ind : forall a, P a.
Proof.
  fix IH 1. intros [x | rows].
  - apply HSc.
  - apply HArr. induction rows as [| r rows IHrows]; constructor.
    + apply IH.
    + exact IHrows.
Qed.

End ndarray_induction.

Section nd_map_facts.
Context {A : Type}.

Lemma nd_map_ext (f g : A -> A) (a : ndarray A) :
  (forall x, f x = g x) -> nd_map f a = nd_map g a.
Proof.
  intros Hfg. induction a as [x | rows IH] using ndarray_nested_ind; simpl.
  - by rewrite Hfg.
  - f_equal. induction IH as [| r rows Hr _ IHrows]; simpl; [done |].
    by rewrite Hr, IHrows.
Qed.

Lemma nd_map_map (f g : A -> A) (a : ndarray A) :
  nd_map f (nd_map g a) = nd_map (fun x => f (g x)) a.
Proof.
  induction a as [x | rows IH] using ndarray_nested_ind; simpl; [done |].
  f_equal. induction IH as [| r rows Hr _ IHrows]; simpl; [done |].
  by rewrite Hr, IHrows.
Qed.

Lemma nd_map_id (f : A -> A) (a : ndarray A) :
  (forall x, f x = x) -> nd_map f a = a.
Proof.
  intros Hf. induction a as [x | rows IH] using ndarray_nested_ind; simpl.
  - by rewrite Hf.
  - f_equal. induction IH as [| r rows Hr _ IHrows]; simpl; [done |].
    by rewrite Hr, IHrows.
Qed.

End nd_map_facts.

(** ** Arrays of one shape, and what is broadcast *)

Lemma map_opt_Forall2 {X Y} (g : X -> option Y) (l : list X) (k : list Y) :
  map_opt g l = Some k -> Forall2 (fun x z => g x = Some z) l k.
Proof.
  revert k. induction l as [| x l IH]; intros k; simpl.
  - intros [= <-]. constructor.
  - destruct (g x) as [z |] eqn:Hz; [| done].
    destruct (map_opt g l) as [zs |]; [| done].
    intros [= <-]. constructor; [done | by apply IH].
Qed.

Lemma zip_opt_Forall2 {X Y Z'} (g : X -> Y -> option Z') (l : list X) (l' : list Y)
    (k : list Z') :
  zip_opt g l l' = Some k -> Forall2 (fun x z => exists y, g x y = Some z) l k.
Proof.
  revert l' k. induction l as [| x l IH]; intros [| y l'] k; simpl; try done.
  - intros [= <-]. constructor.
  - destruct (g x y) as [z |] eqn:Hz; [| done].
    destruct (zip_opt g l l') as [zs |] eqn:Hzs; [| done].
    intros [= <-]. constructor; [by exists y | by apply (IH l')].
Qed.

Lemma zip_opt_ext {X Y Z'} (P : X -> Prop) (Q : Y -> Prop) (g g' : X -> Y -> option Z')
    (l : list X) (l' : list Y) :
  (forall x y, P x -> Q y -> g x y = g' x y) ->
  Forall P l -> Forall Q l' -> zip_opt g l l' = zip_opt g' l l'.
Proof.
  intros Hg Hl. revert l'. induction Hl as [| x l Hx _ IH]; intros l' Hl'.
  - done.
  - destruct Hl' as [| y l' Hy Hl']; [done |]. simpl.
    by rewrite (Hg x y), (IH l').
Qed.

Section shape_facts.
Context {A : Type} `{Number A}.

Lemma nd_broadcast_Arr (f : A -> A -> A) (ra : list (ndarray A)) (x : ndarray A) :
  nd_broadcast f (Arr ra) x
  = if Nat.ltb (nd_ndim x) (nd_ndim (Arr ra)) then
      option_map Arr (map_opt (fun r => nd_broadcast f r x) ra)
    else if Nat.ltb (nd_ndim (Arr ra)) (nd_ndim x) then None
    else match x with
         | Sc _ => None
         | Arr rb =>
             if Nat.eqb (length rb) (length ra) then
               option_map Arr (zip_opt (fun r y => nd_broadcast f r y) ra rb)
             else match rb with
                  | [y] => option_map Arr (map_opt (fun r => nd_broadcast f r y) ra)
                  | _ => None
                  end
         end.
Proof. reflexivity. Qed.

Lemma nd_zip_mul_Arr (ra rb : list (ndarray A)) :
  nd_zip_mul (Arr ra) (Arr rb) = option_map Arr (zip_opt nd_zip_mul ra rb).
Proof. reflexivity. Qed.

Lemma of_shape_ndim (sh : list nat) (a b : ndarray A) :
  of_shape sh a -> of_shape sh b -> nd_ndim a = nd_ndim b.
Proof.
  revert a b. induction sh as [| n sh IH]; intros a b Ha Hb.
  - destruct Ha as [x ->], Hb as [y ->]. done.
  - destruct Ha as (ra & -> & Hla & Hra), Hb as (rb & -> & Hlb & Hrb).
    simpl. f_equal.
    destruct Hra as [| r ra Hr _], Hrb as [| r' rb Hr' _]; simpl in *; try congruence.
    by apply IH.
Qed.

Lemma of_shape_map (f : A -> A) (sh : list nat) (a : ndarray A) :
  of_shape sh a -> of_shape sh (nd_map f a).
Proof.
  revert a. induction sh as [| n sh IH]; intros a Ha.
  - destruct Ha as [x ->]. by eexists.
  - destruct Ha as (ra & -> & Hl & Hra). exists (List.map (nd_map f) ra).
    split; [done |]. split; [by rewrite length_map |].
    change (List.map (nd_map f) ra) with (nd_map f <$> ra).
    apply Forall_fmap. eapply Forall_impl; [exact Hra |]. intros r. apply IH.
Qed.

Lemma nd_get_map (f : A -> A) (idx : list nat) (a : ndarray A) :
  nd_get idx (nd_map f a) = f <$> nd_get idx a.
Proof.
  revert a. induction idx as [| i idx IH]; intros [x | rows]; simpl; try done.
  change (List.map (nd_map f) rows) with (nd_map f <$> rows).
  rewrite list_lookup_fmap. destruct (rows !! i) as [r |]; simpl; [apply IH | done].
Qed.

(** The rows of two arrays of one shape, combined row by row. *)
Lemma zip_opt_same_shape (f : A -> A -> A) (sh : list nat) (ra rb : list (ndarray A)) :
  (forall a b, of_shape sh a -> of_shape sh b ->
     exists c, nd_broadcast f a b = Some c /\ of_shape sh c /\
       forall idx, nd_get idx c = (x ← nd_get idx a; y ← nd_get idx b; Some (f x y))) ->
  Forall (of_shape sh) ra -> Forall (of_shape sh) rb -> length ra = length rb ->
  exists rc,
    zip_opt (fun r y => nd_broadcast f r y) ra rb = Some rc /\
    Forall (of_shape sh) rc /\ length rc = length ra /\
    forall i idx,
      (rc !! i ≫= nd_get idx)
      = (x ← ra !! i ≫= nd_get idx; y ← rb !! i ≫= nd_get idx; Some (f x y)).
Proof.
  intros Hcell Hra. revert rb.
  induction Hra as [| a ra Ha _ IH]; intros rb Hrb Hlen.
  - destruct rb; [| done]. exists [].
    split; [done |]. split; [constructor |]. split; [done |]. by intros i idx.
  - destruct Hrb as [| b rb Hb Hrb]; [done |].
    destruct (Hcell a b Ha Hb) as (c & Hc & Hsc & Hgc).
    destruct (IH rb Hrb) as (rc & Hrc & Hsrc & Hlrc & Hgrc); [simpl in Hlen; lia |].
    exists (c :: rc). simpl. rewrite Hc, Hrc.
    split; [done |]. split; [by constructor |]. split; [by rewrite Hlrc |].
    intros [| i] idx; simpl; [apply Hgc | apply Hgrc].
Qed.

(** On two arrays of one shape nothing is broadcast: the result has that
    shape and each of its cells is made from the two cells at its place. *)
Lemma nd_broadcast_same_shape (f : A -> A -> A) (sh : list nat) (a b : ndarray A) :
  of_shape sh a -> of_shape sh b ->
  exists c, nd_broadcast f a b = Some c /\ of_shape sh c /\
    forall idx, nd_get idx c = (x ← nd_get idx a; y ← nd_get idx b; Some (f x y)).
Proof.
  revert a b. induction sh as [| n sh IH]; intros a b Ha Hb.
  - destruct Ha as [x ->], Hb as [y ->]. exists (Sc (f x y)).
    split; [done |]. split; [by eexists |]. by intros [| i idx].
  - pose proof (of_shape_ndim _ _ _ Hb Ha) as Hnd.
    destruct Ha as (ra & -> & Hla & Hra), Hb as (rb & -> & Hlb & Hrb).
    rewrite nd_broadcast_Arr, Hnd, Nat.ltb_irrefl, Hlb, Hla, Nat.eqb_refl.
    destruct (zip_opt_same_shape f sh ra rb IH Hra Hrb) as (rc & -> & Hsrc & Hlrc & Hgrc);
      [congruence |].
    exists (Arr rc). split; [done |]. split.
    + exists rc. repeat split; [congruence | done].
    + intros [| i idx]; [done |]. apply Hgrc.
Qed.

(** On two arrays of one shape the broadcast product is the product cell
    by cell. *)
Lemma nd_broadcast_zip (sh : list nat) (a b : ndarray A) :
  of_shape sh a -> of_shape sh b -> nd_broadcast mul a b = nd_zip_mul a b.
Proof.
  revert a b. induction sh as [| n sh IH]; intros a b Ha Hb.
  - destruct Ha as [x ->], Hb as [y ->]. done.
  - pose proof (of_shape_ndim _ _ _ Hb Ha) as Hnd.
    destruct Ha as (ra & -> & Hla & Hra), Hb as (rb & -> & Hlb & Hrb).
    rewrite nd_broadcast_Arr, Hnd, Nat.ltb_irrefl, Hlb, Hla, Nat.eqb_refl.
    rewrite nd_zip_mul_Arr. f_equal.
    apply (zip_opt_ext (of_shape sh) (of_shape sh)); [| done | done].
    intros x y. apply IH.
Qed.

Lemma nd_zip_mul_same_shape (sh : list nat) (a b : ndarray A) :
  of_shape sh a -> of_shape sh b ->
  exists c, nd_zip_mul a b = Some c /\ of_shape sh c.
Proof.
  intros Ha Hb. rewrite <- (nd_broadcast_zip sh) by done.
  destruct (nd_broadcast_same_shape mul sh a b Ha Hb) as (c & Hc & Hsc & _).
  by exists c.
Qed.

(** Whatever is broadcast, the result has the shape of the array that is
    updated. *)
Lemma nd_broadcast_shape (f : A -> A -> A) (acc x r : ndarray A) :
  nd_broadcast f acc x = Some r -> nd_shape r = nd_shape acc.
Proof.
  revert x r. induction acc as [a | ra IH] using ndarray_nested_ind; intros x r.
  - destruct x as [b | rb]; [| done]. by intros [= <-].
  - assert (Hrows : forall (g : ndarray A -> ndarray A -> Prop) rc,
              (forall a c, g a c -> exists y, nd_broadcast f a y = Some c) ->
              Forall2 g ra rc -> nd_shape (Arr rc) = nd_shape (Arr ra)).
    { intros g rc Hg H2. simpl. rewrite <- (Forall2_length _ _ _ H2). f_equal.
      destruct H2 as [| a c ra rc Hac _]; [done |].
      destruct (Hg a c Hac) as [y Hy].
      apply Forall_cons in IH as [IHa _]. by apply (IHa y). }
    rewrite nd_broadcast_Arr.
    destruct (Nat.ltb (nd_ndim x) (nd_ndim (Arr ra))).
    { destruct (map_opt _ ra) as [rc |] eqn:Hrc; [| done]. intros [= <-].
      apply map_opt_Forall2 in Hrc. eapply Hrows; [| exact Hrc].
      intros a c Hac. by exists x. }
    destruct (Nat.ltb (nd_ndim (Arr ra)) (nd_ndim x)); [done |].
    destruct x as [b | rb]; [done |].
    destruct (Nat.eqb (length rb) (length ra)).
    { destruct (zip_opt _ ra rb) as [rc |] eqn:Hrc; [| done]. intros [= <-].
      apply zip_opt_Forall2 in Hrc. eapply Hrows; [| exact Hrc]. done. }
    destruct rb as [| y [| ? ?]]; try done.
    destruct (map_opt _ ra) as [rc |] eqn:Hrc; [| done]. intros [= <-].
    apply map_opt_Forall2 in Hrc. eapply Hrows; [| exact Hrc].
    intros a c Hac. by exists y.
Qed.

End shape_facts.

(** ** [agg_probs], whatever the numbers *)

Section agg_probs_facts.
Context {A : Type} `{Number A}.

Lemma agg_probs_single (p : ndarray A) :
  agg_probs [p] = Ok (rsub one (rsub one p)).
Proof. reflexivity. Qed.

Lemma agg_probs_scalars (a b : A) :
  agg_probs [Sc a; Sc b] = Ok (Sc (combine a b)).
Proof. reflexivity. Qed.

(** What [agg_result] computes on an empty slot, [agg_probs(0, probs)]. *)
Lemma agg_probs_scalar_l (c : A) (p : ndarray A) :
  agg_probs [Sc c; p]
  = Ok (nd_map (fun x => sub one (mul (sub one c) (sub one x))) p).
Proof.
  unfold agg_probs, rsub. simpl. by rewrite !nd_map_map.
Qed.

Lemma foldlM_scalars (a : A) (ps : list A) :
  foldlM (fun acc prob => imul acc (rsub one prob)) (Sc a) (Sc <$> ps)
  = Ok (Sc (fold_left (fun acc p => mul acc (sub one p)) ps a)).
Proof.
  revert a. induction ps as [| p ps IH]; intros a; simpl; [done |].
  apply IH.
Qed.

Lemma agg_probs_scalar_list (p0 : A) (ps : list A) :
  agg_probs (Sc <$> p0 :: ps)
  = Ok (Sc (sub one (fold_left (fun acc p => mul acc (sub one p)) ps (sub one p0)))).
Proof.
  unfold agg_probs. rewrite fmap_cons. simpl rsub.
  change (rsub one (Sc p0)) with (Sc (sub one p0)).
  by rewrite foldlM_scalars.
Qed.

(** [acc *= x] on two arrays of one shape: the product cell by cell. *)
Lemma imul_same_shape (sh : list nat) (a b : ndarray A) :
  of_shape sh a -> of_shape sh b ->
  exists c, imul a b = Ok c /\ of_shape sh c /\
    forall idx, nd_get idx c = (x ← nd_get idx a; y ← nd_get idx b; Some (mul x y)).
Proof.
  intros Ha Hb.
  destruct (nd_broadcast_same_shape mul sh a b Ha Hb) as (c & Hc & Hsc & Hg).
  exists c. split; [| done].
  destruct sh as [| n sh].
  - destruct Ha as [x ->], Hb as [y ->]. simpl in Hc. by inversion Hc.
  - destruct Ha as (ra & -> & _), Hb as (rb & -> & _). unfold imul. by rewrite Hc.
Qed.

(** Two arrays of one shape, whatever the shape, combine cell by cell. *)
Lemma agg_probs_same_shape (sh : list nat) (a b : ndarray A) :
  of_shape sh a -> of_shape sh b ->
  exists c, agg_probs [a; b] = Ok c /\ of_shape sh c /\
    forall idx, nd_get idx c = (x ← nd_get idx a; y ← nd_get idx b; Some (combine x y)).
Proof.
  intros Ha Hb.
  destruct (imul_same_shape sh (rsub one a) (rsub one b)) as (c & Hc & Hsc & Hg);
    [by apply of_shape_map | by apply of_shape_map |].
  exists (rsub one c). split.
  { unfold agg_probs. cbn [foldlM]. by rewrite Hc. }
  split; [by apply of_shape_map |].
  intros idx. unfold rsub in *. rewrite nd_get_map, Hg, !nd_get_map.
  by destruct (nd_get idx a), (nd_get idx b).
Qed.

End agg_probs_facts.

(** ** [agg_probs] in binary64 *)

Lemma SFmul_comm prec emax (x y : spec_float) :
  SFmul prec emax x y = SFmul prec emax y x.
Proof.
  destruct x as [sx | sx | | sx mx ex], y as [sy | sy | | sy my ey]; simpl;
    try reflexivity; try (by rewrite xorb_comm).
  by rewrite xorb_comm, Pos.mul_comm, Z.add_comm.
Qed.

Lemma float_mul_comm (x y : float) : (x * y)%float = (y * x)%float.
Proof.
  apply Prim2SF_inj. rewrite !mul_spec. apply SFmul_comm.
Qed.

Lemma Prim2SF_one : Prim2SF 1%float = S754_finite false 4503599627370496 (-52).
Proof. vm_compute. reflexivity. Qed.

(** A product by 1 is exact. *)
Lemma SFmul_1_l (s : bool) (m : positive) (e : Z) :
  SpecFloat.bounded prec emax m e = true ->
  SFmul prec emax (S754_finite false 4503599627370496 (-52)) (S754_finite s m e)
  = S754_finite s m e.
Proof.
  intros Hb. apply andb_prop in Hb as [Hcan Hle].
  unfold canonical_mantissa in Hcan. apply Z.eqb_eq in Hcan.
  cbn [SFmul xorb].
  unfold binary_round_aux, shr_fexp.
  cbv [PosDef.Pos.mul]. cbn [Zdigits2 digits2_pos].
  change PosDef.Pos.succ with Pos.succ. change IntDef.Z.add with Z.add.
  change IntDef.Z.sub with Z.sub. change IntDef.Z.leb with Z.leb.
  rewrite !Pos2Z.inj_succ.
  match goal with
  | |- context [fexp prec emax ?x] =>
      replace x with (Z.pos (digits2_pos m) + e)%Z by lia
  end.
  rewrite Hcan.
  replace (e - (-52 + e))%Z with 52%Z by lia.
  cbv [shr shr_record_of_loc SpecFloat.iter_pos shr_1 orb shr_m loc_of_shr_record
       round_nearest_even Zdigits2].
  replace (-52 + e + 52)%Z with e by lia.
  rewrite Hcan, Z.sub_diag. cbn [shr shr_record_of_loc shr_m].
  by rewrite Hle.
Qed.

Lemma float_mul_1_l (y : float) : (1 * y)%float = y.
Proof.
  apply Prim2SF_inj. rewrite mul_spec, Prim2SF_one.
  pose proof (Prim2SF_valid y) as Hv.
  destruct (Prim2SF y) as [s | s | | s m e]; try reflexivity.
  by apply SFmul_1_l.
Qed.

(** *** The unit interval of binary64 *)

(** The least exponent of a binary64 number of magnitude [e]. *)
Lemma fexp_eq (e : Z) : fexp prec emax e = Z.max (e - 53) (-1074).
Proof. reflexivity. Qed.

Lemma digits2_size (p : positive) : digits2_pos p = Pos.size p.
Proof. induction p as [p IH | p IH |]; simpl; [by rewrite IH | by rewrite IH | done]. Qed.

Lemma Zdigits2_log2 (p : positive) : Zdigits2 (Z.pos p) = (Z.log2 (Z.pos p) + 1)%Z.
Proof.
  cbn [Zdigits2]. rewrite digits2_size.
  destruct p as [p | p |]; simpl; try rewrite Pos2Z.inj_succ; lia.
Qed.

(** A mantissa has at most [n] digits when it is below [2 ^ n]. *)
Lemma Zdigits2_le (p : positive) (n : Z) :
  (Zdigits2 (Z.pos p) <= n <-> Z.pos p < 2 ^ n)%Z.
Proof.
  rewrite Zdigits2_log2. rewrite Z.log2_lt_pow2 by lia. lia.
Qed.

Lemma Zdigits2_pos (p : positive) : (1 <= Zdigits2 (Z.pos p))%Z.
Proof. rewrite Zdigits2_log2. pose proof (Z.log2_nonneg (Z.pos p)). lia. Qed.

Lemma shr_1_m (mrs : shr_record) :
  (0 <= shr_m mrs)%Z -> shr_m (shr_1 mrs) = (shr_m mrs / 2)%Z.
Proof.
  destruct mrs as [m r s]. cbn [shr_m]. intros Hm.
  destruct m as [| [p | p |] | p]; try lia; cbn [shr_1 shr_m].
  - done.
  - rewrite Pos2Z.inj_xI. apply (Z.div_unique _ _ _ 1); lia.
  - rewrite Pos2Z.inj_xO. apply (Z.div_unique _ _ _ 0); lia.
  - done.
Qed.

Lemma pow2_xO (p : positive) : (2 ^ Z.pos p~0 = 2 ^ Z.pos p * 2 ^ Z.pos p)%Z.
Proof.
  assert (E : Z.pos p~0 = (Z.pos p + Z.pos p)%Z) by lia.
  rewrite E. apply Z.pow_add_r; lia.
Qed.

Lemma pow2_xI (p : positive) : (2 ^ Z.pos p~1 = 2 * (2 ^ Z.pos p * 2 ^ Z.pos p))%Z.
Proof.
  assert (E : Z.pos p~1 = (1 + (Z.pos p + Z.pos p))%Z) by lia.
  rewrite E. rewrite !Z.pow_add_r by lia. done.
Qed.

(** A shift of [p] places to the right divides the mantissa by [2 ^ p]. *)
Lemma iter_shr_1_m (p : positive) (mrs : shr_record) :
  (0 <= shr_m mrs)%Z ->
  shr_m (SpecFloat.iter_pos shr_1 p mrs) = (shr_m mrs / 2 ^ Z.pos p)%Z.
Proof.
  revert mrs. induction p as [p IH | p IH |]; intros mrs Hm; cbn [SpecFloat.iter_pos].
  - pose proof (shr_1_m mrs Hm) as H1.
    assert (H0 : (0 <= shr_m (shr_1 mrs))%Z) by (rewrite H1; apply Z.div_pos; lia).
    rewrite IH; [| rewrite IH by done; apply Z.div_pos; lia].
    rewrite IH by done. rewrite H1.
    rewrite !Z.div_div by lia. by rewrite pow2_xI.
  - rewrite IH; [| rewrite IH by done; apply Z.div_pos; lia].
    rewrite IH by done. rewrite !Z.div_div by lia. by rewrite pow2_xO.
  - rewrite shr_1_m by done. done.
Qed.

Lemma round_nearest_even_range (q : Z) (l : location) :
  round_nearest_even q l = q \/ round_nearest_even q l = (q + 1)%Z.
Proof.
  destruct l as [| []]; cbn [round_nearest_even]; try (by left); try (by right).
  destruct (IntDef.Z.even q); [by left | by right].
Qed.

(** The operations of the specification of binary64, read as those of
    [Z] and [positive]. *)
Ltac std_Z :=
  change IntDef.Z.add with Z.add in *; change IntDef.Z.sub with Z.sub in *;
  change IntDef.Z.leb with Z.leb in *; change IntDef.Z.max with Z.max in *;
  change IntDef.Z.min with Z.min in *; change IntDef.Z.even with Z.even in *;
  change IntDef.Z.opp with Z.opp in *; change IntDef.Z.eqb with Z.eqb in *;
  change IntDef.Z.compare with Z.compare in *;
  change PosDef.Pos.mul with Pos.mul in *;
  change @PosDef.Pos.iter with @Pos.iter in *.

(** The first step of a rounding, on an exact mantissa: nothing when the
    exponent is large enough, a shift to the right otherwise. *)
Lemma shr_fexp_exact (m e : Z) :
  (0 <= m)%Z ->
  let e1 := Z.max (Zdigits2 m + e - 53) (-1074) in
  ((e1 <= e)%Z ->
     shr_fexp prec emax m e loc_Exact
     = ({| shr_m := m; shr_r := false; shr_s := false |}, e)) /\
  ((e < e1)%Z ->
     exists mrs, shr_fexp prec emax m e loc_Exact = (mrs, e1) /\
                 shr_m mrs = (m / 2 ^ (e1 - e))%Z).
Proof.
  intros Hm e1. unfold shr_fexp. rewrite fexp_eq. std_Z. fold e1.
  cbn [shr_record_of_loc]. unfold shr.
  destruct (e1 - e)%Z as [| p | p] eqn:Hk; (split; intros He; try lia); try done.
  eexists. split.
  - f_equal. lia.
  - by rewrite iter_shr_1_m.
Qed.

(** What is rounded is at most 1: so is the result. *)
Lemma binary_round_aux_unit (mx : positive) (ex : Z) :
  (Zdigits2 (Z.pos mx) + ex <= 0)%Z -> (ex <= -53)%Z ->
  unit_sf (binary_round_aux prec emax false (Z.pos mx) ex loc_Exact).
Proof.
  intros Hd Hex. unfold binary_round_aux.
  pose proof (Zdigits2_pos mx) as Hd1.
  destruct (shr_fexp_exact (Z.pos mx) ex) as [Hstay Hshift]; [lia |].
  set (e1 := Z.max (Zdigits2 (Z.pos mx) + ex - 53) (-1074)) in *.
  destruct (Z_le_gt_dec e1 ex) as [Hle | Hgt].
  - (* the mantissa fits *)
    rewrite (Hstay Hle). cbn [shr_m loc_of_shr_record round_nearest_even].
    rewrite (Hstay Hle). cbn [shr_m]. std_Z.
    destruct (Z.leb_spec ex (emax - prec)) as [_ | Hbig];
      [| change (emax - prec)%Z with 971%Z in Hbig; lia].
    by left.
  - destruct Hshift as (mrs & -> & Hq); [lia |].
    set (q := shr_m mrs) in *.
    assert (Hq0 : (0 <= q < 2 ^ 53)%Z).
    { rewrite Hq. split; [apply Z.div_pos; lia |].
      apply Z.div_lt_upper_bound; [lia |].
      rewrite <- Z.pow_add_r by lia.
      apply Zdigits2_le. lia. }
    set (r := round_nearest_even q (loc_of_shr_record mrs)).
    assert (Hr : (0 <= r <= 2 ^ 53)%Z).
    { destruct (round_nearest_even_range q (loc_of_shr_record mrs)) as [E | E];
        fold r in E; lia. }
    destruct (shr_fexp_exact r e1) as [Hstay2 Hshift2]; [lia |].
    destruct r as [| rp | rp] eqn:Er; [| | lia].
    + rewrite Hstay2; [done |]. cbn [Zdigits2]. lia.
    + destruct (Z_lt_le_dec (Z.pos rp) (2 ^ 53)) as [Hlt | Hge].
      * rewrite Hstay2; [| apply Zdigits2_le in Hlt; lia].
        cbn [shr_m]. std_Z.
        destruct (Z.leb_spec e1 (emax - prec)) as [_ | Hbig];
          [| change (emax - prec)%Z with 971%Z in Hbig; lia].
        left. lia.
      * assert (Erp : rp = 9007199254740992%positive) by lia. subst rp.
        destruct Hshift2 as (mrs2 & -> & Hm2); [cbn; lia |].
        change (Zdigits2 9007199254740992) with 54%Z in Hm2 |- *.
        replace (Z.max (54 + e1 - 53) (-1074)) with (e1 + 1)%Z in Hm2 |- * by lia.
        replace (e1 + 1 - e1)%Z with 1%Z in Hm2 by lia.
        change (9007199254740992 / 2 ^ 1)%Z with 4503599627370496%Z in Hm2.
        rewrite Hm2. std_Z.
        destruct (Z.leb_spec (e1 + 1) (emax - prec)) as [_ | Hbig];
          [| change (emax - prec)%Z with 971%Z in Hbig; lia].
        cbn [unit_sf]. lia.
Qed.

(** A valid number of the unit interval is 1, or is below 1 with at most
    53 digits. *)
Lemma unit_valid (m : positive) (e : Z) :
  SpecFloat.bounded prec emax m e = true ->
  unit_sf (S754_finite false m e) ->
  (m = 4503599627370496%positive /\ e = (-52)%Z) \/
  ((Zdigits2 (Z.pos m) + e <= 0)%Z /\ (e <= -53)%Z).
Proof.
  intros Hb Hu. apply andb_prop in Hb as [Hcan _].
  unfold canonical_mantissa in Hcan. apply Z.eqb_eq in Hcan.
  rewrite fexp_eq in Hcan. std_Z. cbn [unit_sf Zdigits2] in *.
  destruct Hu as [He | [-> ->]]; [right | by left]. lia.
Qed.

(** The product of two numbers of the unit interval is in it. *)
Lemma SFmul_unit (x y : spec_float) :
  valid_binary x = true -> valid_binary y = true ->
  unit_sf x -> unit_sf y -> unit_sf (SFmul prec emax x y).
Proof.
  intros Hvx Hvy Hx Hy.
  destruct x as [sx | sx | | [|] mx ex], y as [sy | sy | | [|] my ey]; try done.
  unfold valid_binary in Hvx, Hvy. cbn [SpecFloat.valid_binary] in Hvx, Hvy.
  destruct (unit_valid mx ex Hvx Hx) as [[-> ->] | [Hdx Hex]];
    [by rewrite SFmul_1_l |].
  destruct (unit_valid my ey Hvy Hy) as [[-> ->] | [Hdy Hey]];
    [by rewrite SFmul_comm, SFmul_1_l |].
  cbn [SFmul xorb]. std_Z. apply binary_round_aux_unit; [| lia].
  assert (Hlt : (Z.pos (mx * my) < 2 ^ (Zdigits2 (Z.pos mx) + Zdigits2 (Z.pos my)))%Z).
  { pose proof (Zdigits2_pos mx). pose proof (Zdigits2_pos my).
    rewrite Z.pow_add_r by lia. rewrite Pos2Z.inj_mul.
    apply Z.mul_lt_mono_nonneg; try lia; by apply Zdigits2_le. }
  apply Zdigits2_le in Hlt. lia.
Qed.

(** A shift of [n] places to the left multiplies the mantissa by [2 ^ n]. *)
Lemma iter_xO (p n : positive) : Z.pos (Pos.iter xO p n) = (Z.pos p * 2 ^ Z.pos n)%Z.
Proof.
  induction n as [| n IH] using Pos.peano_ind.
  - simpl. lia.
  - rewrite Pos.iter_succ, Pos2Z.inj_xO, IH, Pos2Z.inj_succ, Z.pow_succ_r by lia. lia.
Qed.

(** So is [1 - x] for [x] in the unit interval. *)
Lemma SFsub_one_unit (x : spec_float) :
  valid_binary x = true -> unit_sf x ->
  unit_sf (SFsub prec emax (S754_finite false 4503599627370496 (-52)) x).
Proof.
  intros Hvx Hx. destruct x as [sx | sx | | [|] mx ex]; try done.
  - cbn. by right.
  - unfold valid_binary in Hvx. cbn [SpecFloat.valid_binary] in Hvx.
    destruct (unit_valid mx ex Hvx Hx) as [[-> ->] | [Hdx Hex]]; [done |].
    cbn [SFsub cond_Zopp]. std_Z. rewrite Z.min_r by lia.
    unfold shl_align at 2. std_Z. rewrite Z.sub_diag. cbn [fst].
    unfold shl_align. std_Z.
    destruct (ex - -52)%Z as [| dd | dd] eqn:Hdd; try lia. cbn [fst].
    pose proof (iter_xO 4503599627370496%positive dd) as HA.
    assert (Hpow : (4503599627370496 * 2 ^ Z.pos dd = 2 ^ (- ex))%Z).
    { change 4503599627370496%Z with (2 ^ 52)%Z. rewrite <- Z.pow_add_r by lia.
      f_equal. lia. }
    rewrite Hpow in HA.
    assert (Hm : (Z.pos mx < 2 ^ (- ex))%Z) by (apply Zdigits2_le; lia).
    destruct (Z.pos (Pos.iter xO 4503599627370496%positive dd) - Z.pos mx)%Z
      as [| D | D] eqn:HD; try lia.
    cbn [binary_normalize]. unfold binary_round.
    destruct (shl_align D ex _) as [mz ez] eqn:Hal.
    unfold shl_align in Hal. rewrite fexp_eq in Hal. std_Z.
    assert (HDlt : (Z.pos D < 2 ^ (- ex))%Z) by lia.
    destruct (Z.max (Z.pos (digits2_pos D) + ex - 53) (-1074) - ex)%Z
      as [| d' | d'] eqn:Hd'; inversion Hal; subst mz ez; clear Hal.
    + apply binary_round_aux_unit; [| lia]. apply Zdigits2_le in HDlt. lia.
    + apply binary_round_aux_unit; [| lia]. apply Zdigits2_le in HDlt. lia.
    + apply binary_round_aux_unit; [| lia].
      assert (Hlt : (Z.pos (Pos.iter xO D d') < 2 ^ (- ex + Z.pos d'))%Z).
      { rewrite iter_xO, Z.pow_add_r by lia. apply Z.mul_lt_mono_pos_r; lia. }
      apply Zdigits2_le in Hlt. lia.
Qed.

Lemma Prim2SF_zero : Prim2SF 0%float = S754_zero false.
Proof. vm_compute. reflexivity. Qed.

(** The floats between 0 and 1. *)
Lemma probability_spec (x : float) : probability x <-> unit_sf (Prim2SF x).
Proof.
  unfold probability. rewrite !leb_spec, Prim2SF_zero, Prim2SF_one.
  pose proof (Prim2SF_valid x) as Hv.
  destruct (Prim2SF x) as [s | [|] | | [|] m e]; cbn [unit_sf];
    try (by split; [intros [? ?] |]).
  assert (Hd : (e = -52 -> 2 ^ 52 <= Z.pos m)%Z).
  { intros ->. unfold valid_binary in Hv. cbn [SpecFloat.valid_binary] in Hv.
    apply andb_prop in Hv as [Hcan _].
    unfold canonical_mantissa in Hcan. apply Z.eqb_eq in Hcan.
    rewrite fexp_eq in Hcan. std_Z.
    destruct (Z_lt_le_dec (Z.pos m) (2 ^ 52)) as [Hlt | Hge]; [| done].
    apply Zdigits2_le in Hlt. cbn [Zdigits2] in Hlt. lia. }
  clear Hv. change (2 ^ 52)%Z with 4503599627370496%Z in Hd.
  unfold SFleb, SFcompare. std_Z.
  change PosDef.Pos.compare_cont with Pos.compare_cont.
  rewrite Pos.compare_cont_spec. unfold Pos.switch_Eq.
  destruct (Z.compare_spec e (-52)) as [He | He | He].
  - specialize (Hd He).
    destruct (Pos.compare_spec m 4503599627370496%positive) as [Hm | Hm | Hm].
    + split; [intros _; by right | done].
    + apply Pos2Z.pos_lt_pos in Hm. lia.
    + split; [by intros [_ ?] |]. apply Pos2Z.pos_lt_pos in Hm.
      intros [? | [-> ?]]; lia.
  - split; [intros _; left; lia | done].
  - split; [by intros [_ ?] | intros [? | [? ?]]; lia].
Qed.

Lemma float_mul_unit (x y : float) :
  probability x -> probability y -> probability (x * y)%float.
Proof.
  rewrite !probability_spec, mul_spec. apply SFmul_unit; apply Prim2SF_valid.
Qed.

Lemma float_rsub_unit (x : float) : probability x -> probability (1 - x)%float.
Proof.
  rewrite !probability_spec, sub_spec, Prim2SF_one. apply SFsub_one_unit.
  apply Prim2SF_valid.
Qed.

Lemma fold_left_unit (ps : list float) (a : float) :
  probability a -> Forall probability ps ->
  probability (fold_left (fun acc p => acc * (1 - p))%float ps a).
Proof.
  revert a. induction ps as [| p ps IH]; intros a Ha Hps; [done |].
  apply Forall_cons in Hps as [Hp Hps]. cbn [fold_left].
  apply IH; [| done]. apply float_mul_unit; [done | by apply float_rsub_unit].
Qed.

Lemma agg_probs_float_comm (a b : float) :
  agg_probs [Sc a; Sc b] = agg_probs [Sc b; Sc a].
Proof.
  rewrite !agg_probs_scalars. unfold combine. simpl.
  by rewrite float_mul_comm.
Qed.

(** ** [agg_probs] over the reals *)

Lemma agg_probs_R_zero_l (p : ndarray R) : agg_probs [Sc 0%R; p] = Ok p.
Proof.
  rewrite agg_probs_scalar_l. f_equal. apply nd_map_id. intros x. simpl. lra.
Qed.

Lemma agg_probs_R_single (p : ndarray R) : agg_probs [p] = Ok p.
Proof.
  rewrite agg_probs_single. unfold rsub. rewrite nd_map_map. f_equal.
  apply nd_map_id. intros x. simpl. lra.
Qed.

Lemma survival_bounds (ps : list R) (a : R) :
  (0 <= a <= 1)%R ->
  Forall (fun p => 0 <= p <= 1)%R ps ->
  let s := fold_left (fun acc p => acc * (1 - p))%R ps a in
  (0 <= s <= a)%R /\ Forall (fun p => s <= 1 - p)%R ps.
Proof.
  revert a. induction ps as [| p ps IH]; intros a Ha Hps; simpl.
  - split; [lra | constructor].
  - inversion Hps as [| ? ? Hp Hps']; subst.
    assert (Ha' : (0 <= a * (1 - p) <= 1)%R) by nra.
    destruct (IH _ Ha' Hps') as [Hs Hall]. simpl in Hs, Hall.
    split; [nra |]. constructor; [nra | exact Hall].
Qed.

(** C2, as the code has it.  Read over the reals, the rule
    [1 - (1 - a) * (1 - b)] that [agg_probs] implements is commutative and
    associative and has 0 as its identity, for all numbers and so for the
    probabilities in [0, 1].  In binary64, where the program runs,
    commutativity is exact for all floats; associativity and the identity
    hold up to rounding only. *)
Theorem combine_laws :
  (forall a b : float, agg_probs [Sc a; Sc b] = agg_probs [Sc b; Sc a]) /\
  (forall a b : R, agg_probs [Sc a; Sc b] = Ok (Sc (1 - (1 - a) * (1 - b))%R)) /\
  (forall a b : R, agg_probs [Sc a; Sc b] = agg_probs [Sc b; Sc a]) /\
  (forall a b c : R,
      agg_probs [Sc (combine a b); Sc c] = agg_probs [Sc a; Sc (combine b c)]) /\
  (forall p : R, agg_probs [Sc 0%R; Sc p] = Ok (Sc p)).
Proof.
  split; [exact agg_probs_float_comm |].
  split; [intros a b; exact (agg_probs_scalars a b) |].
  split; [| split].
  - intros a b. rewrite !agg_probs_scalars. unfold combine. simpl.
    do 2 f_equal. lra.
  - intros a b c. rewrite !agg_probs_scalars. unfold combine. simpl.
    do 2 f_equal. lra.
  - intros p. apply agg_probs_R_zero_l.
Qed.

(** C2 fails as stated, on the floats of the program: [agg_probs(0, 0.1)]
    is [0.09999999999999998], not [0.1], and combining 0.1, 0.1 and 0.3
    gives [0.43300000000000005] one way and [0.43299999999999994] the
    other. *)
Lemma combine_identity_rounds :
  agg_probs [Sc 0%float; Sc 0x1.999999999999ap-4%float]
    = Ok (Sc 0x1.9999999999998p-4%float) /\
  (0x1.9999999999998p-4 =? 0x1.999999999999ap-4)%float = false /\
  agg_probs [Sc (combine 0x1.999999999999ap-4 0x1.999999999999ap-4);
             Sc 0x1.3333333333333p-2]%float
    = Ok (Sc 0x1.bb645a1cac084p-2%float) /\
  agg_probs [Sc 0x1.999999999999ap-4;
             Sc (combine 0x1.999999999999ap-4 0x1.3333333333333p-2)]%float
    = Ok (Sc 0x1.bb645a1cac082p-2%float).
Proof. repeat split; vm_compute; reflexivity. Qed.

(** C10, as the code has it.  In binary64, where the program runs,
    [agg_probs] of probabilities is a probability: it lies in [0, 1].  Over
    the reals it is moreover at least each of them, and on a single
    argument, scalar or matrix, it returns the argument, so that a TRT axis
    of length one collapses to its only slice.  In binary64 a single
    argument [p] comes back as [1 - (1 - p)], cell by cell. *)
Theorem agg_probs_in_unit_interval :
  (forall (p0 : float) (ps : list float),
     Forall probability (p0 :: ps) ->
     exists v : float, agg_probs (Sc <$> p0 :: ps) = Ok (Sc v) /\ probability v) /\
  (forall (p0 : R) (ps : list R),
     Forall (fun p => 0 <= p <= 1)%R (p0 :: ps) ->
     exists v : R,
       agg_probs (Sc <$> p0 :: ps) = Ok (Sc v) /\
       (0 <= v <= 1)%R /\
       Forall (fun p => p <= v)%R (p0 :: ps)) /\
  (forall p : ndarray float,
     agg_probs [p] = Ok (nd_map (fun x => 1 - (1 - x))%float p)) /\
  (forall m : ndarray float,
     (slices ← unpack (Arr [m]); agg_probs slices)
     = Ok (nd_map (fun x => 1 - (1 - x))%float m)) /\
  (forall p : ndarray R, agg_probs [p] = Ok p) /\
  (forall m : ndarray R, (slices ← unpack (Arr [m]); agg_probs slices) = Ok m).
Proof.
  assert (Hsingle : forall p : ndarray float,
            agg_probs [p] = Ok (nd_map (fun x => 1 - (1 - x))%float p)).
  { intros p. rewrite agg_probs_single. unfold rsub. by rewrite nd_map_map. }
  split; [| split; [| split; [exact Hsingle | split; [exact Hsingle |]]]].
  - intros p0 ps Hall. apply Forall_cons in Hall as [Hp0 Hps].
    rewrite agg_probs_scalar_list. eexists. split; [reflexivity |].
    cbn [sub mul one float_Number].
    apply float_rsub_unit, fold_left_unit; [by apply float_rsub_unit | done].
  - intros p0 ps Hall. inversion Hall as [| ? ? Hp0 Hps]; subst.
    rewrite agg_probs_scalar_list. eexists; split; [reflexivity |].
    assert (Ha : (0 <= 1 - p0 <= 1)%R) by lra.
    destruct (survival_bounds ps (1 - p0)%R Ha Hps) as [Hs Hle].
    simpl in *. split; [lra |].
    constructor; [lra |].
    eapply Forall_impl; [exact Hle |]. simpl. intros p Hp. lra.
  - split; apply agg_probs_R_single.
Qed.

Lemma agg_probs_in_unit_interval_witness :
  exists v : float,
    agg_probs (Sc <$> [0.5; 0.25; 0]%float) = Ok (Sc v) /\ probability v.
Proof.
  apply (proj1 agg_probs_in_unit_interval 0.5%float [0.25; 0]%float).
  repeat (apply Forall_cons; split; [split; reflexivity |]). constructor.
Defined.

(** C10 fails as stated, on the floats of the program: [agg_probs(0.1)] is
    [0.09999999999999998], which is neither [0.1] nor at least [0.1]. *)
Lemma agg_probs_single_rounds :
  agg_probs [Sc 0x1.999999999999ap-4%float] = Ok (Sc 0x1.9999999999998p-4%float) /\
  (0x1.9999999999998p-4 <? 0x1.999999999999ap-4)%float = true /\
  (slices ← unpack (Arr [Arr [Sc 0x1.999999999999ap-4%float]]); agg_probs slices)
    = Ok (Arr [Sc 0x1.9999999999998p-4%float]).
Proof. repeat split; vm_compute; reflexivity. Qed.

(** ** The reducer *)

Section agg_result_facts.
Context {A : Type} `{Number A}.

Lemma agg_result_step_Ok (t : nat) (g : Z) (i : nat) (acc : accum A)
    (sid : nat) (probs v : ndarray A) :
  agg_probs [default (Sc zero) (slot acc i sid t g); probs] = Ok v ->
  agg_result_step t g i acc sid probs
  = Ok (<[(i, sid) := <[(t, g) := v]> (default ∅ (acc !! (i, sid)))]> acc).
Proof.
  unfold agg_result_step, accum_getitem, get_before, slot. intros Hv.
  destruct (acc !! (i, sid)) as [inner |] eqn:Hacc;
    cbn [mbind option_bind default] in Hv |- *.
  - rewrite Hv. reflexivity.
  - rewrite lookup_empty. cbn [default]. rewrite Hv. simpl.
    by rewrite insert_insert_eq.
Qed.

Lemma slot_update_eq (acc : accum A) inner (i s t : nat) (g : Z) v :
  slot (<[(i, s) := <[(t, g) := v]> inner]> acc) i s t g = Some v.
Proof. unfold slot. rewrite lookup_insert_eq. simpl. apply lookup_insert_eq. Qed.

Lemma slot_update_ne (acc : accum A) (i s t : nat) (g : Z) v (i' s' t' : nat) (g' : Z) :
  (i, s, t, g) ≠ (i', s', t', g') ->
  slot (<[(i, s) := <[(t, g) := v]> (default ∅ (acc !! (i, s)))]> acc) i' s' t' g'
  = slot acc i' s' t' g'.
Proof.
  intros Hne. unfold slot.
  destruct (decide ((i, s) = (i', s'))) as [Heq | Hk].
  - inversion Heq; subst. rewrite lookup_insert_eq. simpl.
    rewrite lookup_insert_ne by congruence.
    destruct (acc !! (i', s')); simpl; [done | apply lookup_empty].
  - by rewrite lookup_insert_ne.
Qed.

(** One call of [agg_result]: it returns as soon as every pairwise
    combination is defined, the slot of each site of the result then holds
    [agg_probs(before, probs)], and no other slot changes. *)
Lemma agg_result_slots (acc : accum A) (res : task_result A) :
  (forall sid probs, by_sid res !! sid = Some probs ->
     is_Ok (agg_probs [before acc res sid; probs])) ->
  exists acc',
    agg_result acc res = Ok acc' /\
    (forall sid probs, by_sid res !! sid = Some probs ->
       exists v, agg_probs [before acc res sid; probs] = Ok v /\
                 slot acc' (imti res) sid (trti res) (magi res) = Some v) /\
    (forall i s t g,
       ~ (i = imti res /\ t = trti res /\ g = magi res /\ is_Some (by_sid res !! s)) ->
       slot acc' i s t g = slot acc i s t g).
Proof.
  unfold agg_result, before.
  generalize (trti res) (magi res) (imti res). intros t g i.
  apply (map_fold_weak_ind
    (fun r m =>
       (forall sid probs, m !! sid = Some probs ->
          is_Ok (agg_probs [default (Sc zero) (slot acc i sid t g); probs])) ->
       exists acc',
         r = Ok acc' /\
         (forall sid probs, m !! sid = Some probs ->
            exists v, agg_probs [default (Sc zero) (slot acc i sid t g); probs] = Ok v /\
                      slot acc' i sid t g = Some v) /\
         (forall i' s' t' g',
            ~ (i' = i /\ t' = t /\ g' = g /\ is_Some (m !! s')) ->
            slot acc' i' s' t' g' = slot acc i' s' t' g'))).
  - intros _. exists acc. split; [done |]. split.
    + intros sid probs Hl. by rewrite lookup_empty in Hl.
    + done.
  - intros sid probs m r Hfresh IH Hok.
    destruct IH as (acc1 & -> & Hslots & Hframe).
    { intros sid' probs' Hl. apply Hok. rewrite lookup_insert_ne; [done |].
      intros ->. congruence. }
    destruct (Hok sid probs) as [v Hv]; [apply lookup_insert_eq |].
    assert (Hsame : slot acc1 i sid t g = slot acc i sid t g).
    { apply Hframe. intros (_ & _ & _ & Hs). rewrite Hfresh in Hs.
      by destruct Hs. }
    simpl. rewrite (agg_result_step_Ok t g i acc1 sid probs v)
      by (by rewrite Hsame).
    eexists; split; [reflexivity |]. split.
    + intros sid' probs' Hl. destruct (decide (sid = sid')) as [<- | Hne].
      * rewrite lookup_insert_eq in Hl. inversion Hl; subst.
        exists v. split; [done | apply slot_update_eq].
      * rewrite lookup_insert_ne in Hl by done.
        destruct (Hslots sid' probs' Hl) as (v' & Hv' & Hs').
        exists v'. split; [done |].
        rewrite slot_update_ne by congruence. done.
    + intros i' s' t' g' Hout.
      rewrite slot_update_ne.
      * apply Hframe. intros (-> & -> & -> & Hs). apply Hout.
        repeat split; try done.
        destruct (decide (sid = s')) as [-> | Hne].
        -- rewrite lookup_insert_eq. by eexists.
        -- by rewrite lookup_insert_ne.
      * intros Heq. inversion Heq; subst. apply Hout.
        repeat split; try done. rewrite lookup_insert_eq. by eexists.
Qed.

End agg_result_facts.

(** What [agg_result] stores when the matrices fit: in the slot of each
    site, a matrix of the same shape whose cells follow the rule, with 0 for
    the cells of an empty slot. *)
Lemma agg_result_cells {A : Type} `{Number A} (sh : nat -> list nat)
    (acc : accum A) (res : task_result A) :
  fits sh acc res ->
  exists acc',
    agg_result acc res = Ok acc' /\
    (forall sid probs, by_sid res !! sid = Some probs ->
       exists v, slot acc' (imti res) sid (trti res) (magi res) = Some v /\
                 of_shape (sh sid) v /\
                 forall idx,
                   nd_get idx v
                   = (x ← before_cell acc res sid idx; y ← nd_get idx probs;
                      Some (sub one (mul (sub one x) (sub one y))))) /\
    (forall i s t g,
       ~ (i = imti res /\ t = trti res /\ g = magi res /\ is_Some (by_sid res !! s)) ->
       slot acc' i s t g = slot acc i s t g).
Proof.
  intros Hfit.
  assert (Hv : forall sid probs, by_sid res !! sid = Some probs ->
            exists v, agg_probs [before acc res sid; probs] = Ok v /\
              of_shape (sh sid) v /\
              forall idx,
                nd_get idx v
                = (x ← before_cell acc res sid idx; y ← nd_get idx probs;
                   Some (sub one (mul (sub one x) (sub one y))))).
  { intros sid probs Hl. destruct (Hfit sid probs Hl) as [Hp Hold].
    unfold before, before_cell.
    destruct (slot acc (imti res) sid (trti res) (magi res)) as [old |]; cbn [default].
    - apply agg_probs_same_shape; [by apply Hold | done].
    - rewrite agg_probs_scalar_l. eexists. split; [reflexivity |].
      split; [by apply of_shape_map |].
      intros idx. rewrite nd_get_map. by destruct (nd_get idx probs). }
  destruct (agg_result_slots acc res) as (acc' & Hacc' & Hslots & Hframe).
  { intros sid probs Hl. destruct (Hv sid probs Hl) as (v & Hv' & _). by exists v. }
  exists acc'. split; [done |]. split; [| done].
  intros sid probs Hl.
  destruct (Hv sid probs Hl) as (v & Hv' & Hsh & Hcells).
  destruct (Hslots sid probs Hl) as (v' & Hv'' & Hs).
  rewrite Hv' in Hv''. inversion Hv''; subst v'. by exists v.
Qed.

(** What [agg_result] stores in empty slots: [agg_probs(0, probs)]. *)
Lemma agg_result_empty_slots {A : Type} `{Number A} (acc : accum A) (res : task_result A) :
  (forall sid, is_Some (by_sid res !! sid) ->
     slot acc (imti res) sid (trti res) (magi res) = None) ->
  exists acc',
    agg_result acc res = Ok acc' /\
    forall sid probs, by_sid res !! sid = Some probs ->
      slot acc' (imti res) sid (trti res) (magi res)
      = Some (nd_map (fun p => sub one (mul (sub one zero) (sub one p))) probs).
Proof.
  intros Hempty.
  assert (Hbefore : forall sid probs, by_sid res !! sid = Some probs ->
            agg_probs [before acc res sid; probs]
            = Ok (nd_map (fun p => sub one (mul (sub one zero) (sub one p))) probs)).
  { intros sid probs Hl. unfold before. rewrite Hempty by (by eexists).
    apply agg_probs_scalar_l. }
  destruct (agg_result_slots acc res) as (acc' & Hacc' & Hslots & _).
  { intros sid probs Hl. eexists. by apply Hbefore. }
  exists acc'. split; [done |].
  intros sid probs Hl. destruct (Hslots sid probs Hl) as (v & Hv & Hs).
  rewrite (Hbefore sid probs Hl) in Hv. by inversion Hv; subst.
Qed.

(** C1, as the code has it.  Whatever the accumulator and the incoming
    result, [agg_result] returns as soon as [agg_probs(before, probs)] does
    for each site of the result; the slot [(imti, sid)], [(trti, magi)] of
    the site then holds that value, with 0 for an absent [before], and every
    other slot is unchanged.  When the matrices fit, that is when the matrix
    of each site has the shape of what its slot holds, whatever the shape
    and so for the 6-D matrices of the tasks, [agg_result] returns and each
    cell of each of these slots is [1 - (1 - before) * (1 - new)], where
    [before] is 0 for an empty slot.  Two results holding 0.5 in one cell
    of a 6-D matrix merge to exactly 0.75 in binary64.  Merging into an
    empty slot stores [1 - (1 - p)] for each cell [p], in binary64: over the
    reals this is the partial matrix unchanged. *)
Theorem agg_result_merges :
  (forall (A : Type) (N : Number A) (acc : accum A) (res : task_result A),
     (forall sid probs, by_sid res !! sid = Some probs ->
        is_Ok (agg_probs [before acc res sid; probs])) ->
     exists acc',
       agg_result acc res = Ok acc' /\
       (forall sid probs, by_sid res !! sid = Some probs ->
          exists v, agg_probs [before acc res sid; probs] = Ok v /\
                    slot acc' (imti res) sid (trti res) (magi res) = Some v) /\
       (forall i s t g,
          ~ (i = imti res /\ t = trti res /\ g = magi res /\
             is_Some (by_sid res !! s)) ->
          slot acc' i s t g = slot acc i s t g)) /\
  (forall (A : Type) (N : Number A) (sh : nat -> list nat)
          (acc : accum A) (res : task_result A),
     fits sh acc res ->
     exists acc',
       agg_result acc res = Ok acc' /\
       (forall sid probs, by_sid res !! sid = Some probs ->
          exists v, slot acc' (imti res) sid (trti res) (magi res) = Some v /\
                    of_shape (sh sid) v /\
                    forall idx,
                      nd_get idx v
                      = (x ← before_cell acc res sid idx; y ← nd_get idx probs;
                         Some (sub one (mul (sub one x) (sub one y))))) /\
       (forall i s t g,
          ~ (i = imti res /\ t = trti res /\ g = magi res /\
             is_Some (by_sid res !! s)) ->
          slot acc' i s t g = slot acc i s t g)) /\
  (acc1 ← agg_result ∅ half_result;
   acc2 ← agg_result acc1 half_result;
   Ok (slot acc1 0 0 0 0, slot acc2 0 0 0 0))
  = Ok (Some (matrix6_of 0.5 0), Some (matrix6_of 0.75 0)) /\
  (forall (acc : accum float) (res : task_result float),
     (forall sid, is_Some (by_sid res !! sid) ->
        slot acc (imti res) sid (trti res) (magi res) = None) ->
     exists acc',
       agg_result acc res = Ok acc' /\
       forall sid probs, by_sid res !! sid = Some probs ->
         slot acc' (imti res) sid (trti res) (magi res)
         = Some (nd_map (fun p => 1 - (1 - p))%float probs)) /\
  (forall (acc : accum R) (res : task_result R),
     (forall sid, is_Some (by_sid res !! sid) ->
        slot acc (imti res) sid (trti res) (magi res) = None) ->
     exists acc',
       agg_result acc res = Ok acc' /\
       forall sid probs, by_sid res !! sid = Some probs ->
         slot acc' (imti res) sid (trti res) (magi res) = Some probs).
Proof.
  split; [intros A N acc res; apply agg_result_slots |].
  split; [intros A N sh acc res; apply agg_result_cells |].
  split; [vm_compute; reflexivity |].
  split.
  - intros acc res Hempty.
    destruct (agg_result_empty_slots acc res Hempty) as (acc' & Hacc' & Hslots).
    exists acc'. split; [done |]. intros sid probs Hl.
    rewrite (Hslots sid probs Hl). f_equal. apply nd_map_ext. intros p.
    cbn [sub mul one zero float_Number].
    replace (1 - 0)%float with 1%float by (vm_compute; reflexivity).
    by rewrite float_mul_1_l.
  - intros acc res Hempty.
    destruct (agg_result_empty_slots acc res Hempty) as (acc' & Hacc' & Hslots).
    exists acc'. split; [done |]. intros sid probs Hl.
    rewrite (Hslots sid probs Hl). f_equal. apply nd_map_id. intros p.
    simpl. lra.
Qed.

Lemma agg_result_merges_witness :
  exists acc',
    agg_result ∅ half_result = Ok acc' /\
    (forall sid probs, by_sid half_result !! sid = Some probs ->
       exists v, slot acc' (imti half_result) sid (trti half_result) (magi half_result)
                 = Some v /\
                 of_shape [2; 1; 1; 1; 1; 1]%nat v /\
                 forall idx,
                   nd_get idx v
                   = (x ← before_cell ∅ half_result sid idx; y ← nd_get idx probs;
                      Some (sub one (mul (sub one x) (sub one y))))) /\
    (forall i s t g,
       ~ (i = imti half_result /\ t = trti half_result /\ g = magi half_result /\
          is_Some (by_sid half_result !! s)) ->
       slot acc' i s t g = slot ∅ i s t g).
Proof.
  apply (proj1 (proj2 agg_result_merges) float float_Number
           (fun _ => [2; 1; 1; 1; 1; 1]%nat) ∅ half_result).
  intros sid probs Hl. cbn [half_result by_sid] in Hl.
  apply lookup_singleton_Some in Hl as [<- <-].
  split; [| intros old Hold; by vm_compute in Hold].
  unfold matrix6_of, cell5.
  repeat (eexists; split; [reflexivity |]; split; [reflexivity |];
          repeat (constructor; try by eexists)).
Defined.

(** C1 fails as stated, on the floats of the program: merging a 6-D matrix
    that holds 0.1 into an empty slot stores 0.09999999999999998 in that
    cell. *)
Lemma agg_result_empty_slot_rounds :
  (acc1 ← agg_result ∅
            {| trti := 0; magi := 0; imti := 0;
               by_sid := {[ 0%nat := matrix6_of 0x1.999999999999ap-4 0 ]} |};
   Ok (slot acc1 0 0 0 0))
  = Ok (Some (matrix6_of 0x1.9999999999998p-4 0)) /\
  (0x1.9999999999998p-4 =? 0x1.999999999999ap-4)%float = false.
Proof. split; vm_compute; reflexivity. Qed.

(** ** Magnitude bins *)

Section mag_bin_facts.
Context {A : Type} `{Number A}.

Lemma searchsorted_range (a : list A) (v : A) :
  (0 <= searchsorted a v <= len a)%Z.
Proof.
  unfold len. induction a as [| x a IH]; simpl length; simpl searchsorted; [lia |].
  destruct (ltb x v); lia.
Qed.

(** The scan stops at the last edge at the latest when the value is not
    above it. *)
Lemma searchsorted_below_last (a : list A) (l v : A) :
  ltb l v = false -> (searchsorted (a ++ [l]) v <= len a)%Z.
Proof.
  intros Hl. unfold len. induction a as [| x a IH]; simpl.
  - by rewrite Hl.
  - destruct (ltb x v); lia.
Qed.

(** What holds of [magi]: a magnitude above the first edge and not above
    the last one gets a bin index between 0 and [n_bins - 1]. *)
Lemma mag_bin_in_range (e0 : A) (mid : list A) (l mag : A) :
  ltb e0 mag = true -> ltb l mag = false ->
  let edges := e0 :: mid ++ [l] in
  (0 <= mag_bin edges mag <= (len edges - 1) - 1)%Z.
Proof.
  intros H0 Hl edges. unfold mag_bin, edges.
  pose proof (searchsorted_below_last (e0 :: mid) l mag Hl) as Hup.
  pose proof (searchsorted_range (mid ++ [l]) mag) as Hlo.
  change ((e0 :: mid) ++ [l]) with (e0 :: mid ++ [l]) in Hup.
  revert Hup. simpl searchsorted. rewrite H0.
  unfold len. simpl length. rewrite length_app. simpl length. lia.
Qed.

(** A magnitude on the last edge, above all the others, is in the last
    bin. *)
Lemma mag_bin_last_edge (init : list A) (l : A) :
  Forall (fun e => ltb e l = true) init -> ltb l l = false ->
  mag_bin (init ++ [l]) l = (len (init ++ [l]) - 1 - 1)%Z.
Proof.
  intros Hinit Hl. unfold mag_bin, len. rewrite length_app. simpl length.
  induction Hinit as [| e init He _ IH]; simpl.
  - rewrite Hl. lia.
  - rewrite He. lia.
Qed.

(** A magnitude on the first edge gets the index -1. *)
Lemma mag_bin_first_edge (e0 : A) (rest : list A) :
  ltb e0 e0 = false -> mag_bin (e0 :: rest) e0 = (-1)%Z.
Proof. intros H0. unfold mag_bin. simpl. by rewrite H0. Qed.

End mag_bin_facts.

(** C3, on the code.  With the edges 5, 6, 7 (two bins), a rupture of
    magnitude 7 is in the last bin, one of magnitude 5.5 in the first, and a
    rupture of magnitude 5, the first edge, gets [magi = -1], outside
    [0, n_bins - 1]; [get_indices_by_gidx_mag] files it under (gidx, -1). *)
Theorem mag_bin_at_first_edge :
  mag_bin [5; 6; 7]%float 7%float = 1%Z /\
  mag_bin [5; 6; 7]%float 5.5%float = 0%Z /\
  mag_bin [5; 6; 7]%float 5%float = (-1)%Z /\
  get_indices_by_gidx_mag [0%Z; 0%Z] [5%float; 7%float] [5; 6; 7]%float
  = {[ (0, -1)%Z := [0%Z] ; (0, 1)%Z := [1%Z] ]}.
Proof. repeat split; vm_compute; reflexivity. Qed.

(** ** Initialization *)

(** C6.  With 32768 sites or more, or with more sites than
    [max_sites_disagg], [init] raises a [ValueError] and the initialization
    of the base class is not reached; otherwise [init] is the initialization
    of the base class. *)
Theorem init_checks {T : Type} (super_init : result T) (N few : Z) :
  ((32768 <= N)%Z -> init super_init N few = Raise ValueError_max_sites) /\
  ((N < 32768)%Z -> (few < N)%Z ->
     init super_init N few = Raise (ValueError_few N few)) /\
  ((N < 32768)%Z -> (N <= few)%Z -> init super_init N few = super_init).
Proof.
  unfold init. repeat split; intros.
  - destruct (Z.leb_spec 32768 N); [done | lia].
  - destruct (Z.leb_spec 32768 N); [lia |].
    destruct (Z.ltb_spec few N); [done | lia].
  - destruct (Z.leb_spec 32768 N); [lia |].
    destruct (Z.ltb_spec few N); [lia | done].
Qed.

Lemma init_checks_witness :
  init (Ok tt) 32768 100000 = Raise ValueError_max_sites /\
  init (Ok tt) 11 10 = Raise (ValueError_few 11 10) /\
  init (Ok tt) 10 10 = Ok tt.
Proof.
  split; [| split].
  - apply (init_checks (Ok tt) 32768 100000). lia.
  - apply (init_checks (Ok tt) 11 10); lia.
  - apply (init_checks (Ok tt) 10 10); lia.
Defined.

(** ** The size of the matrix *)

Lemma wrap64_mod (x : Z) : (wrap64 x mod 2 ^ 64 = x mod 2 ^ 64)%Z.
Proof.
  unfold wrap64.
  rewrite <- (Zminus_mod_idemp_l ((x + 2 ^ 63) mod 2 ^ 64)).
  rewrite Z.mod_mod by lia.
  rewrite Zminus_mod_idemp_l. f_equal. lia.
Qed.

Lemma wrap64_congr (x y : Z) :
  (x mod 2 ^ 64 = y mod 2 ^ 64)%Z -> wrap64 x = wrap64 y.
Proof.
  intros Hxy. unfold wrap64. f_equal.
  rewrite <- (Zplus_mod_idemp_l x), <- (Zplus_mod_idemp_l y). by rewrite Hxy.
Qed.

Lemma wrap64_small (x : Z) : (- 2 ^ 63 <= x < 2 ^ 63)%Z -> wrap64 x = x.
Proof. intros Hx. unfold wrap64. rewrite Z.mod_small; lia. Qed.

Lemma wrap64_mul_l (a n : Z) : wrap64 (wrap64 a * n) = wrap64 (a * n).
Proof.
  apply wrap64_congr.
  rewrite <- (Zmult_mod_idemp_l (wrap64 a)), wrap64_mod.
  apply Zmult_mod_idemp_l.
Qed.

(** [numpy.prod] is the product of the integers, wrapped once. *)
Lemma numpy_prod_wrap (shape : list Z) :
  numpy_prod shape = wrap64 (fold_left Z.mul shape 1%Z).
Proof.
  unfold numpy_prod.
  rewrite <- (wrap64_small 1) at 1 by lia.
  generalize 1%Z. induction shape as [| n shape IH]; intros a; simpl.
  - reflexivity.
  - rewrite wrap64_mul_l. apply IH.
Qed.

Section save_bin_edges_facts.
Context {A : Type}.

(** What holds of the guard: as long as the number of cells fits in 64
    bits, a matrix of more than 1,000,000 cells is refused with that number
    in the error, before anything is written and before the tasks are
    submitted; otherwise the edges are written. *)
Lemma save_bin_edges_guard {Res} (submit : result Res) (b : bin_edges A)
    (trts : list string) (sids : list nat) (lons0 lats0 : list A)
    (datastore : list (bins_key * list A)) :
  lon_edges b !! 0%nat = Some lons0 ->
  lat_edges b !! 0%nat = Some lats0 ->
  let size := element_count b lons0 lats0 trts in
  (- 2 ^ 63 <= size < 2 ^ 63)%Z ->
  ((1000000 < size)%Z ->
     save_bin_edges b trts sids datastore = Raise (ValueError_too_large size) /\
     save_then_submit submit b trts sids datastore = Raise (ValueError_too_large size)) /\
  ((size <= 1000000)%Z ->
     save_bin_edges b trts sids datastore
     = (ds ← foldlM (fun ds sid =>
                       lo ← dict_getitem (lon_edges b) sid;
                       la ← dict_getitem (lat_edges b) sid;
                       Ok (ds ++ [(disagg_bins_lons sid, lo); (disagg_bins_lats sid, la)]))
                    (datastore ++ [(disagg_bins_mags, mag_edges b);
                                   (disagg_bins_dists, dist_edges b)]) sids;
        Ok (ds ++ [(disagg_bins_eps, eps_edges b)]))).
Proof.
  intros Hlon Hlat size Hfits.
  unfold save_then_submit, save_bin_edges, dict_getitem. rewrite Hlon, Hlat.
  cbn [mbind result_bind]. rewrite numpy_prod_wrap.
  replace (fold_left Z.mul _ 1%Z) with size
    by (unfold size, element_count; simpl; lia).
  rewrite (wrap64_small size Hfits).
  split; intros Hsize.
  - destruct (Z.ltb_spec 1000000 size); [done | lia].
  - destruct (Z.ltb_spec 1000000 size); [lia | done].
Qed.

End save_bin_edges_facts.

(** C5, on the code.  The binning [fine_bins] has 65536^4 = 2^64 cells, far
    more than 1,000,000; numpy computes their number in 64 bits as 0, the
    guard does not fire, the five datasets of the edges are written and the
    tasks are submitted. *)
Theorem save_bin_edges_overflow :
  element_count fine_bins fine_edges fine_edges ["Active Shallow Crust"] = (2 ^ 64)%Z /\
  numpy_prod [65536; 65536; 65536; 65536; 1; 1]%Z = 0%Z /\
  fmap (M := result) keys_written
       (save_bin_edges fine_bins ["Active Shallow Crust"] [0%nat] [])
  = Ok [disagg_bins_mags; disagg_bins_dists; disagg_bins_lons 0;
        disagg_bins_lats 0; disagg_bins_eps] /\
  fmap (M := result) (fun dr : list (bins_key * list float) * unit => keys_written (fst dr))
       (save_then_submit (Ok tt) fine_bins ["Active Shallow Crust"] [0%nat] [])
  = Ok [disagg_bins_mags; disagg_bins_dists; disagg_bins_lons 0;
        disagg_bins_lats 0; disagg_bins_eps].
Proof. split; [| split; [| split]]; vm_compute; reflexivity. Qed.

(** ** Loops that may raise *)

Lemma foldlM_app {S T} (body : S -> T -> result S) (s : S) (l1 l2 : list T) :
  foldlM body s (l1 ++ l2) = (s' ← foldlM body s l1; foldlM body s' l2).
Proof.
  revert s. induction l1 as [| x l1 IH]; intros s; simpl; [done |].
  destruct (body s x); simpl; [apply IH | done].
Qed.

(** An invariant of the loop holds of what it returns. *)
Lemma foldlM_invariant {S T} (P : S -> Prop) (body : S -> T -> result S)
    (l : list T) (s s' : S) :
  (forall s x s', x ∈ l -> P s -> body s x = Ok s' -> P s') ->
  P s -> foldlM body s l = Ok s' -> P s'.
Proof.
  revert s. induction l as [| x l IH]; intros s Hbody Hs; simpl.
  - intros [= <-]. exact Hs.
  - destruct (body s x) as [s1 |] eqn:Hx; simpl; [| done].
    apply IH.
    + intros s2 y s3 Hy. apply Hbody. by right.
    + eapply Hbody; [left | exact Hs | exact Hx].
Qed.

(** A loop whose body returns under the invariant returns. *)
Lemma foldlM_returns {S T} (P : S -> Prop) (body : S -> T -> result S)
    (l : list T) (s : S) :
  (forall s x, x ∈ l -> P s -> exists s', body s x = Ok s' /\ P s') ->
  P s -> exists s', foldlM body s l = Ok s' /\ P s'.
Proof.
  revert s. induction l as [| x l IH]; intros s Hbody Hs; simpl.
  - by exists s.
  - destruct (Hbody s x) as (s1 & -> & Hs1); [left | done |]. simpl.
    apply IH; [| done]. intros s2 y Hy. apply Hbody. by right.
Qed.

(** ** The selection of the realizations *)

Section select_rlzs_facts.
Variable closest_to_ref : nat -> list Z.

Lemma has_shape_zeros (N nZ : nat) : has_shape N nZ (replicate N (replicate nZ 0%Z)).
Proof.
  split; [apply length_replicate |].
  apply Forall_replicate, length_replicate.
Qed.

Lemma set_row_shape (N nZ sid : nat) (rlzs rlzs' : list (list Z)) (values : list Z) :
  has_shape N nZ rlzs -> set_row rlzs nZ sid values = Ok rlzs' -> has_shape N nZ rlzs'.
Proof.
  intros [Hlen Hrows]. unfold set_row.
  destruct (rlzs !! sid) as [row |]; [| done].
  destruct (Nat.eqb_spec (length values) nZ) as [Hv | Hv].
  - intros [= <-]. split; [by rewrite length_insert |].
    by apply Forall_insert.
  - destruct values as [| v [| ? ?]]; try done.
    intros [= <-]. split; [by rewrite length_insert |].
    apply Forall_insert; [done | apply length_replicate].
Qed.

(** Writing the columns one by one, as the loop over [z] does. *)
Lemma columns_as_rows (idx : list Z) (zs : list nat) (rlzs : list (list Z)) :
  fold_left (fun rlzs z => (fun row => <[z := default 0%Z (idx !! z)]> row) <$> rlzs)
            zs rlzs
  = (fun row => fold_left (fun row z => <[z := default 0%Z (idx !! z)]> row) zs row)
      <$> rlzs.
Proof.
  revert rlzs. induction zs as [| z zs IH]; intros rlzs; simpl.
  - by rewrite list_fmap_id.
  - rewrite IH, <- list_fmap_compose. done.
Qed.

Lemma fill_row (idx row : list Z) (k : nat) :
  length row = length idx -> k <= length idx ->
  fold_left (fun row z => <[z := default 0%Z (idx !! z)]> row) (seq 0 k) row
  = take k idx ++ drop k row.
Proof.
  intros Hlen. induction k as [| k IH]; intros Hk.
  - simpl. by rewrite drop_0.
  - rewrite seq_S, fold_left_app, IH by lia. simpl.
    destruct (lookup_lt_is_Some_2 idx k) as [x Hx]; [lia |].
    rewrite Hx. simpl.
    rewrite (take_S_r idx k x Hx).
    rewrite insert_app_r_alt by (rewrite length_take; lia).
    rewrite length_take, Nat.min_l, Nat.sub_diag by lia.
    destruct (drop k row) as [| y rest] eqn:Hdrop.
    + apply (f_equal length) in Hdrop. rewrite length_drop in Hdrop. simpl in Hdrop. lia.
    + simpl. rewrite <- app_assoc. simpl. do 2 f_equal.
      replace (S k) with (k + 1) by lia. rewrite <- drop_drop, Hdrop. done.
Qed.

Lemma explicit_rows (idx : list Z) (N : nat) :
  fold_left (fun rlzs z => (fun row => <[z := default 0%Z (idx !! z)]> row) <$> rlzs)
            (seq 0 (length idx)) (replicate N (replicate (length idx) 0%Z))
  = replicate N idx.
Proof.
  rewrite columns_as_rows, fmap_replicate. f_equal.
  rewrite fill_row by (rewrite ?length_replicate; lia).
  rewrite firstn_all, drop_ge by (rewrite length_replicate; lia).
  apply app_nil_r.
Qed.

End select_rlzs_facts.

(** C9.  Whenever the selection returns, with the indices configured or
    with the [Z] realizations closest to the mean, [Z <= R] holds, as the
    assertion demands, and [rlzs] is an array of shape (N, Z), every row of
    which is [rlz_index] when the indices are configured.  The selection
    does return when [Z <= R]: always with configured indices, and with the
    closest realizations as soon as every site is a row of the array and has
    [Z] ranked realizations at least. *)
Theorem select_rlzs_Z_le_R :
  (forall (closest_to_ref : nat -> list Z) (rlz_index : option (list Z))
          (num_rlzs_disagg : nat) (sids : list nat) (R : Z)
          (nZ : nat) (rlzs : list (list Z)),
     select_rlzs closest_to_ref rlz_index num_rlzs_disagg sids R = Ok (nZ, rlzs) ->
     (Z.of_nat nZ <= R)%Z /\
     has_shape (length sids) nZ rlzs /\
     match rlz_index with
     | Some idx => nZ = length idx /\ rlzs = replicate (length sids) idx
     | None => nZ = num_rlzs_disagg
     end) /\
  (forall closest_to_ref (idx : list Z) num_rlzs_disagg (sids : list nat) (R : Z),
     (Z.of_nat (length idx) <= R)%Z ->
     select_rlzs closest_to_ref (Some idx) num_rlzs_disagg sids R
     = Ok (length idx, replicate (length sids) idx)) /\
  (forall closest_to_ref (num_rlzs_disagg : nat) (sids : list nat) (R : Z),
     (Z.of_nat num_rlzs_disagg <= R)%Z ->
     Forall (fun sid => sid < length sids /\
                        num_rlzs_disagg <= length (closest_to_ref sid)) sids ->
     exists rlzs, select_rlzs closest_to_ref None num_rlzs_disagg sids R
                  = Ok (num_rlzs_disagg, rlzs)).
Proof.
  split; [| split].
  - intros closest rlz_index num sids R nZ rlzs. unfold select_rlzs.
    destruct rlz_index as [idx |].
    + cbn [mbind result_bind]. rewrite explicit_rows.
      destruct (Z.leb_spec (Z.of_nat (length idx)) R); [| done].
      intros [= <- <-]. split; [done |]. split; [| done].
      split; [apply length_replicate |]. by apply Forall_replicate.
    + destruct (1 <? R)%Z.
      * destruct (foldlM _ _ sids) as [rlzs1 |] eqn:Hloop; [| done].
        cbn [mbind result_bind].
        destruct (Z.leb_spec (Z.of_nat num) R); [| done].
        intros [= <- <-]. split; [done |]. split; [| done].
        eapply (foldlM_invariant (has_shape (length sids) num)); [| | exact Hloop].
        -- intros s x s' _ Hs Hx. simpl in Hx.
           exact (set_row_shape _ _ _ _ _ _ Hs Hx).
        -- apply has_shape_zeros.
      * cbn [mbind result_bind].
        destruct (Z.leb_spec (Z.of_nat num) R); [| done].
        intros [= <- <-]. split; [done |]. split; [| done].
        apply has_shape_zeros.
  - intros closest idx num sids R HR. unfold select_rlzs.
    cbn [mbind result_bind]. rewrite explicit_rows.
    destruct (Z.leb_spec (Z.of_nat (length idx)) R); [done | lia].
  - intros closest num sids R HR Hsids. unfold select_rlzs.
    destruct (1 <? R)%Z.
    + destruct (foldlM_returns (has_shape (length sids) num)
                  (fun rlzs sid => set_row rlzs num sid (take num (closest sid)))
                  sids (replicate (length sids) (replicate num 0%Z)))
        as (rlzs & -> & _).
      * intros s sid Hin [Hlen Hrows].
        rewrite Forall_forall in Hsids. destruct (Hsids sid Hin) as [Hlt Hnum].
        unfold set_row.
        destruct (lookup_lt_is_Some_2 s sid) as [row ->]; [lia |].
        rewrite length_take, Nat.min_l, Nat.eqb_refl by lia.
        eexists; split; [reflexivity |].
        split; [by rewrite length_insert |].
        apply Forall_insert; [done |]. rewrite length_take. lia.
      * apply has_shape_zeros.
      * cbn [mbind result_bind].
        destruct (Z.leb_spec (Z.of_nat num) R); [by eexists | lia].
    + cbn [mbind result_bind].
      destruct (Z.leb_spec (Z.of_nat num) R); [by eexists | lia].
Qed.

Lemma select_rlzs_Z_le_R_witness :
  (Z.of_nat 2 <= 3)%Z /\
  has_shape (length [0; 1]) 2 [[2; 0]; [1; 2]]%Z /\
  2 = 2.
Proof.
  apply (proj1 select_rlzs_Z_le_R
           (fun sid => match sid with O => [2; 0; 1] | _ => [1; 2; 0] end)%Z
           None 2 [0; 1] 3%Z 2 [[2; 0]; [1; 2]]%Z).
  reflexivity.
Defined.

(** ** The curve check *)

Section check_curves_facts.
Context {A : Type} `{Number A}.

Lemma poes_loop (sid : nat) (rlz : Z) (imt : string) (max_poe : A)
    (poes_disagg : list A) (bad : nat) (log : list (warning A)) :
  for_loop poes_disagg bad (fun bad poe =>
      if ltb max_poe poe
      then _ ← logging_warning (POE_TOO_BIG sid poe max_poe rlz imt);
           mret (bad + 1)%nat
      else mret bad) log
  = (log ++ poe_warnings sid rlz imt max_poe poes_disagg,
     Ok (bad + length (poe_warnings sid rlz imt max_poe poes_disagg))%nat).
Proof.
  revert bad log. induction poes_disagg as [| poe poes IH]; intros bad log.
  - simpl. by rewrite app_nil_r, Nat.add_0_r.
  - cbn [for_loop]. unfold mbind at 1, logged_bind.
    unfold poe_warnings. cbn [flat_map]. fold (poe_warnings sid rlz imt max_poe poes).
    destruct (ltb max_poe poe).
    + unfold mbind at 1, logged_bind, logging_warning, mret, logged_ret.
      rewrite IH. rewrite <- app_assoc. simpl. do 2 f_equal. lia.
    + unfold mret at 1, logged_ret. rewrite IH. done.
Qed.

Lemma imts_loop (sid : nat) (rlz : Z) (cv : curve A) (imtls : list string)
    (poes_disagg : list A) (bad : nat) (log : list (warning A)) :
  Forall (fun imt => cv imt <> []) imtls ->
  for_loop imtls bad (fun bad imt =>
      max_poe ← lift (curve_max (Some cv) imt);
      for_loop poes_disagg bad (fun bad poe =>
        if ltb max_poe poe
        then _ ← logging_warning (POE_TOO_BIG sid poe max_poe rlz imt);
             mret (bad + 1)%nat
        else mret bad)) log
  = (log ++ curve_warnings sid rlz (Some cv) imtls poes_disagg,
     Ok (bad + length (curve_warnings sid rlz (Some cv) imtls poes_disagg))%nat).
Proof.
  intros Hne. revert bad log.
  induction Hne as [| imt imtls Himt _ IH]; intros bad log.
  - simpl. by rewrite app_nil_r, Nat.add_0_r.
  - cbn [for_loop]. unfold mbind at 1, logged_bind.
    unfold mbind at 1, logged_bind, lift.
    unfold curve_warnings. cbn [flat_map].
    fold (curve_warnings sid rlz (Some cv) imtls poes_disagg).
    unfold curve_max, amax. destruct (cv imt) as [| x xs]; [done |].
    rewrite poes_loop, IH. rewrite <- app_assoc, length_app.
    do 2 f_equal. lia.
Qed.

Lemma curves_loop (sid : nat) (rlzs : list Z) (curves : list (option (curve A)))
    (imtls : list string) (poes_disagg : list A) (bad : nat) (log : list (warning A)) :
  present imtls curves ->
  for_loop (zip rlzs curves) bad (fun bad '(rlz, c) =>
    for_loop imtls bad (fun bad imt =>
      max_poe ← lift (curve_max c imt);
      for_loop poes_disagg bad (fun bad poe =>
        if ltb max_poe poe
        then _ ← logging_warning (POE_TOO_BIG sid poe max_poe rlz imt);
             mret (bad + 1)%nat
        else mret bad))) log
  = (log ++ site_warnings sid rlzs curves imtls poes_disagg,
     Ok (bad + length (site_warnings sid rlzs curves imtls poes_disagg))%nat).
Proof.
  intros Hp. revert rlzs bad log.
  induction Hp as [| c curves (cv & -> & Hcv) _ IH]; intros rlzs bad log.
  - destruct rlzs; simpl; by rewrite app_nil_r, Nat.add_0_r.
  - destruct rlzs as [| rlz rlzs].
    + simpl. by rewrite app_nil_r, Nat.add_0_r.
    + unfold site_warnings. cbn [zip zip_with flat_map for_loop].
      fold (site_warnings sid rlzs curves imtls poes_disagg).
      unfold mbind at 1, logged_bind.
      rewrite imts_loop by done. rewrite IH.
      by rewrite <- app_assoc, length_app, Nat.add_assoc.
Qed.

(** [_check_curves] on a site whose curves are there: it logs the warnings
    of the site and tells whether there are any. *)
Lemma check_curves_present (sid : nat) (rlzs : list Z) (curves : list (option (curve A)))
    (imtls : list string) (poes_disagg : list A) (log : list (warning A)) :
  present imtls curves ->
  _check_curves sid rlzs curves imtls poes_disagg log
  = (log ++ site_warnings sid rlzs curves imtls poes_disagg,
     Ok (negb (Nat.eqb (length (site_warnings sid rlzs curves imtls poes_disagg)) 0))).
Proof.
  intros Hp. unfold _check_curves. unfold mbind at 1, logged_bind.
  by rewrite curves_loop.
Qed.

End check_curves_facts.

Section check_poes_disagg_facts.
Context {A : Type} `{Number A}.
Variables (imtls : list string) (poes_disagg : list A).
Variables (curves : list (list (option (curve A)))) (rlzs : list (list Z)).

Lemma poe_warnings_elem (w : warning A) sid rlz imt max_poe :
  w ∈ poe_warnings sid rlz imt max_poe poes_disagg <->
  exists poe, poe ∈ poes_disagg /\ ltb max_poe poe = true /\
              w = POE_TOO_BIG sid poe max_poe rlz imt.
Proof.
  unfold poe_warnings. rewrite list_elem_of_In, in_flat_map. split.
  - intros (poe & Hpoe & Hw). exists poe. rewrite list_elem_of_In.
    destruct (ltb max_poe poe); [| done].
    destruct Hw as [<- | []]. done.
  - intros (poe & Hpoe & Hlt & ->). exists poe. rewrite <- list_elem_of_In.
    split; [done |]. rewrite Hlt. by left.
Qed.

Lemma curve_warnings_elem (w : warning A) sid rlz (c : option (curve A)) :
  w ∈ curve_warnings sid rlz c imtls poes_disagg <->
  exists cv imt max_poe poe,
    c = Some cv /\ imt ∈ imtls /\ amax (cv imt) = Ok max_poe /\
    poe ∈ poes_disagg /\ ltb max_poe poe = true /\
    w = POE_TOO_BIG sid poe max_poe rlz imt.
Proof.
  unfold curve_warnings. rewrite list_elem_of_In, in_flat_map. split.
  - intros (imt & Himt & Hw). apply list_elem_of_In in Himt.
    destruct c as [cv |]; [| done]. simpl in Hw.
    destruct (amax (cv imt)) as [m |] eqn:Hm; [| done].
    apply list_elem_of_In, poe_warnings_elem in Hw as (poe & ? & ? & ->).
    by exists cv, imt, m, poe.
  - intros (cv & imt & m & poe & -> & Himt & Hm & Hpoe & Hlt & ->).
    exists imt. rewrite <- list_elem_of_In. split; [done |].
    simpl. rewrite Hm. apply list_elem_of_In, poe_warnings_elem. by exists poe.
Qed.

Lemma site_warnings_elem (w : warning A) sid rs cs :
  w ∈ site_warnings sid rs cs imtls poes_disagg <->
  exists rlz cv imt max_poe poe,
    (rlz, Some cv) ∈ zip rs cs /\ imt ∈ imtls /\ amax (cv imt) = Ok max_poe /\
    poe ∈ poes_disagg /\ ltb max_poe poe = true /\
    w = POE_TOO_BIG sid poe max_poe rlz imt.
Proof.
  unfold site_warnings. rewrite list_elem_of_In, in_flat_map. split.
  - intros ([rlz c] & Hin & Hw). apply list_elem_of_In in Hin.
    apply list_elem_of_In, curve_warnings_elem in Hw
      as (cv & imt & m & poe & -> & ? & ? & ? & ? & ->).
    by exists rlz, cv, imt, m, poe.
  - intros (rlz & cv & imt & m & poe & Hin & ? & ? & ? & ? & ->).
    exists (rlz, Some cv). rewrite <- list_elem_of_In. split; [done |].
    apply list_elem_of_In, curve_warnings_elem. by exists cv, imt, m, poe.
Qed.

(** No curve of a site is both missing and there, unless it has none. *)
Lemma all_None_present (cs : list (option (curve A))) :
  forallb is_None cs = true -> present imtls cs -> cs = [].
Proof.
  intros Hnone Hp. destruct Hp as [| c cs (cv & -> & _) _]; [done |].
  simpl in Hnone. done.
Qed.

Lemma sid_warnings_elem (w : warning A) (sid : nat) :
  well_formed_site imtls curves rlzs sid ->
  w ∈ sid_warnings imtls poes_disagg curves rlzs sid <->
  exists poe max_poe rlz imt,
    exceeds imtls poes_disagg curves rlzs sid poe max_poe rlz imt /\ w = POE_TOO_BIG sid poe max_poe rlz imt.
Proof.
  intros (cs & rs & Hcs & Hrs & Hwf). unfold sid_warnings, exceeds.
  rewrite Hcs, Hrs. split.
  - destruct (forallb is_None cs) eqn:Hnone; [by intros ?%elem_of_nil |].
    destruct Hwf as [? | Hp]; [done |].
    intros (rlz & cv & imt & m & poe & ? & ? & ? & ? & ? & ->)%site_warnings_elem.
    exists poe, m, rlz, imt. split; [| done]. by exists cs, rs, cv.
  - intros (poe & m & rlz & imt & (cs' & rs' & cv & Hcs' & Hrs' & Hp & Hin & ?) & ->).
    inversion Hcs'; inversion Hrs'; subst.
    destruct (forallb is_None cs') eqn:Hnone.
    + rewrite (all_None_present cs' Hnone Hp) in Hin.
      rewrite zip_with_nil_r in Hin. by apply elem_of_nil in Hin.
    + apply site_warnings_elem. exists rlz, cv, imt, m, poe. tauto.
Qed.

Lemma sid_ok_too_big (sid : nat) :
  well_formed_site imtls curves rlzs sid -> sid_ok imtls poes_disagg curves rlzs sid = true <-> ~ too_big imtls poes_disagg curves rlzs sid.
Proof.
  intros Hwf. unfold sid_ok, too_big. split.
  - intros Hok (poe & m & rlz & imt & Hex).
    assert (Hin : POE_TOO_BIG sid poe m rlz imt ∈ sid_warnings imtls poes_disagg curves rlzs sid).
    { apply sid_warnings_elem; [done |]. by exists poe, m, rlz, imt. }
    destruct (sid_warnings imtls poes_disagg curves rlzs sid); [by apply elem_of_nil in Hin | done].
  - intros Hno. destruct (sid_warnings imtls poes_disagg curves rlzs sid) as [| w ws] eqn:Hws; [done |].
    exfalso. apply Hno.
    assert (Hin : w ∈ sid_warnings imtls poes_disagg curves rlzs sid) by (rewrite Hws; left).
    apply sid_warnings_elem in Hin as (poe & m & rlz & imt & Hex & _); [| done].
    by exists poe, m, rlz, imt.
Qed.

End check_poes_disagg_facts.

Section check_poes_disagg_run.
Context {A : Type} `{Number A}.
Variables (imtls : list string) (poes_disagg : list A).
Variables (curves : list (list (option (curve A)))) (rlzs : list (list Z)).

Local Abbreviation well_formed := (well_formed_site imtls curves rlzs).
Local Abbreviation warnings_of := (sid_warnings imtls poes_disagg curves rlzs).
Local Abbreviation ok := (sid_ok imtls poes_disagg curves rlzs).

Lemma sites_loop (sids : list nat) (ok_sites : list nat) (log : list (warning A)) :
  Forall well_formed sids ->
  for_loop sids ok_sites (fun ok_sites sid =>
    cs ← lift (getitem curves sid);
    if forallb is_None cs then mret (ok_sites ++ [sid])
    else
      rs ← lift (getitem rlzs sid);
      bad ← _check_curves sid rs cs imtls poes_disagg;
      if negb bad then mret (ok_sites ++ [sid]) else mret ok_sites) log
  = (log ++ flat_map warnings_of sids, Ok (ok_sites ++ List.filter ok sids)).
Proof.
  intros Hwf. revert ok_sites log.
  induction Hwf as [| sid sids (cs & rs & Hcs & Hrs & Hcase) _ IH]; intros ok_sites log.
  - simpl. by rewrite !app_nil_r.
  - cbn [for_loop flat_map List.filter].
    unfold mbind at 1, logged_bind. unfold mbind at 1, logged_bind, lift, getitem.
    unfold sid_ok, sid_warnings. rewrite Hcs, Hrs.
    destruct (forallb is_None cs) eqn:Hnone.
    + unfold mret at 1, logged_ret. rewrite IH.
      by rewrite <- app_assoc.
    + destruct Hcase as [? | Hp]; [done |].
      unfold mbind at 1, logged_bind. unfold mbind at 1, logged_bind.
      rewrite check_curves_present by done.
      destruct (site_warnings sid rs cs imtls poes_disagg) as [| w ws] eqn:Hws.
      * simpl. unfold mret at 1, logged_ret. rewrite IH.
        by rewrite !app_nil_r, <- app_assoc.
      * cbn [length Nat.eqb negb]. unfold mret at 1, logged_ret. rewrite IH.
        by rewrite <- app_assoc.
Qed.

(** [check_poes_disagg] on sites that are well formed. *)
Lemma check_poes_disagg_run (sids : list nat) (log : list (warning A)) :
  Forall well_formed sids ->
  check_poes_disagg sids imtls poes_disagg curves rlzs log
  = let ok_sites := List.filter ok sids in
    let log1 := log ++ flat_map warnings_of sids in
    if Nat.eqb (length ok_sites) 0 then (log1, Raise SystemExit)
    else if Nat.ltb (length ok_sites) (length sids)
         then (log1 ++ [Doing_the_disaggregation_on sids], Ok ok_sites)
         else (log1, Ok ok_sites).
Proof.
  intros Hwf. unfold check_poes_disagg. unfold mbind at 1, logged_bind.
  rewrite sites_loop by done. simpl.
  destruct (Nat.eqb (length (List.filter ok sids)) 0); [done |].
  destruct (Nat.ltb (length (List.filter ok sids)) (length sids)); done.
Qed.

End check_poes_disagg_run.

(** X22.  On sites whose curves are all missing or all there,
    [check_poes_disagg] logs the warning [POE_TOO_BIG], with the site, the
    poe, the maximum, the realization and the IMT, for every requested poe
    that exceeds the maximum of the curve of a selected realization for an
    IMT at a site whose curves are there; the sites it returns are the
    sites with no such excess, the others being left out; and it raises
    [SystemExit] when every site has one, returning otherwise. *)
Theorem check_poes_disagg_excludes {A : Type} `{Number A}
    (sids : list nat) (imtls : list string) (poes_disagg : list A)
    (curves : list (list (option (curve A)))) (rlzs : list (list Z)) :
  Forall (well_formed_site imtls curves rlzs) sids ->
  exists log r,
    check_poes_disagg sids imtls poes_disagg curves rlzs [] = (log, r) /\
    (forall sid poe max_poe rlz imt,
       sid ∈ sids ->
       exceeds imtls poes_disagg curves rlzs sid poe max_poe rlz imt ->
       POE_TOO_BIG sid poe max_poe rlz imt ∈ log) /\
    (forall ok_sites, r = Ok ok_sites ->
       forall sid, sid ∈ ok_sites <->
                   sid ∈ sids /\ ~ too_big imtls poes_disagg curves rlzs sid) /\
    ((forall sid, sid ∈ sids -> too_big imtls poes_disagg curves rlzs sid) ->
       r = Raise SystemExit) /\
    ((exists sid, sid ∈ sids /\ ~ too_big imtls poes_disagg curves rlzs sid) ->
       exists ok_sites, r = Ok ok_sites).
Proof.
  intros Hwf. rewrite check_poes_disagg_run by done. cbn zeta.
  set (oks := List.filter (sid_ok imtls poes_disagg curves rlzs) sids).
  assert (Hoks : forall sid, sid ∈ oks <->
            sid ∈ sids /\ ~ too_big imtls poes_disagg curves rlzs sid).
  { intros sid. unfold oks. rewrite list_elem_of_In, filter_In, <- list_elem_of_In.
    split; intros [Hin Hok]; (split; [done |]);
      rewrite Forall_forall in Hwf; by apply (sid_ok_too_big _ _ _ _ _ (Hwf sid Hin)). }
  assert (Hlog : forall log' sid poe max_poe rlz imt,
            sid ∈ sids ->
            exceeds imtls poes_disagg curves rlzs sid poe max_poe rlz imt ->
            POE_TOO_BIG sid poe max_poe rlz imt
              ∈ ([] ++ flat_map (sid_warnings imtls poes_disagg curves rlzs) sids) ++ log').
  { intros log' sid poe m rlz imt Hin Hex. apply elem_of_app. left. simpl.
    apply list_elem_of_In, in_flat_map. exists sid. rewrite <- !list_elem_of_In.
    split; [done |]. rewrite Forall_forall in Hwf.
    apply sid_warnings_elem; [by apply Hwf |]. by exists poe, m, rlz, imt. }
  destruct (Nat.eqb_spec (length oks) 0) as [Hnil | Hcons].
  - apply length_zero_iff_nil in Hnil.
    eexists _, _. split; [reflexivity |]. split; [| split; [| split]].
    + intros sid poe m rlz imt Hin Hex.
      specialize (Hlog [] sid poe m rlz imt Hin Hex). by rewrite app_nil_r in Hlog.
    + done.
    + done.
    + intros (sid & Hin & Hno). exfalso.
      assert (Hsid : sid ∈ oks) by (by apply Hoks). rewrite Hnil in Hsid.
      by apply elem_of_nil in Hsid.
  - assert (Hsome : exists sid, sid ∈ oks).
    { destruct oks as [| sid ?]; [done |]. exists sid. left. }
    destruct Hsome as (sid0 & Hsid0).
    assert (Hnot_all : ~ (forall sid, sid ∈ sids ->
                            too_big imtls poes_disagg curves rlzs sid)).
    { intros Hall. apply Hoks in Hsid0 as [Hin Hno]. by apply Hno, Hall. }
    destruct (Nat.ltb (length oks) (length sids)).
    + eexists _, _. split; [reflexivity |]. split; [| split; [| split]].
      * intros sid poe m rlz imt Hin Hex. by apply Hlog.
      * intros ok_sites [= <-]. exact Hoks.
      * intros Hall. by destruct Hnot_all.
      * intros _. by eexists.
    + eexists _, _. split; [reflexivity |]. split; [| split; [| split]].
      * intros sid poe m rlz imt Hin Hex.
        specialize (Hlog [] sid poe m rlz imt Hin Hex). by rewrite app_nil_r in Hlog.
      * intros ok_sites [= <-]. exact Hoks.
      * intros Hall. by destruct Hnot_all.
      * intros _. by eexists.
Qed.

Lemma check_poes_disagg_excludes_witness :
  exists log r,
    check_poes_disagg [0; 1] ["PGA"] [0x1.999999999999ap-4%float] low_curves [[0%Z]; [0%Z]] [] = (log, r) /\
    (forall sid poe max_poe rlz imt,
       sid ∈ [0; 1] ->
       exceeds ["PGA"] [0x1.999999999999ap-4%float] low_curves [[0%Z]; [0%Z]] sid poe max_poe rlz imt ->
       POE_TOO_BIG sid poe max_poe rlz imt ∈ log) /\
    (forall ok_sites, r = Ok ok_sites ->
       forall sid, sid ∈ ok_sites <->
                   sid ∈ [0; 1] /\ ~ too_big ["PGA"] [0x1.999999999999ap-4%float] low_curves [[0%Z]; [0%Z]] sid) /\
    ((forall sid, sid ∈ [0; 1] -> too_big ["PGA"] [0x1.999999999999ap-4%float] low_curves [[0%Z]; [0%Z]] sid) ->
       r = Raise SystemExit) /\
    ((exists sid, sid ∈ [0; 1] /\ ~ too_big ["PGA"] [0x1.999999999999ap-4%float] low_curves [[0%Z]; [0%Z]] sid) ->
       exists ok_sites, r = Ok ok_sites).
Proof.
  apply (check_poes_disagg_excludes [0; 1] ["PGA"] [0x1.999999999999ap-4%float]
           low_curves [[0%Z]; [0%Z]]).
  repeat constructor.
  - eexists _, _. split; [reflexivity |]. split; [reflexivity |]. right.
    repeat constructor. eexists. split; [reflexivity |]. repeat constructor. done.
  - eexists _, _. split; [reflexivity |]. split; [reflexivity |]. right.
    repeat constructor. eexists. split; [reflexivity |]. repeat constructor. done.
Defined.

(** Outside these sites: a site with a curve for one realization and none
    for another makes [curve[imt]] raise. *)
Example check_curves_missing_curve :
  _check_curves 0 [0%Z; 1%Z] [Some (fun _ => [0.5%float]); None] ["PGA"]
                [0x1.999999999999ap-4%float] []
  = ([], Raise TypeError).
Proof. vm_compute. reflexivity. Qed.

(** C4 fails in the code.  Site 0 has its two curves, which reach 1e-6 for
    the requested poe 0.1; site 1 has the curve of realization 0, which
    reaches 0.5, and none for realization 1.  The warnings of site 0 are
    logged, and then [curve[imt]] raises [TypeError] at site 1: no site is
    returned, site 0 is not left out of anything and site 1 does not
    proceed, although it has no poe that is too big.  In the other order of
    the sites the run ends the same way, before site 0 is looked at. *)
Theorem check_poes_disagg_mixed_site :
  check_poes_disagg [0; 1] ["PGA"] [0x1.999999999999ap-4%float] mixed_curves
                    [[0%Z; 1%Z]; [0%Z; 1%Z]] []
  = ([POE_TOO_BIG 0 0x1.999999999999ap-4%float 0x1.0c6f7a0b5ed8dp-20%float 0 "PGA";
      POE_TOO_BIG 0 0x1.999999999999ap-4%float 0x1.0c6f7a0b5ed8dp-20%float 1 "PGA"],
     Raise TypeError) /\
  check_poes_disagg [1; 0] ["PGA"] [0x1.999999999999ap-4%float] mixed_curves
                    [[0%Z; 1%Z]; [0%Z; 1%Z]] []
  = ([], Raise TypeError) /\
  get_curves pmaps_of_two_rlzs (fun c => c) [0; 1] [[0%Z; 1%Z]; [0%Z; 1%Z]]
  = Ok mixed_curves.
Proof. repeat split; vm_compute; reflexivity. Qed.

(** The scenario, run: site 0 is logged as too big and left out, site 1
    is kept, and the run goes on with a second warning. *)
Example check_poes_disagg_low_curves :
  check_poes_disagg [0; 1] ["PGA"] [0x1.999999999999ap-4%float] low_curves
                    [[0%Z]; [0%Z]] []
  = ([POE_TOO_BIG 0 0x1.999999999999ap-4%float 0x1.0c6f7a0b5ed8dp-20%float 0 "PGA";
      Doing_the_disaggregation_on [0; 1]],
     Ok [1]).
Proof. vm_compute. reflexivity. Qed.

(** ** The extraction of the PMFs *)

Section save_facts.
Context {A : Type} `{Number A}.
Variable pmf_map : list (string * (ndarray A -> ndarray A)).
Variable disagg_outputs : list string.

Lemma pmf_loop (name : disp_name) (matrix6 aggmatrix : ndarray A)
    (pmfs : list (string * (ndarray A -> ndarray A)))
    (ds : pmf_store (A := A)) (poe_agg : list A) :
  foldlM (fun '(ds, poe_agg) '(key, fn) =>
            if requested disagg_outputs key then
              let pmf := fn (if endswith key "TRT" then matrix6 else aggmatrix) in
              Ok (ds ++ [((name, key), pmf)],
                  poe_agg ++ [sub one (nd_prod (rsub one pmf))])
            else Ok (ds, poe_agg))
         (ds, poe_agg) pmfs
  = Ok (ds ++ List.map (fun kf => ((name, fst kf), pmf_of matrix6 aggmatrix (fst kf) (snd kf)))
                       (List.filter (fun kf => requested disagg_outputs (fst kf)) pmfs),
        poe_agg ++ List.map (fun kf => sub one (nd_prod (rsub one
                                          (pmf_of matrix6 aggmatrix (fst kf) (snd kf)))))
                            (List.filter (fun kf => requested disagg_outputs (fst kf)) pmfs)).
Proof.
  revert ds poe_agg. induction pmfs as [| [key fn] pmfs IH]; intros ds poe_agg.
  - simpl. by rewrite !app_nil_r.
  - cbn [foldlM List.filter fst]. destruct (requested disagg_outputs key).
    + cbn [mbind result_bind]. rewrite IH. simpl. by rewrite <- !app_assoc.
    + cbn [mbind result_bind]. apply IH.
Qed.

(** [_save] as a whole: when the poe has an index and the TRT axis
    collapses, the datasets of the requested PMFs are added, in the order
    of [pmf_map]. *)
Lemma save_run (poe_id : list (option A * nat)) (site_id : nat) (rlz_id : rlz_ref)
    (poe : option A) (imt_str : string) (matrix6 : ndarray A) (ds : pmf_store (A := A))
    (p : nat) (slices : list (ndarray A)) (aggmatrix : ndarray A) :
  poe_id_getitem poe_id poe = Ok p ->
  unpack matrix6 = Ok slices ->
  agg_probs slices = Ok aggmatrix ->
  let name := {| name_rlz := rlz_id; name_imt := imt_str;
                 name_sid := site_id; name_poe := p |} in
  _save pmf_map disagg_outputs poe_id site_id rlz_id poe imt_str matrix6 ds
  = Ok (ds ++ List.map (fun kf => ((name, fst kf), pmf_of matrix6 aggmatrix (fst kf) (snd kf)))
                       (pmfs_requested pmf_map disagg_outputs),
        List.map (fun kf => sub one (nd_prod (rsub one
                              (pmf_of matrix6 aggmatrix (fst kf) (snd kf)))))
                 (pmfs_requested pmf_map disagg_outputs)).
Proof.
  intros Hp Hs Hagg name. unfold _save. rewrite Hp. cbn [mbind result_bind].
  rewrite Hs. cbn [mbind result_bind]. rewrite Hagg. cbn [mbind result_bind].
  apply pmf_loop.
Qed.

(** A call of [_save] that returns has added to the datastore what it
    writes into an empty one. *)
Lemma save_appends (poe_id : list (option A * nat)) (site_id : nat) (rlz_id : rlz_ref)
    (poe : option A) (imt_str : string) (matrix6 : ndarray A)
    (ds ds' : pmf_store (A := A)) (poe_agg : list A) :
  _save pmf_map disagg_outputs poe_id site_id rlz_id poe imt_str matrix6 ds
  = Ok (ds', poe_agg) ->
  exists out,
    ds' = ds ++ out /\
    _save pmf_map disagg_outputs poe_id site_id rlz_id poe imt_str matrix6 []
    = Ok (out, poe_agg).
Proof.
  intros Hsave.
  destruct (poe_id_getitem poe_id poe) as [p |] eqn:Hp;
    [| by unfold _save in Hsave; rewrite Hp in Hsave].
  destruct (unpack matrix6) as [slices |] eqn:Hs;
    [| by unfold _save in Hsave; rewrite Hp, Hs in Hsave].
  destruct (agg_probs slices) as [agg |] eqn:Hagg;
    [| by unfold _save in Hsave; rewrite Hp, Hs in Hsave; simpl in Hsave;
          rewrite Hagg in Hsave].
  rewrite (save_run _ _ _ _ _ _ _ _ _ _ Hp Hs Hagg) in Hsave.
  rewrite (save_run _ _ _ _ _ _ _ _ _ _ Hp Hs Hagg).
  inversion Hsave; subst. eexists. split; reflexivity.
Qed.

End save_facts.

Example endswith_examples :
  endswith "TRT" "TRT" = true /\ endswith "Lon_Lat_TRT" "TRT" = true /\
  endswith "Mag" "TRT" = false /\ endswith "Mag_Dist_Eps" "TRT" = false /\
  endswith "RT" "TRT" = false.
Proof. repeat split. Qed.

(** C7.  When [_save] runs on a matrix whose TRT axis collapses to
    [aggmatrix = agg_probs( *matrix6 )], it writes one dataset per requested
    PMF and no other: [fn(matrix6)], on the full matrix with its TRT axis,
    for a name that ends in 'TRT', and [fn(aggmatrix)] for any other name. *)
Theorem save_keeps_trt_axis {A : Type} `{Number A}
    (pmf_map : list (string * (ndarray A -> ndarray A)))
    (disagg_outputs : list string) (poe_id : list (option A * nat))
    (site_id : nat) (rlz_id : rlz_ref) (poe : option A) (imt_str : string)
    (matrix6 : ndarray A) (ds : pmf_store (A := A))
    (p : nat) (slices : list (ndarray A)) (aggmatrix : ndarray A) :
  poe_id_getitem poe_id poe = Ok p ->
  unpack matrix6 = Ok slices ->
  agg_probs slices = Ok aggmatrix ->
  let name := {| name_rlz := rlz_id; name_imt := imt_str;
                 name_sid := site_id; name_poe := p |} in
  exists new poe_agg,
    _save pmf_map disagg_outputs poe_id site_id rlz_id poe imt_str matrix6 ds
    = Ok (ds ++ new, poe_agg) /\
    (forall key fn, (key, fn) ∈ pmf_map -> requested disagg_outputs key = true ->
       endswith key "TRT" = true -> ((name, key), fn matrix6) ∈ new) /\
    (forall key fn, (key, fn) ∈ pmf_map -> requested disagg_outputs key = true ->
       endswith key "TRT" = false -> ((name, key), fn aggmatrix) ∈ new) /\
    (forall w, w ∈ new ->
       exists key fn, (key, fn) ∈ pmf_map /\ requested disagg_outputs key = true /\
         w = ((name, key), fn (if endswith key "TRT" then matrix6 else aggmatrix))).
Proof.
  intros Hp Hs Hagg name.
  rewrite (save_run pmf_map disagg_outputs _ _ _ _ _ _ _ _ _ _ Hp Hs Hagg).
  eexists _, _. split; [reflexivity |].
  assert (Hin : forall key fn, (key, fn) ∈ pmf_map ->
            requested disagg_outputs key = true ->
            ((name, key), pmf_of matrix6 aggmatrix key fn)
              ∈ List.map (fun kf => ((name, kf.1), pmf_of matrix6 aggmatrix kf.1 kf.2))
                         (pmfs_requested pmf_map disagg_outputs)).
  { intros key fn Hkf Hreq. apply list_elem_of_In, in_map_iff.
    exists (key, fn). split; [done |].
    apply filter_In. split; [by apply list_elem_of_In | done]. }
  split; [| split].
  - intros key fn Hkf Hreq Htrt. specialize (Hin key fn Hkf Hreq).
    unfold pmf_of in Hin. by rewrite Htrt in Hin.
  - intros key fn Hkf Hreq Htrt. specialize (Hin key fn Hkf Hreq).
    unfold pmf_of in Hin. by rewrite Htrt in Hin.
  - intros w Hw. apply list_elem_of_In, in_map_iff in Hw as ([key fn] & <- & Hkf).
    apply filter_In in Hkf as [Hkf Hreq]. exists key, fn.
    split; [by apply list_elem_of_In |]. done.
Qed.

Lemma save_keeps_trt_axis_witness :
  exists new poe_agg,
    _save [("Mag", first_axis_pmf); ("TRT", first_axis_pmf)] ["Mag"; "TRT"]
          [(Some 0.5%float, 0)] 0 (Rlz 3) (Some 0.5%float) "PGA" two_trts []
    = Ok ([] ++ new, poe_agg) /\
    (forall key fn, (key, fn) ∈ [("Mag", first_axis_pmf); ("TRT", first_axis_pmf)] ->
       requested ["Mag"; "TRT"] key = true ->
       endswith key "TRT" = true -> ((site0_poe0, key), fn two_trts) ∈ new) /\
    (forall key fn, (key, fn) ∈ [("Mag", first_axis_pmf); ("TRT", first_axis_pmf)] ->
       requested ["Mag"; "TRT"] key = true ->
       endswith key "TRT" = false ->
       ((site0_poe0, key), fn (Arr [Sc 0.75%float; Sc 0.25%float])) ∈ new) /\
    (forall w, w ∈ new ->
       exists key fn, (key, fn) ∈ [("Mag", first_axis_pmf); ("TRT", first_axis_pmf)] /\
         requested ["Mag"; "TRT"] key = true /\
         w = ((site0_poe0, key),
              fn (if endswith key "TRT" then two_trts
                  else Arr [Sc 0.75%float; Sc 0.25%float]))).
Proof.
  apply (save_keeps_trt_axis [("Mag", first_axis_pmf); ("TRT", first_axis_pmf)]
           ["Mag"; "TRT"] [(Some 0.5%float, 0)] 0 (Rlz 3) (Some 0.5%float) "PGA"
           two_trts [] 0
           [Arr [Sc 0.5%float; Sc 0%float]; Arr [Sc 0.5%float; Sc 0.25%float]]
           (Arr [Sc 0.75%float; Sc 0.25%float])).
  - reflexivity.
  - reflexivity.
  - vm_compute. reflexivity.
Defined.

(** ** No output for a matrix of zeros *)

Section compute_disagg_facts.
Context {A : Type} `{Number A} {IML2 BinData : Type}.
Variable close_ruptures : nat -> list nat.
Variable disaggregate : nat -> list nat -> IML2 -> BinData.
Variable pnes_sum : BinData -> A.
Variable build_disagg_matrix : BinData -> nat -> ndarray A.

(** A task yields a result for a site only when the matrix built for the
    site has a cell that is not zero. *)
Lemma compute_disagg_nonzero (sids : list nat) (iml3 : list IML2)
    (t : nat) (g : Z) (i : nat) (res : task_result A) :
  res ∈ compute_disagg close_ruptures disaggregate pnes_sum build_disagg_matrix
          sids iml3 t g i ->
  exists sid iml2,
    (sid, iml2) ∈ zip sids iml3 /\
    let matrix := build_disagg_matrix
                    (disaggregate sid (close_ruptures sid) iml2) sid in
    res = {| trti := t; magi := g; imti := i; by_sid := {[ sid := matrix ]} |} /\
    nd_any matrix = true.
Proof.
  unfold compute_disagg. rewrite list_elem_of_In, in_flat_map.
  intros ([sid iml2] & Hin & Hres). exists sid, iml2.
  split; [by apply list_elem_of_In |].
  destruct (close_ruptures sid) as [| u ctxs]; [done |].
  destruct (truthy _); [| done].
  destruct (nd_any _) eqn:Hany; [| done].
  destruct Hres as [<- | []]. done.
Qed.

End compute_disagg_facts.

Section save_disagg_results_facts.
Context {A : Type} `{Number A}.
Variable pmf_map : list (string * (ndarray A -> ndarray A)).
Variable average : string -> list Z -> list (ndarray A) -> ndarray A.
Variables (disagg_outputs : list string) (poe_id : list (option A * nat)).
Variables (imts : list string) (self_rlzs : list (list Z)).
Variables (poes_disagg : list (option A)) (nZ : nat).
Variable results : list ((nat * nat) * list (list (ndarray A))).

Lemma only_nonzero_save (ds0 ds ds' : pmf_store (A := A)) s r poe imt matrix6 :
  only_nonzero pmf_map average disagg_outputs poe_id imts self_rlzs poes_disagg nZ results ds0 ds ->
  combination average imts self_rlzs poes_disagg nZ results s r poe imt matrix6 ->
  nd_any matrix6 = true ->
  fst <$> _save pmf_map disagg_outputs poe_id s r poe imt matrix6 ds = Ok ds' ->
  only_nonzero pmf_map average disagg_outputs poe_id imts self_rlzs poes_disagg nZ results ds0 ds'.
Proof.
  intros (new & -> & Hnew) Hcomb Hany Hsave.
  destruct (_save _ _ _ _ _ _ _ _ _) as [[ds1 pa] |] eqn:Hs; [| done].
  simpl in Hsave. inversion Hsave; subst.
  apply save_appends in Hs as (out & -> & Hout).
  exists (new ++ out). split; [by rewrite app_assoc |].
  apply Forall_app. split; [done |].
  apply Forall_forall. intros w Hw.
  by exists s, r, poe, imt, matrix6, out, pa.
Qed.

Lemma getitem_Ok {T} (l : list T) (i : nat) (x : T) :
  getitem l i = Ok x -> l !! i = Some x.
Proof. unfold getitem. destruct (l !! i); [by intros [= ->] | done]. Qed.

Lemma getitem_Some {T} (l : list T) (i : nat) (x : T) :
  l !! i = Some x -> getitem l i = Ok x.
Proof. unfold getitem. by intros ->. Qed.

(** Whatever [save_disagg_results] adds to the datastore was written for
    a combination whose 6-D matrix has a cell that is not zero. *)
Lemma save_disagg_results_nonzero (ds ds' : pmf_store (A := A)) :
  save_disagg_results pmf_map average disagg_outputs poe_id imts self_rlzs
                      poes_disagg nZ results ds = Ok ds' ->
  only_nonzero pmf_map average disagg_outputs poe_id imts self_rlzs poes_disagg nZ results ds ds'.
Proof.
  unfold save_disagg_results.
  apply (foldlM_invariant (only_nonzero pmf_map average disagg_outputs poe_id imts self_rlzs poes_disagg nZ results ds)); [| exists []; by rewrite app_nil_r].
  intros ds1 [[m s] mat8] ds2 Hres Hds1.
  destruct (getitem imts m) as [imt |] eqn:Himt; [| done].
  destruct (getitem self_rlzs s) as [rlzs |] eqn:Hrlzs; [| done].
  apply getitem_Ok in Himt, Hrlzs.
  cbn [mbind result_bind].
  apply (foldlM_invariant (only_nonzero pmf_map average disagg_outputs poe_id imts self_rlzs poes_disagg nZ results ds)); [| done].
  intros ds3 [p poe] ds4 Hp Hds3.
  apply list_elem_of_lookup in Hp as [k Hk].
  apply list_lookup_imap_Some in Hk as (poe' & Hpoe & Heq).
  inversion Heq; subst. clear Heq.
  destruct (getitem mat8 k) as [mat7 |] eqn:Hmat7; [| done].
  apply getitem_Ok in Hmat7.
  cbn [mbind result_bind].
  destruct (foldlM _ ds3 (seq 0 nZ)) as [ds5 |] eqn:Hz; [| done].
  cbn [mbind result_bind].
  assert (Hds5 : only_nonzero pmf_map average disagg_outputs poe_id imts self_rlzs poes_disagg nZ results ds ds5).
  { revert Hz. apply (foldlM_invariant (only_nonzero pmf_map average disagg_outputs poe_id imts self_rlzs poes_disagg nZ results ds)); [| done].
    intros ds6 z ds7 Hzin Hds6.
    apply elem_of_seq in Hzin as [_ Hzlt].
    destruct (getitem mat7 z) as [mat6 |] eqn:Hmat6; [| done].
    apply getitem_Ok in Hmat6.
    cbn [mbind result_bind].
    destruct (nd_any mat6) eqn:Hany; [| by intros [= <-]].
    destruct (getitem rlzs z) as [i |] eqn:Hi; [| done].
    apply getitem_Ok in Hi.
    cbn [mbind result_bind].
    apply only_nonzero_save; [done | | done].
    exists m, mat8, k, mat7, rlzs. repeat (split; [eassumption |]).
    left. exists z, i. simpl in Hzlt. done. }
  destruct (Nat.ltb_spec 1 (length rlzs)) as [Hmany |]; [| by intros [= <-]].
  destruct (nd_any (average imt rlzs mat7)) eqn:Hany; [| by intros [= <-]].
  apply only_nonzero_save; [done | | done].
  exists m, mat8, k, mat7, rlzs. repeat (split; [eassumption |]).
  right. done.
Qed.

End save_disagg_results_facts.

Section save_disagg_results_zero.
Context {A : Type} `{Number A}.
Variable pmf_map : list (string * (ndarray A -> ndarray A)).
Variable average : string -> list Z -> list (ndarray A) -> ndarray A.
Variables (disagg_outputs : list string) (poe_id : list (option A * nat)).
Variables (imts : list string) (self_rlzs : list (list Z)).
Variables (poes_disagg : list (option A)) (nZ : nat).

(** Results that are zero throughout leave the datastore as it is. *)
Lemma save_disagg_results_all_zero
    (results : list ((nat * nat) * list (list (ndarray A)))) (ds : pmf_store (A := A)) :
  Forall (all_zero average imts self_rlzs poes_disagg nZ) results ->
  save_disagg_results pmf_map average disagg_outputs poe_id imts self_rlzs
                      poes_disagg nZ results ds = Ok ds.
Proof.
  intros Hzero. unfold save_disagg_results.
  destruct (foldlM_returns (fun ds1 => ds1 = ds)
              (fun ds1 '((m, s), mat8) =>
                 imt ← getitem imts m;
                 rlzs ← getitem self_rlzs s;
                 let many_rlzs := Nat.ltb 1 (length rlzs) in
                 foldlM (fun ds '(p, poe) =>
                   mat7 ← getitem mat8 p;
                   ds ← foldlM (fun ds z =>
                           mat6 ← getitem mat7 z;
                           if nd_any mat6 then
                             r ← getitem rlzs z;
                             fst <$> _save pmf_map disagg_outputs poe_id s (Rlz r) poe imt mat6 ds
                           else Ok ds) ds (seq 0 nZ);
                   if many_rlzs then
                     let mean_matrix := average imt rlzs mat7 in
                     if nd_any mean_matrix then
                       fst <$> _save pmf_map disagg_outputs poe_id s Mean poe imt mean_matrix ds
                     else Ok ds
                   else Ok ds) ds1 (imap pair poes_disagg))
              results ds) as (ds' & Hrun & ->); [| done | exact Hrun].
  intros ds1 [[m s] mat8] Hin ->.
  rewrite Forall_forall in Hzero.
  destruct (Hzero _ Hin) as (imt & rlzs & Himt & Hrlzs & Hmats).
  cbv beta iota.
  rewrite (getitem_Some _ _ _ Himt), (getitem_Some _ _ _ Hrlzs).
  cbn [mbind result_bind].
  apply (foldlM_returns (fun ds1 => ds1 = ds)); [| done].
  intros ds2 [p poe] Hp ->.
  apply list_elem_of_lookup in Hp as [k Hk].
  apply list_lookup_imap_Some in Hk as (poe' & Hpoe & Heq).
  inversion Heq; subst. clear Heq.
  destruct (Hmats k) as (mat7 & Hmat7 & Hcells & Hmean);
    [by eapply lookup_lt_Some |].
  cbv beta iota. rewrite (getitem_Some _ _ _ Hmat7). cbn [mbind result_bind].
  destruct (foldlM_returns (fun ds1 => ds1 = ds)
              (fun ds z =>
                 mat6 ← getitem mat7 z;
                 if nd_any mat6 then
                   r ← getitem rlzs z;
                   fst <$> _save pmf_map disagg_outputs poe_id s (Rlz r) poe' imt mat6 ds
                 else Ok ds)
              (seq 0 nZ) ds) as (ds3 & -> & ->); [| done |].
  - intros ds3 z Hz ->. apply elem_of_seq in Hz as [_ Hz]. simpl in Hz.
    destruct (Hcells z Hz) as (mat6 & Hmat6 & Hany).
    rewrite (getitem_Some _ _ _ Hmat6). cbn [mbind result_bind]. rewrite Hany.
    by exists ds.
  - cbn [mbind result_bind]. rewrite Hmean.
    exists ds. by destruct (Nat.ltb 1 (length rlzs)).
Qed.

End save_disagg_results_zero.

Section save_disagg_results_complete.
Context {A : Type} `{Number A}.
Variable pmf_map : list (string * (ndarray A -> ndarray A)).
Variable average : string -> list Z -> list (ndarray A) -> ndarray A.
Variables (disagg_outputs : list string) (poe_id : list (option A * nat)).
Variables (imts : list string) (self_rlzs : list (list Z)).
Variables (poes_disagg : list (option A)) (nZ : nat).

Local Abbreviation persisted' := (persisted pmf_map disagg_outputs poe_id).

(** A loop that only appends to the datastore: what an item has added is
    still there at the end. *)
Lemma foldlM_appends {T} (Q : T -> pmf_store (A := A) -> Prop)
    (body : pmf_store (A := A) -> T -> result (pmf_store (A := A)))
    (l : list T) (ds ds' : pmf_store (A := A)) :
  (forall ds x ds', x ∈ l -> body ds x = Ok ds' -> (exists new, ds' = ds ++ new) /\ Q x ds') ->
  (forall x ds new, Q x ds -> Q x (ds ++ new)) ->
  foldlM body ds l = Ok ds' ->
  (exists new, ds' = ds ++ new) /\ forall x, x ∈ l -> Q x ds'.
Proof.
  intros Hbody Hmono. revert ds.
  induction l as [| x l IH]; intros ds; simpl.
  - intros [= <-]. split; [exists []; by rewrite app_nil_r |].
    intros x Hx. by apply elem_of_nil in Hx.
  - destruct (body ds x) as [ds1 |] eqn:Hx; [| done]. simpl. intros Hrun.
    destruct (Hbody ds x ds1) as [[new1 ->] HQ]; [left | done |].
    destruct (IH (fun ds y ds' Hy => Hbody ds y ds' (list_elem_of_further _ _ _ Hy))
                 _ Hrun) as [[new2 ->] Hall].
    split; [exists (new1 ++ new2); by rewrite app_assoc |].
    intros y Hy. apply elem_of_cons in Hy as [-> | Hy]; [by apply Hmono | by apply Hall].
Qed.

Lemma persisted_app s r poe imt matrix6 (ds new : pmf_store (A := A)) :
  persisted' s r poe imt matrix6 ds -> persisted' s r poe imt matrix6 (ds ++ new).
Proof.
  intros (p & slices & agg & Hp & Hs & Hagg & Hall).
  exists p, slices, agg. repeat (split; [done |]).
  intros key fn Hk Hreq. apply elem_of_app. left. by apply Hall.
Qed.

(** What a call of [_save] that returns has written. *)
Lemma save_persisted s r poe imt matrix6 (ds ds' : pmf_store (A := A)) :
  fst <$> _save pmf_map disagg_outputs poe_id s r poe imt matrix6 ds = Ok ds' ->
  (exists new, ds' = ds ++ new) /\ persisted' s r poe imt matrix6 ds'.
Proof.
  intros Hsave.
  destruct (poe_id_getitem poe_id poe) as [p |] eqn:Hp;
    [| by unfold _save in Hsave; rewrite Hp in Hsave].
  destruct (unpack matrix6) as [slices |] eqn:Hs;
    [| by unfold _save in Hsave; rewrite Hp, Hs in Hsave].
  destruct (agg_probs slices) as [agg |] eqn:Hagg;
    [| by unfold _save in Hsave; rewrite Hp, Hs in Hsave; simpl in Hsave;
          rewrite Hagg in Hsave].
  rewrite (save_run _ _ _ _ _ _ _ _ _ _ _ _ Hp Hs Hagg) in Hsave.
  simpl in Hsave. inversion Hsave; subst ds'. clear Hsave.
  split; [by eexists |].
  exists p, slices, agg. repeat (split; [done |]).
  intros key fn Hk Hreq. apply elem_of_app. right.
  apply list_elem_of_In, in_map_iff. exists (key, fn). split; [done |].
  apply filter_In. split; [by apply list_elem_of_In | done].
Qed.

(** When [save_disagg_results] returns, every 6-D matrix of the results
    that has a cell that is not zero, and every such mean, has its requested
    PMFs in the datastore. *)
Lemma save_disagg_results_written
    (results : list ((nat * nat) * list (list (ndarray A))))
    (ds ds' : pmf_store (A := A)) :
  save_disagg_results pmf_map average disagg_outputs poe_id imts self_rlzs
                      poes_disagg nZ results ds = Ok ds' ->
  forall res, res ∈ results ->
    forall imt rlzs p poe mat7,
      imts !! res.1.1 = Some imt -> self_rlzs !! res.1.2 = Some rlzs ->
      poes_disagg !! p = Some poe -> res.2 !! p = Some mat7 ->
      (forall z i mat6, z < nZ -> mat7 !! z = Some mat6 -> rlzs !! z = Some i ->
         nd_any mat6 = true -> persisted' res.1.2 (Rlz i) poe imt mat6 ds') /\
      (1 < length rlzs -> nd_any (average imt rlzs mat7) = true ->
         persisted' res.1.2 Mean poe imt (average imt rlzs mat7) ds').
Proof.
  intros Hrun. unfold save_disagg_results in Hrun.
  apply (foldlM_appends
           (fun res ds' =>
              forall imt rlzs p poe mat7,
                imts !! res.1.1 = Some imt -> self_rlzs !! res.1.2 = Some rlzs ->
                poes_disagg !! p = Some poe -> res.2 !! p = Some mat7 ->
                (forall z i mat6, z < nZ -> mat7 !! z = Some mat6 -> rlzs !! z = Some i ->
                   nd_any mat6 = true -> persisted' res.1.2 (Rlz i) poe imt mat6 ds') /\
                (1 < length rlzs -> nd_any (average imt rlzs mat7) = true ->
                   persisted' res.1.2 Mean poe imt (average imt rlzs mat7) ds')))
    in Hrun as [_ Hall]; [exact Hall | |].
  - intros ds1 [[m s] mat8] ds2 _ Hbody. cbn [fst snd].
    destruct (getitem imts m) as [imt |] eqn:Himt; [| done].
    destruct (getitem self_rlzs s) as [rlzs |] eqn:Hrlzs; [| done].
    apply getitem_Ok in Himt, Hrlzs. cbn [mbind result_bind] in Hbody.
    apply (foldlM_appends
             (fun pp ds' =>
                forall mat7, mat8 !! pp.1 = Some mat7 ->
                  (forall z i mat6, z < nZ -> mat7 !! z = Some mat6 -> rlzs !! z = Some i ->
                     nd_any mat6 = true -> persisted' s (Rlz i) pp.2 imt mat6 ds') /\
                  (1 < length rlzs -> nd_any (average imt rlzs mat7) = true ->
                     persisted' s Mean pp.2 imt (average imt rlzs mat7) ds')))
      in Hbody as [Hnew Hall].
    + split; [done |].
      intros imt' rlzs' p poe mat7 Himt' Hrlzs' Hpoe Hmat7.
      rewrite Himt in Himt'. rewrite Hrlzs in Hrlzs'.
      inversion Himt'; inversion Hrlzs'; subst imt' rlzs'.
      apply (Hall (p, poe)); [| done].
      apply list_elem_of_lookup. exists p. apply list_lookup_imap_Some. by exists poe.
    + intros ds3 [p poe] ds4 _ Hstep. cbn [fst snd].
      destruct (getitem mat8 p) as [mat7 |] eqn:Hmat7; [| done].
      apply getitem_Ok in Hmat7. cbn [mbind result_bind] in Hstep.
      destruct (foldlM _ ds3 (seq 0 nZ)) as [ds5 |] eqn:Hz; [| done].
      cbn [mbind result_bind] in Hstep.
      apply (foldlM_appends
               (fun z ds' =>
                  forall i mat6, mat7 !! z = Some mat6 -> rlzs !! z = Some i ->
                    nd_any mat6 = true -> persisted' s (Rlz i) poe imt mat6 ds'))
        in Hz as [[new3 ->] Hzs].
      * assert (Hlast : (exists new, ds4 = (ds3 ++ new3) ++ new) /\
                  (1 < length rlzs -> nd_any (average imt rlzs mat7) = true ->
                     persisted' s Mean poe imt (average imt rlzs mat7) ds4)).
        { destruct (Nat.ltb_spec 1 (length rlzs)) as [Hmany | Hfew].
          - destruct (nd_any (average imt rlzs mat7)) eqn:Hany.
            + apply save_persisted in Hstep as [Hnew Hp]. by split.
            + inversion Hstep; subst ds4. split; [exists []; by rewrite app_nil_r | done].
          - inversion Hstep; subst ds4. split; [exists []; by rewrite app_nil_r | lia]. }
        destruct Hlast as [[new4 ->] Hmean].
        split; [exists (new3 ++ new4); by rewrite app_assoc |].
        intros mat7' Hmat7'. rewrite Hmat7 in Hmat7'. inversion Hmat7'; subst mat7'.
        split; [| done].
        intros z i mat6 Hzlt Hmat6 Hi Hany. apply persisted_app.
        apply (Hzs z); [| done | done | done]. apply elem_of_seq. simpl. lia.
      * intros ds6 z ds7 _ Hzstep.
        destruct (getitem mat7 z) as [mat6 |] eqn:Hmat6; [| done].
        apply getitem_Ok in Hmat6. cbn [mbind result_bind] in Hzstep.
        destruct (nd_any mat6) eqn:Hany.
        -- destruct (getitem rlzs z) as [i |] eqn:Hi; [| done].
           apply getitem_Ok in Hi. cbn [mbind result_bind] in Hzstep.
           apply save_persisted in Hzstep as [Hnew Hp]. split; [done |].
           intros i' mat6' Hmat6' Hi' _. rewrite Hmat6 in Hmat6'. rewrite Hi in Hi'.
           by inversion Hmat6'; inversion Hi'; subst.
        -- inversion Hzstep; subst ds7. split; [exists []; by rewrite app_nil_r |].
           intros i' mat6' Hmat6' _ Hany'. rewrite Hmat6 in Hmat6'.
           inversion Hmat6'; subst. congruence.
      * intros z ds0 new Hq i mat6 Hmat6 Hi Hany. apply persisted_app. by apply Hq.
    + intros pp ds0 new Hq mat7 Hmat7. destruct (Hq mat7 Hmat7) as [Hz Hmean].
      split.
      * intros z i mat6 Hzlt Hmat6 Hi Hany. apply persisted_app. by apply (Hz z).
      * intros Hmany Hany. apply persisted_app. by apply Hmean.
  - intros res ds0 new Hq imt' rlzs' p' poe' mat7' Himt' Hrlzs' Hpoe' Hmat7'.
    destruct (Hq imt' rlzs' p' poe' mat7' Himt' Hrlzs' Hpoe' Hmat7') as [Hz Hmean].
    split.
    + intros z i mat6 Hzlt Hmat6 Hi Hany. apply persisted_app. by apply (Hz z).
    + intros Hmany Hany. apply persisted_app. by apply Hmean.
Qed.

(** When [save_disagg_results] returns, the requested PMFs of every
    combination whose matrix has a cell that is not zero are in the
    datastore. *)
Lemma save_disagg_results_complete
    (results : list ((nat * nat) * list (list (ndarray A))))
    (ds ds' : pmf_store (A := A)) :
  save_disagg_results pmf_map average disagg_outputs poe_id imts self_rlzs
                      poes_disagg nZ results ds = Ok ds' ->
  forall s r poe imt matrix6,
    combination average imts self_rlzs poes_disagg nZ results s r poe imt matrix6 ->
    nd_any matrix6 = true ->
    persisted' s r poe imt matrix6 ds'.
Proof.
  intros Hrun s r poe imt matrix6
         (m & mat8 & p & mat7 & rlzs & Hres & Himt & Hrlzs & Hpoe & Hmat7 & Hcase) Hany.
  destruct (save_disagg_results_written results ds ds' Hrun _ Hres
              imt rlzs p poe mat7 Himt Hrlzs Hpoe Hmat7) as [Hz Hmean].
  destruct Hcase as [(z & i & Hzlt & Hmat6 & Hi & ->) | (Hmany & -> & ->)].
  - by apply (Hz z i).
  - by apply Hmean.
Qed.

End save_disagg_results_complete.




(** * Further properties of the code *)

(** ** [agg_probs] as a streaming reduction *)

Lemma rsub_rsub_R (a : ndarray R) : rsub 1%R (rsub 1%R a) = a.
Proof.
  unfold rsub. rewrite nd_map_map. apply nd_map_id. intros x. simpl. lra.
Qed.

Lemma fold_left_survival (ps : list R) (a : R) :
  fold_left (fun acc p => acc * (1 - p))%R ps a = (a * survival ps)%R.
Proof.
  revert a. induction ps as [| p ps IH]; intros a; cbn [fold_left].
  - unfold survival. simpl. lra.
  - rewrite IH. unfold survival. simpl. lra.
Qed.

Lemma agg_probs_cons2 (p0 p1 : ndarray R) (rest : list (ndarray R)) :
  agg_probs (p0 :: p1 :: rest) = (q ← agg_probs [p0; p1]; agg_probs (q :: rest)).
Proof.
  unfold agg_probs. cbn [foldlM].
  destruct (imul (rsub one p0) (rsub one p1)) as [acc1 | e]; [| done].
  cbn [mbind result_bind].
  change (@one R R_Number) with 1%R. by rewrite rsub_rsub_R.
Qed.

(** X1.  Over the reals, aggregating [n] arrays at once is aggregating the
    first two and then the result with the others, whatever the arrays: if
    the shapes do not fit, both ways raise the same error.  This is what
    lets [agg_result] fold the partial matrices in one at a time. *)
Theorem agg_probs_streaming (p0 p1 : ndarray R) (rest : list (ndarray R)) :
  agg_probs (p0 :: p1 :: rest) = (q ← agg_probs [p0; p1]; agg_probs (q :: rest)).
Proof. apply agg_probs_cons2. Qed.

(** X2.  Over the reals, [agg_probs] of scalars is the formula of its docstring,
    [1 - (1 - P1) ... (1 - Pn)]. *)
Theorem agg_probs_formula (p0 : R) (ps : list R) :
  agg_probs (Sc <$> p0 :: ps) = Ok (Sc (1 - survival (p0 :: ps))%R).
Proof.
  rewrite agg_probs_scalar_list. simpl.
  rewrite fold_left_survival. unfold survival. simpl. done.
Qed.

(** ** The groups of [get_indices_by_gidx_mag] *)

Section get_indices_facts.
Context {A : Type} `{Number A}.

Lemma increasing_snoc (idxs : list Z) (n : Z) :
  StronglySorted Z.lt idxs -> (forall x, x ∈ idxs -> (x < n)%Z) ->
  StronglySorted Z.lt (idxs ++ [n]).
Proof.
  intros Hs Hlt. apply StronglySorted_app_2; [| done | repeat constructor].
  intros x y Hx Hy. apply list_elem_of_singleton in Hy as ->. by apply Hlt.
Qed.

(** The rows seen so far whose magnitude is a number are all filed, each
    under its own key and in increasing order, and no other row is. *)
Lemma collect_indices_files (mag_edges : list A) (rows pre : list (Z * A))
    (acc : gmap (Z * Z) (list Z)) :
  (forall i row, pre !! i = Some row -> eqb row.2 row.2 = true ->
     exists idxs, acc !! (row.1, mag_bin mag_edges row.2) = Some idxs /\
                  Z.of_nat i ∈ idxs) ->
  (forall k idxs, acc !! k = Some idxs ->
     idxs ≠ [] /\ StronglySorted Z.lt idxs /\
     forall x, x ∈ idxs ->
       exists i row, x = Z.of_nat i /\ pre !! i = Some row /\
                     eqb row.2 row.2 = true /\
                     k = (row.1, mag_bin mag_edges row.2)) ->
  let acc' := collect_indices mag_edges rows (Z.of_nat (length pre)) acc in
  (forall i row, (pre ++ rows) !! i = Some row -> eqb row.2 row.2 = true ->
     exists idxs, acc' !! (row.1, mag_bin mag_edges row.2) = Some idxs /\
                  Z.of_nat i ∈ idxs) /\
  (forall k idxs, acc' !! k = Some idxs ->
     idxs ≠ [] /\ StronglySorted Z.lt idxs /\
     forall x, x ∈ idxs ->
       exists i row, x = Z.of_nat i /\ (pre ++ rows) !! i = Some row /\
                     eqb row.2 row.2 = true /\
                     k = (row.1, mag_bin mag_edges row.2)).
Proof.
  revert pre acc. induction rows as [| [gidx mag] rows IH]; intros pre acc Hin Hout.
  - simpl. rewrite app_nil_r. by split.
  - cbn [collect_indices].
    replace (Z.of_nat (length pre) + 1)%Z
      with (Z.of_nat (length (pre ++ [(gidx, mag)])))
      by (rewrite length_app; simpl; lia).
    replace (pre ++ (gidx, mag) :: rows) with ((pre ++ [(gidx, mag)]) ++ rows)
      by (by rewrite <- app_assoc).
    destruct (eqb mag mag) eqn:Hnum; apply IH; unfold extend_indices.
    + intros i row Hi Hrow. apply lookup_app_Some in Hi as [Hi | [Hge Hi]].
      * destruct (Hin i row Hi Hrow) as (idxs & Hk & Hel).
        destruct (decide ((gidx, mag_bin mag_edges mag)
                          = (row.1, mag_bin mag_edges row.2))) as [Heq | Hne].
        -- rewrite <- Heq, lookup_insert_eq. eexists; split; [done |].
           rewrite Heq, Hk. simpl. apply elem_of_app. by left.
        -- rewrite lookup_insert_ne by done. by exists idxs.
      * destruct (i - length pre)%nat as [| j] eqn:Hj; [| done].
        simpl in Hi. inversion Hi; subst row. simpl.
        rewrite lookup_insert_eq. eexists; split; [done |].
        apply elem_of_app. right. apply list_elem_of_singleton. lia.
    + intros k idxs Hk.
      destruct (decide ((gidx, mag_bin mag_edges mag) = k)) as [<- | Hne].
      * rewrite lookup_insert_eq in Hk. inversion Hk; subst idxs. clear Hk.
        assert (Hold : default [] (acc !! (gidx, mag_bin mag_edges mag)) = []
                  \/ exists idxs, acc !! (gidx, mag_bin mag_edges mag) = Some idxs).
        { destruct (acc !! (gidx, mag_bin mag_edges mag)); [right; by eexists | by left]. }
        split; [by destruct (default [] _) |].
        split.
        -- destruct Hold as [-> | [idxs Hk]]; [repeat constructor |].
           rewrite Hk. simpl. destruct (Hout _ _ Hk) as (_ & Hs & Hel).
           apply increasing_snoc; [done |].
           intros x Hx. destruct (Hel x Hx) as (i & row & -> & Hi & _).
           apply lookup_lt_Some in Hi. lia.
        -- intros x Hx. apply elem_of_app in Hx as [Hx | Hx].
           ++ destruct Hold as [Hnil | [idxs Hk]]; [rewrite Hnil in Hx; by inversion Hx |].
              rewrite Hk in Hx. simpl in Hx.
              destruct (Hout _ _ Hk) as (_ & _ & Hel).
              destruct (Hel x Hx) as (i & row & -> & Hi & Hrow & Hkey).
              exists i, row. split; [done |]. split; [| done].
              apply lookup_app_Some. by left.
           ++ apply list_elem_of_singleton in Hx as ->.
              exists (length pre), (gidx, mag). split; [done |]. split; [| done].
              by rewrite lookup_app_r, Nat.sub_diag.
      * rewrite lookup_insert_ne in Hk by done.
        destruct (Hout _ _ Hk) as (Hnil & Hs & Hel).
        split; [done |]. split; [done |].
        intros x Hx. destruct (Hel x Hx) as (i & row & -> & Hi & Hrow & Hkey).
        exists i, row. split; [done |]. split; [| done].
        apply lookup_app_Some. by left.
    + (* a magnitude that is a NaN: the row is left out *)
      intros i row Hi Hrow. apply lookup_app_Some in Hi as [Hi | [Hge Hi]].
      * by apply Hin.
      * destruct (i - length pre)%nat as [| j] eqn:Hj; [| done].
        simpl in Hi. inversion Hi; subst row. simpl in Hrow. congruence.
    + intros k idxs Hk. destruct (Hout _ _ Hk) as (Hnil & Hs & Hel).
      split; [done |]. split; [done |].
      intros x Hx. destruct (Hel x Hx) as (i & row & -> & Hi & Hrow & Hkey).
      exists i, row. split; [done |]. split; [| done].
      apply lookup_app_Some. by left.
Qed.

Lemma increasing_sorted (idxs : list Z) :
  StronglySorted Z.lt idxs -> merge_sort Z.le idxs = idxs.
Proof.
  intros Hs. apply (Sorted_unique Z.le).
  - apply Sorted_merge_sort. apply _.
  - apply StronglySorted_Sorted.
    induction Hs as [| x l _ IH Hx]; constructor; [done |].
    eapply Forall_impl; [exact Hx |]. simpl. lia.
  - apply merge_sort_Permutation.
Qed.

End get_indices_facts.

(** X3.  The groups of [get_indices_by_gidx_mag] partition the ruptures
    whose magnitude is a number: every such row of the rupture store is in
    the group of its [grp_id] and of the bin of its magnitude, a group
    holds rows of that key only, none of them with a NaN for magnitude
    ([groupby] drops those), no group is empty, and the indices of a group
    increase strictly.  The bin is [mag_bin], which is numpy's on edges in
    increasing order. *)
Theorem get_indices_by_gidx_mag_partition {A : Type} `{Number A}
    (rup_grp_id : list Z) (rup_mag mag_edges : list A) :
  (forall i gidx mag, rup_grp_id !! i = Some gidx -> rup_mag !! i = Some mag ->
     eqb mag mag = true ->
     exists idxs,
       get_indices_by_gidx_mag rup_grp_id rup_mag mag_edges
         !! (gidx, mag_bin mag_edges mag) = Some idxs /\
       Z.of_nat i ∈ idxs) /\
  (forall k idxs,
     get_indices_by_gidx_mag rup_grp_id rup_mag mag_edges !! k = Some idxs ->
     idxs ≠ [] /\ StronglySorted Z.lt idxs /\
     forall x, x ∈ idxs ->
       exists i gidx mag, x = Z.of_nat i /\ rup_grp_id !! i = Some gidx /\
                          rup_mag !! i = Some mag /\ eqb mag mag = true /\
                          k = (gidx, mag_bin mag_edges mag)).
Proof.
  destruct (collect_indices_files mag_edges (zip rup_grp_id rup_mag) [] ∅)
    as [Hin Hout].
  { intros i row Hi. by rewrite lookup_nil in Hi. }
  { intros k idxs Hk. by rewrite lookup_empty in Hk. }
  cbn [length app] in Hin, Hout. change (Z.of_nat 0) with 0%Z in Hin, Hout.
  unfold get_indices_by_gidx_mag.
  assert (Hsame : forall k idxs,
            (merge_sort Z.le <$> collect_indices mag_edges (zip rup_grp_id rup_mag) 0 ∅)
              !! k = Some idxs ->
            collect_indices mag_edges (zip rup_grp_id rup_mag) 0 ∅ !! k = Some idxs).
  { intros k idxs Hk. rewrite lookup_fmap in Hk.
    destruct (collect_indices _ _ _ _ !! k) as [l |] eqn:Hl; [| done].
    simpl in Hk. destruct (Hout _ _ Hl) as (_ & Hs & _).
    rewrite increasing_sorted in Hk by done. done. }
  split.
  - intros i gidx mag Hg Hm Hnum.
    destruct (Hin i (gidx, mag)) as (idxs & Hk & Hel); [| done |].
    { apply lookup_zip_with_Some. by exists gidx, mag. }
    exists idxs. split; [| done]. rewrite lookup_fmap. simpl in Hk. rewrite Hk. simpl.
    destruct (Hout _ _ Hk) as (_ & Hs & _). by rewrite increasing_sorted.
  - intros k idxs Hk. apply Hsame in Hk.
    destruct (Hout _ _ Hk) as (Hnil & Hs & Hel).
    split; [done |]. split; [done |].
    intros x Hx. destruct (Hel x Hx) as (i & [gidx mag] & -> & Hi & Hrow & ->).
    apply lookup_zip_with_Some in Hi as (g & m & Heq & Hg & Hm).
    inversion Heq; subst. by exists i, g, m.
Qed.

(** Rows 0 and 2 have magnitudes 5.5 and 6.5, row 1 has a NaN: with the
    edges 5, 6, 7 the groups are [(0, 0): [0]] and [(0, 1): [2]]. *)
Lemma get_indices_by_gidx_mag_partition_witness :
  exists idxs,
    get_indices_by_gidx_mag [0; 0; 0]%Z [5.5; nan; 6.5]%float [5; 6; 7]%float
      !! (0%Z, mag_bin [5; 6; 7]%float 6.5%float) = Some idxs /\
    Z.of_nat 2 ∈ idxs.
Proof.
  apply (proj1 (get_indices_by_gidx_mag_partition
                  [0; 0; 0]%Z [5.5; nan; 6.5]%float [5; 6; 7]%float) 2%nat 0%Z 6.5%float);
    reflexivity.
Defined.

(** ** The 8-D matrix of [_matrix] *)

Section matrix_facts.
Context {A : Type} `{Number A}.

Lemma nd_shape_zeros (a : ndarray A) :
  nd_shape (nd_zeros (nd_shape a) : ndarray A) = nd_shape a.
Proof.
  induction a as [x | rows IH] using ndarray_nested_ind; [done |].
  destruct IH as [| r rows Hr _]; [done |].
  cbn [nd_shape nd_zeros length replicate]. rewrite length_replicate. by f_equal.
Qed.

Lemma axis_index_spec (i : Z) (n : nat) :
  (on_axis i n /\ axis_index i n = Ok (position i n) /\ (position i n < n)%nat) \/
  (~ on_axis i n /\ axis_index i n = Raise IndexError).
Proof.
  unfold axis_index, on_axis, position.
  destruct (Z.leb_spec 0 i), (Z.ltb_spec i (Z.of_nat n)),
    (Z.leb_spec (- Z.of_nat n) i), (Z.ltb_spec i 0); simpl;
    try (exfalso; lia); try (right; split; [lia | reflexivity]).
  - left. rewrite Z.mod_small by lia. split; [lia |]. split; [done | lia].
  - left. replace (i mod Z.of_nat n)%Z with (Z.of_nat n + i)%Z.
    + split; [lia |]. split; [done | lia].
    + rewrite <- (Z.mod_small (Z.of_nat n + i) (Z.of_nat n)) by lia.
      rewrite Z.add_comm. rewrite <- (Z.mul_1_l (Z.of_nat n)) at 1.
      apply Z_mod_plus_full.
Qed.

Lemma cell2_insert (rows cols : list (ndarray A)) (t g : nat) (m : ndarray A)
    (t' g' : nat) :
  rows !! t = Some (Arr cols) -> (g < length cols)%nat ->
  cell2 (Arr (<[t := Arr (<[g := m]> cols)]> rows)) t' g'
  = if decide ((t', g') = (t, g)) then Some m else cell2 (Arr rows) t' g'.
Proof.
  intros Ht Hg. unfold cell2.
  assert (Hlt : (t < length rows)%nat) by (by eapply lookup_lt_Some).
  destruct (decide (t' = t)) as [-> | Hne].
  - rewrite list_lookup_insert_eq by done. rewrite Ht.
    destruct (decide (g' = g)) as [-> | Hneg].
    + rewrite list_lookup_insert_eq by done. by rewrite decide_True.
    + rewrite list_lookup_insert_ne by done. rewrite decide_False by congruence. done.
  - rewrite list_lookup_insert_ne by done. rewrite decide_False by congruence. done.
Qed.

(** One assignment [mat[trti, magi] = m] on a matrix of cells. *)
Lemma setitem2_spec (T Ma : nat) (sh : list nat) (mat : ndarray A)
    (t : nat) (g : Z) (m : ndarray A) :
  grid T Ma sh mat ->
  ((t < T)%nat /\ on_axis g Ma /\ nd_shape m = sh /\
   exists mat', setitem2 mat (Z.of_nat t) g m = Ok mat' /\ grid T Ma sh mat' /\
     forall t' g', cell2 mat' t' g'
                   = if decide ((t', g') = (t, position g Ma)) then Some m
                     else cell2 mat t' g') \/
  ((t < T)%nat /\ on_axis g Ma /\ nd_shape m ≠ sh /\
   (setitem2 mat (Z.of_nat t) g m = Raise ValueError_shape \/
    exists mat', setitem2 mat (Z.of_nat t) g m = Ok mat' /\ grid T Ma sh mat')) \/
  (~ ((t < T)%nat /\ on_axis g Ma) /\
   setitem2 mat (Z.of_nat t) g m = Raise IndexError).
Proof.
  intros (rows & -> & Hlen & Hrows). unfold setitem2.
  destruct (axis_index_spec (Z.of_nat t) (length rows)) as [(Hon & -> & Hpos) | (Hoff & ->)];
    [| right; right; split; [unfold on_axis in Hoff; lia | done]].
  assert (Ht : position (Z.of_nat t) (length rows) = t).
  { unfold position. unfold on_axis in Hon. rewrite Z.mod_small by lia. lia. }
  rewrite Ht in *. cbn [mbind result_bind].
  destruct (rows !! t) as [row |] eqn:Hrow;
    [| apply lookup_ge_None in Hrow; lia].
  destruct (Hrows t row Hrow) as (cols & -> & Hcols & Hsh).
  destruct (axis_index_spec g (length cols)) as [(Hong & -> & Hposg) | (Hoff & ->)];
    [| right; right; split; [rewrite <- Hcols; tauto | done]].
  cbn [mbind result_bind]. rewrite Hcols in *.
  destruct (cols !! position g Ma) as [old |] eqn:Hold;
    [| apply lookup_ge_None in Hold; lia].
  assert (Hgrid : forall c, nd_shape c = sh ->
            grid T Ma sh (Arr (<[t := Arr (<[position g Ma := c]> cols)]> rows))).
  { intros c Hc. eexists. split; [reflexivity |]. split; [by rewrite length_insert |].
    intros t' row' Hrow'.
    destruct (decide (t' = t)) as [-> | Hne].
    - rewrite list_lookup_insert_eq in Hrow' by lia. inversion Hrow'; subst row'.
      eexists. split; [reflexivity |]. split; [by rewrite length_insert |].
      intros g' c' Hc'. destruct (decide (g' = position g Ma)) as [-> | Hneg].
      + rewrite list_lookup_insert_eq in Hc' by lia. by inversion Hc'; subst.
      + rewrite list_lookup_insert_ne in Hc' by done. by eapply Hsh.
    - rewrite list_lookup_insert_ne in Hrow' by done. by apply Hrows in Hrow'. }
  pose proof (Hsh _ _ Hold) as Hshold.
  destruct (decide (nd_shape m = nd_shape old)) as [Hm | Hm]; [left | right; left].
  - split; [lia |]. split; [done |]. split; [congruence |].
    eexists. split; [reflexivity |]. split; [apply Hgrid; congruence |].
    intros t' g'. apply cell2_insert; [done | lia].
  - split; [lia |]. split; [done |]. split; [congruence |].
    destruct (nd_broadcast (fun _ v => v) old m) as [m' |] eqn:Hm'; [right | by left].
    eexists. split; [reflexivity |]. apply Hgrid.
    apply nd_broadcast_shape in Hm'. congruence.
Qed.

Lemma grid_zeros (T Ma : nat) (sh : list nat) :
  grid T Ma (nd_shape (nd_zeros sh : ndarray A)) (nd_zeros (T :: Ma :: sh) : ndarray A) /\
  forall t g, (t < T)%nat -> (g < Ma)%nat ->
    cell2 (nd_zeros (T :: Ma :: sh) : ndarray A) t g = Some (nd_zeros sh).
Proof.
  cbn [nd_zeros]. split.
  - eexists. split; [reflexivity |]. split; [apply length_replicate |].
    intros t row Hrow. apply lookup_replicate in Hrow as [-> _].
    eexists. split; [reflexivity |]. split; [apply length_replicate |].
    intros g c Hc. by apply lookup_replicate in Hc as [-> _].
  - intros t g Ht Hg. unfold cell2.
    rewrite lookup_replicate_2 by done. by rewrite lookup_replicate_2.
Qed.

(** The loop of [_matrix]: it ends without error exactly when every key is
    on the axes and every matrix has the shape of the cells; the last
    assignment to a cell is what the cell holds. *)
Lemma matrix_loop (T Ma : nat) (sh : list nat)
    (items : list ((nat * Z) * ndarray A)) (mat0 : ndarray A) :
  grid T Ma sh mat0 ->
  Forall (fun it => (it.1.1 < T)%nat /\ on_axis it.1.2 Ma /\ nd_shape it.2 = sh) items ->
  exists mat,
    foldlM (fun mat '((trti, magi), m) => setitem2 mat (Z.of_nat trti) magi m) mat0 items
      = Ok mat /\
    grid T Ma sh mat /\
    (forall j t g m, items !! j = Some ((t, g), m) ->
       (forall k t' g' m', (j < k)%nat -> items !! k = Some ((t', g'), m') ->
          (t', position g' Ma) ≠ (t, position g Ma)) ->
       cell2 mat t (position g Ma) = Some m) /\
    (forall t g,
       (forall t' g' m', ((t', g'), m') ∈ items -> (t', position g' Ma) ≠ (t, g)) ->
       cell2 mat t g = cell2 mat0 t g).
Proof.
  revert mat0. induction items as [| [[t g] m] items IH]; intros mat0 Hgrid Hall.
  - exists mat0. split; [done |]. split; [done |]. split; [| done].
    intros j ? ? ? Hj. by rewrite lookup_nil in Hj.
  - apply Forall_cons in Hall as [(Ht & Hg & Hm) Hall']. simpl in Ht, Hg, Hm.
    cbn [foldlM].
    destruct (setitem2_spec T Ma sh mat0 t g m Hgrid)
      as [(_ & _ & _ & mat1 & -> & Hgrid1 & Hcell1) | [(_ & _ & Hne & _) | (Hoff & _)]];
      [| done | tauto].
    cbn [mbind result_bind].
    destruct (IH mat1 Hgrid1 Hall') as (mat & Hrun & Hgridm & Hlast & Hframe).
    exists mat. split; [done |]. split; [done |]. split.
    + intros [| j] t1 g1 m1 Hj Hlater.
      * simpl in Hj. inversion Hj; subst t1 g1 m1.
        rewrite Hframe.
        -- rewrite Hcell1. by rewrite decide_True.
        -- intros t' g' m' Hel. apply list_elem_of_lookup in Hel as [k Hk].
           apply (Hlater (S k) t' g' m'); [lia | done].
      * simpl in Hj. apply (Hlast j); [done |].
        intros k t' g' m' Hjk Hk. apply (Hlater (S k) t' g' m'); [lia | done].
    + intros t1 g1 Hnone. rewrite Hframe.
      * rewrite Hcell1. rewrite decide_False; [done |].
        intros Heq. apply (Hnone t g m); [left | done].
      * intros t' g' m' Hel. apply (Hnone t' g' m'). by right.
Qed.

End matrix_facts.

Lemma matrix_run {A : Type} `{Number A}
    (matrices : list ((nat * Z) * ndarray A)) (num_trts num_mag_bins : nat)
    (sh : list nat) :
  matrices ≠ [] ->
  (forall t g m, ((t, g), m) ∈ matrices ->
     (t < num_trts)%nat /\ on_axis g num_mag_bins /\ nd_shape m = sh) ->
  exists mat,
    _matrix matrices num_trts num_mag_bins = Returns (Ok mat) /\
    grid num_trts num_mag_bins sh mat /\
    (forall j t g m, matrices !! j = Some ((t, g), m) ->
       (forall k t' g' m', (j < k)%nat -> matrices !! k = Some ((t', g'), m') ->
          (t', position g' num_mag_bins) ≠ (t, position g num_mag_bins)) ->
       cell2 mat t (position g num_mag_bins) = Some m) /\
    (forall t g, (t < num_trts)%nat -> (g < num_mag_bins)%nat ->
       (forall t' g' m', ((t', g'), m') ∈ matrices ->
          (t', position g' num_mag_bins) ≠ (t, g)) ->
       cell2 mat t g = Some (nd_zeros sh)).
Proof.
  intros Hne Hall. destruct matrices as [| [[t0 g0] first] rest]; [done |].
  unfold _matrix.
  assert (Hfirst : nd_shape first = sh) by (by eapply Hall; left).
  subst sh.
  destruct (grid_zeros (A := A) num_trts num_mag_bins (nd_shape first)) as [Hgrid Hzero].
  rewrite nd_shape_zeros in Hgrid.
  destruct (matrix_loop num_trts num_mag_bins (nd_shape first)
              (((t0, g0), first) :: rest) _ Hgrid)
    as (mat & Hrun & Hgridm & Hlast & Hframe).
  { apply Forall_forall. intros [[t g] m] Hel. simpl. by apply Hall. }
  exists mat. split; [by rewrite Hrun |]. split; [done |]. split; [done |].
  intros t g Ht Hg Hnone. rewrite Hframe by done. by apply Hzero.
Qed.

Lemma matrix_loop_keys {A : Type} `{Number A} (T Ma : nat) (sh : list nat)
    (items : list ((nat * Z) * ndarray A)) (mat0 mat : ndarray A) :
  grid T Ma sh mat0 ->
  foldlM (fun mat '((trti, magi), m) => setitem2 mat (Z.of_nat trti) magi m) mat0 items
    = Ok mat ->
  Forall (fun it => (it.1.1 < T)%nat /\ on_axis it.1.2 Ma) items.
Proof.
  revert mat0. induction items as [| [[t g] m] items IH]; intros mat0 Hgrid Hrun;
    [constructor |].
  cbn [foldlM] in Hrun.
  destruct (setitem2_spec T Ma sh mat0 t g m Hgrid)
    as [(Ht & Hg & _ & mat1 & Hset & Hgrid1 & _)
       | [(Ht & Hg & _ & [Hset | (mat1 & Hset & Hgrid1)]) | (_ & Hset)]];
    rewrite Hset in Hrun; try done.
  - constructor; [done |]. by apply (IH mat1).
  - constructor; [done |]. by apply (IH mat1).
Qed.

(** X4.  [_matrix] on a dictionary whose keys are on the axes and whose
    matrices have one shape: it returns [num_trts] times [num_mag_bins]
    cells of that shape; a matrix stands in the cell of its key, where a
    negative [magi] counts from the last magnitude bin, and if two keys
    stand for one cell the later one is kept; the other cells are zero. *)
Theorem matrix_cells {A : Type} `{Number A}
    (matrices : list ((nat * Z) * ndarray A)) (num_trts num_mag_bins : nat)
    (sh : list nat) :
  matrices ≠ [] ->
  (forall t g m, ((t, g), m) ∈ matrices ->
     (t < num_trts)%nat /\ on_axis g num_mag_bins /\ nd_shape m = sh) ->
  exists mat,
    _matrix matrices num_trts num_mag_bins = Returns (Ok mat) /\
    grid num_trts num_mag_bins sh mat /\
    (forall j t g m, matrices !! j = Some ((t, g), m) ->
       (forall k t' g' m', (j < k)%nat -> matrices !! k = Some ((t', g'), m') ->
          (t', position g' num_mag_bins) ≠ (t, position g num_mag_bins)) ->
       cell2 mat t (position g num_mag_bins) = Some m) /\
    (forall t g, (t < num_trts)%nat -> (g < num_mag_bins)%nat ->
       (forall t' g' m', ((t', g'), m') ∈ matrices ->
          (t', position g' num_mag_bins) ≠ (t, g)) ->
       cell2 mat t g = Some (nd_zeros sh)).
Proof. apply matrix_run. Qed.

Lemma matrix_cells_witness :
  exists mat,
    _matrix [((0%nat, (-1)%Z), Arr [Sc 0.5%float]); ((0%nat, 1%Z), Arr [Sc 0.25%float])]
            1 2 = Returns (Ok mat) /\
    grid 1 2 [1%nat] mat /\
    (forall j t g m,
       [((0%nat, (-1)%Z), Arr [Sc 0.5%float]); ((0%nat, 1%Z), Arr [Sc 0.25%float])] !! j
         = Some ((t, g), m) ->
       (forall k t' g' m', (j < k)%nat ->
          [((0%nat, (-1)%Z), Arr [Sc 0.5%float]); ((0%nat, 1%Z), Arr [Sc 0.25%float])] !! k
            = Some ((t', g'), m') ->
          (t', position g' 2) ≠ (t, position g 2)) ->
       cell2 mat t (position g 2) = Some m) /\
    (forall t g, (t < 1)%nat -> (g < 2)%nat ->
       (forall t' g' m',
          ((t', g'), m')
            ∈ [((0%nat, (-1)%Z), Arr [Sc 0.5%float]); ((0%nat, 1%Z), Arr [Sc 0.25%float])] ->
          (t', position g' 2) ≠ (t, g)) ->
       cell2 mat t g = Some (nd_zeros [1%nat])).
Proof.
  apply (matrix_cells
           [((0%nat, (-1)%Z), Arr [Sc 0.5%float]); ((0%nat, 1%Z), Arr [Sc 0.25%float])]
           1 2 [1%nat]); [done |].
  intros t g m Hel. unfold on_axis.
  apply elem_of_cons in Hel as [Heq | Hel];
    [| apply list_elem_of_singleton in Hel as Heq]; inversion Heq; subst;
    (split; [lia | split; [lia | reflexivity]]).
Defined.

(** X5.  [_matrix] raises [StopIteration] exactly on an empty dictionary, and
    returns a matrix only if every key is on the axes: [trti] below
    [num_trts] and [magi] between [-num_mag_bins] and [num_mag_bins - 1];
    a first key off the axes ends the loop with an [IndexError]. *)
Theorem matrix_keys_on_axes {A : Type} `{Number A}
    (matrices : list ((nat * Z) * ndarray A)) (num_trts num_mag_bins : nat) :
  (_matrix matrices num_trts num_mag_bins = StopIteration <-> matrices = []) /\
  (forall mat, _matrix matrices num_trts num_mag_bins = Returns (Ok mat) ->
     forall t g m, ((t, g), m) ∈ matrices ->
       (t < num_trts)%nat /\ on_axis g num_mag_bins) /\
  (forall t g m, matrices !! 0%nat = Some ((t, g), m) ->
     ~ ((t < num_trts)%nat /\ on_axis g num_mag_bins) ->
     _matrix matrices num_trts num_mag_bins = Returns (Raise IndexError)).
Proof.
  split; [| split].
  - destruct matrices as [| [[t g] m] rest]; simpl; [done |]. split; [done | done].
  - intros mat Hrun t g m Hel.
    destruct matrices as [| [[t0 g0] first] rest]; [by inversion Hel |].
    unfold _matrix in Hrun. cbv zeta in Hrun.
    set (r := foldlM _ _ _) in Hrun.
    assert (Hrun' : r = Ok mat) by (by inversion Hrun). subst r. clear Hrun.
    destruct (grid_zeros (A := A) num_trts num_mag_bins (nd_shape first)) as [Hgrid _].
    pose proof (matrix_loop_keys _ _ _ _ _ _ Hgrid Hrun') as Hall.
    rewrite Forall_forall in Hall. apply (Hall ((t, g), m) Hel).
  - intros t g m Hfirst Hoff.
    destruct matrices as [| it rest]; [done |]. simpl in Hfirst.
    inversion Hfirst; subst it. unfold _matrix. cbn [foldlM].
    destruct (grid_zeros (A := A) num_trts num_mag_bins (nd_shape m)) as [Hgrid _].
    destruct (setitem2_spec _ _ _ _ t g m Hgrid)
      as [(Ht & Hg & _) | [(Ht & Hg & _) | (_ & ->)]]; [tauto | tauto | done].
Qed.

(** X6.  A rupture whose magnitude is the first edge gets [magi = -1]; in the
    matrix of [post_execute], which has [len(mag_edges) - 1] magnitude
    bins, its matrix lands in the last magnitude bin. *)
Theorem matrix_first_edge_in_last_bin {A : Type} `{Number A}
    (e0 : A) (rest : list A) (t num_trts : nat) (m : ndarray A) :
  ltb e0 e0 = false -> rest ≠ [] -> (t < num_trts)%nat ->
  exists mat,
    _matrix [((t, mag_bin (e0 :: rest) e0), m)] num_trts (length (e0 :: rest) - 1)
      = Returns (Ok mat) /\
    cell2 mat t (length (e0 :: rest) - 1 - 1) = Some m.
Proof.
  intros H0 Hrest Ht. rewrite mag_bin_first_edge by done.
  assert (Hlen : (0 < length rest)%nat) by (destruct rest; [done | simpl; lia]).
  cbn [length]. rewrite Nat.sub_succ, Nat.sub_0_r.
  destruct (matrix_run [((t, (-1)%Z), m)] num_trts (length rest) (nd_shape m))
    as (mat & Hrun & _ & Hlast & _); [done | |].
  { intros t' g' m' Hel. apply list_elem_of_singleton in Hel. inversion Hel; subst.
    unfold on_axis. split; [done |]. split; [lia | done]. }
  exists mat. split; [done |].
  replace (length rest - 1)%nat with (position (-1) (length rest)).
  - apply (Hlast 0%nat); [done |]. intros [| k] ? ? ? Hk Hl; [lia | done].
  - unfold position.
    replace (-1 mod Z.of_nat (length rest))%Z with (Z.of_nat (length rest) - 1)%Z; [lia |].
    apply (Z.mod_unique _ _ (-1)); lia.
Qed.

Lemma matrix_first_edge_in_last_bin_witness :
  exists mat,
    _matrix [((0%nat, mag_bin [5; 6; 7]%float 5%float), Arr [Sc 0.5%float])]
            1 (length [5; 6; 7]%float - 1)
      = Returns (Ok mat) /\
    cell2 mat 0 (length [5; 6; 7]%float - 1 - 1) = Some (Arr [Sc 0.5%float]).
Proof.
  apply (matrix_first_edge_in_last_bin 5%float [6; 7]%float 0 1 (Arr [Sc 0.5%float]));
    [reflexivity | done | lia].
Defined.

(** ** The size of the outputs: [get_outputs_size] *)

Example lower_split_examples :
  split underscore (lower "Mag_Lon_Lat") = ["mag"; "lon"; "lat"] /\
  split underscore (lower "TRT") = ["trt"] /\
  split underscore (lower "") = [""] /\
  split underscore (lower "Lon__Lat_") = ["lon"; ""; "lat"; ""].
Proof. repeat split. Qed.

Lemma dims_loop (shapedic : gmap string Z) (keys : list string) (size : Z) :
  (Forall (fun key => is_Some (shapedic !! key)) keys /\
   foldlM (fun size key => n ← str_getitem shapedic key; Ok (size * n)%Z) size keys
   = Ok (size * product_of (shape_of shapedic <$> keys))%Z) \/
  (Exists (fun key => shapedic !! key = None) keys /\
   foldlM (fun size key => n ← str_getitem shapedic key; Ok (size * n)%Z) size keys
   = Raise KeyError).
Proof.
  revert size. induction keys as [| key keys IH]; intros size.
  - left. split; [constructor |]. simpl. f_equal. unfold product_of. simpl. lia.
  - cbn [foldlM].
    destruct (shapedic !! key) as [n |] eqn:Hkey;
      [assert (Hget : str_getitem shapedic key = Ok n)
         by (unfold str_getitem; by rewrite Hkey)
      | assert (Hget : str_getitem shapedic key = Raise KeyError)
         by (unfold str_getitem; by rewrite Hkey)];
      rewrite Hget.
    + cbn [mbind result_bind].
      destruct (IH (size * n)%Z) as [[Hall ->] | [Hex ->]].
      * left. split; [constructor; [by eexists | done] |].
        f_equal. unfold product_of. rewrite fmap_cons. cbn [foldr].
        replace (shape_of shapedic key) with n by (unfold shape_of; by rewrite Hkey).
        ring.
      * right. split; [by apply Exists_cons_tl | done].
    + right. split; [by apply Exists_cons_hd | done].
Qed.

Lemma sizes_loop (shapedic : gmap string Z) (outs : list string) (tot0 : gmap string Z) :
  (Forall (fun key => is_Some (shapedic !! key))
          (flat_map (fun out => split underscore (lower out)) outs) /\
   exists tot,
     foldlM (fun tot out => size ← output_size shapedic out; Ok (<[out := size]> tot))
            tot0 outs = Ok tot /\
     (forall out, out ∈ outs ->
        tot !! out
        = Some (8 * product_of (shape_of shapedic <$> split underscore (lower out)))%Z) /\
     (forall out, out ∉ outs -> tot !! out = tot0 !! out)) \/
  (Exists (fun key => shapedic !! key = None)
          (flat_map (fun out => split underscore (lower out)) outs) /\
   foldlM (fun tot out => size ← output_size shapedic out; Ok (<[out := size]> tot))
          tot0 outs = Raise KeyError).
Proof.
  revert tot0. induction outs as [| out outs IH]; intros tot0.
  - left. split; [constructor |]. exists tot0. split; [done |].
    split; [intros out Hel; by inversion Hel | done].
  - cbn [foldlM flat_map].
    pose proof (dims_loop shapedic (split underscore (lower out)) 8) as Hd.
    change (foldlM _ 8%Z (split underscore (lower out)))
      with (output_size shapedic out) in Hd.
    destruct Hd as [[Hkeys ->] | [Hex ->]].
    + cbn [mbind result_bind].
      destruct (IH (<[out := (8 * product_of (shape_of shapedic
                                  <$> split underscore (lower out)))%Z]> tot0))
        as [[Hall (tot & -> & Hin & Hout)] | [Hex ->]].
      * left. split; [by apply Forall_app |]. exists tot. split; [done |]. split.
        -- intros out' Hel. destruct (decide (out' ∈ outs)) as [Hin' | Hnin].
           ++ by apply Hin.
           ++ rewrite Hout by done. apply elem_of_cons in Hel as [-> | Hel]; [| done].
              apply lookup_insert_eq.
        -- intros out' Hnel. apply not_elem_of_cons in Hnel as [Hne Hnel].
           rewrite Hout by done. by rewrite lookup_insert_ne.
      * right. split; [apply Exists_app; by right | done].
    + right. split; [apply Exists_app; by left | done].
Qed.

Lemma get_outputs_size_cases (accumdict_mul : gmap string Z -> Z -> gmap string Z)
    (shapedic : gmap string Z) (disagg_outputs : list string) :
  (Forall (fun key => is_Some (shapedic !! key)) (needed_keys disagg_outputs) /\
   exists tot,
     get_outputs_size accumdict_mul shapedic disagg_outputs
     = Ok (accumdict_mul
             (accumdict_mul
                (accumdict_mul (accumdict_mul tot (shape_of shapedic "N"))
                               (shape_of shapedic "M"))
                (shape_of shapedic "P"))
             (shape_of shapedic "Z")) /\
     (forall out, out ∈ disagg_outputs ->
        tot !! out
        = Some (8 * product_of (shape_of shapedic <$> split underscore (lower out)))%Z) /\
     (forall out, out ∉ disagg_outputs -> tot !! out = None)) \/
  (Exists (fun key => shapedic !! key = None) (needed_keys disagg_outputs) /\
   get_outputs_size accumdict_mul shapedic disagg_outputs = Raise KeyError).
Proof.
  unfold get_outputs_size, needed_keys.
  destruct (sizes_loop shapedic disagg_outputs ∅)
    as [[Hall (tot & -> & Hin & Hout)] | [Hex ->]];
    [| right; split; [apply Exists_app; by left | done]].
  cbn [mbind result_bind].
  assert (Hfail : forall key, key ∈ ["N"; "M"; "P"; "Z"] -> shapedic !! key = None ->
            Exists (fun key => shapedic !! key = None)
              (flat_map (fun out => split underscore (lower out)) disagg_outputs
               ++ ["N"; "M"; "P"; "Z"])).
  { intros key Hel Hnone. apply Exists_app. right. apply Exists_exists. by exists key. }
  unfold str_getitem, shape_of.
  destruct (shapedic !! "N") as [n |] eqn:HN;
    [| right; split; [apply (Hfail "N"); [set_solver | done] | done]].
  destruct (shapedic !! "M") as [m |] eqn:HM;
    [| right; split; [apply (Hfail "M"); [set_solver | done] | done]].
  destruct (shapedic !! "P") as [p |] eqn:HP;
    [| right; split; [apply (Hfail "P"); [set_solver | done] | done]].
  destruct (shapedic !! "Z") as [z |] eqn:HZ;
    [| right; split; [apply (Hfail "Z"); [set_solver | done] | done]].
  cbn [mbind result_bind default]. left. split.
  - apply Forall_app. split; [done |].
    repeat (constructor; [by eexists |]). constructor.
  - exists tot. split; [reflexivity |]. split; [done |].
    intros out Hnel. rewrite (Hout out Hnel). apply lookup_empty.
Qed.

(** X7.  When [shapedic] has the keys that are read, and the product of an
    [AccumDict] and a number multiplies every value, [get_outputs_size]
    gives each requested output 8 bytes times the lengths of the axes in
    its name times N, M, P and Z, and nothing to any other name; so the
    result does not depend on the order of [disagg_outputs] or on
    repetitions in it. *)
Theorem get_outputs_size_sizes (accumdict_mul : gmap string Z -> Z -> gmap string Z)
    (shapedic : gmap string Z) (disagg_outputs : list string) :
  scales_values accumdict_mul ->
  Forall (fun key => is_Some (shapedic !! key)) (needed_keys disagg_outputs) ->
  exists tot,
    get_outputs_size accumdict_mul shapedic disagg_outputs = Ok tot /\
    (forall out, out ∈ disagg_outputs ->
       tot !! out
       = Some (8 * product_of (shape_of shapedic <$> split underscore (lower out))
               * shape_of shapedic "N" * shape_of shapedic "M"
               * shape_of shapedic "P" * shape_of shapedic "Z")%Z) /\
    (forall out, out ∉ disagg_outputs -> tot !! out = None).
Proof.
  intros Hmul Hall.
  destruct (get_outputs_size_cases accumdict_mul shapedic disagg_outputs)
    as [[_ (tot & -> & Hin & Hout)] | [Hex _]].
  - eexists. split; [reflexivity |]. rewrite !Hmul. split.
    + intros out Hel. rewrite !lookup_fmap, (Hin out Hel). done.
    + intros out Hnel. rewrite !lookup_fmap, (Hout out Hnel). done.
  - exfalso. apply Exists_exists in Hex as (key & Hel & Hnone).
    rewrite Forall_forall in Hall. destruct (Hall key Hel) as [n Hn]. congruence.
Qed.

Lemma get_outputs_size_sizes_witness :
  exists tot,
    get_outputs_size (fun d n => fmap (M := gmap string) (fun size => size * n)%Z d)
                     small_shapedic ["Mag_Dist_Eps"; "TRT"] = Ok tot /\
    (forall out, out ∈ ["Mag_Dist_Eps"; "TRT"] ->
       tot !! out
       = Some (8 * product_of (shape_of small_shapedic <$> split underscore (lower out))
               * shape_of small_shapedic "N" * shape_of small_shapedic "M"
               * shape_of small_shapedic "P" * shape_of small_shapedic "Z")%Z) /\
    (forall out, out ∉ ["Mag_Dist_Eps"; "TRT"] -> tot !! out = None).
Proof.
  apply (get_outputs_size_sizes
           (fun d n => fmap (M := gmap string) (fun size => size * n)%Z d)
           small_shapedic ["Mag_Dist_Eps"; "TRT"]).
  - intros d n. reflexivity.
  - repeat constructor; eexists; vm_compute; reflexivity.
Defined.

(** X8.  [get_outputs_size] raises nothing but a [KeyError], and raises it
    exactly when [shapedic] lacks one of N, M, P, Z or a piece of the
    lower-cased name of a requested output. *)
Theorem get_outputs_size_KeyError (accumdict_mul : gmap string Z -> Z -> gmap string Z)
    (shapedic : gmap string Z) (disagg_outputs : list string) :
  (Exists (fun key => shapedic !! key = None) (needed_keys disagg_outputs) <->
   get_outputs_size accumdict_mul shapedic disagg_outputs = Raise KeyError) /\
  (forall e, get_outputs_size accumdict_mul shapedic disagg_outputs = Raise e ->
     e = KeyError).
Proof.
  destruct (get_outputs_size_cases accumdict_mul shapedic disagg_outputs)
    as [[Hall (tot & Hok & _)] | [Hex Hraise]].
  - rewrite Hok. split; [| done]. split; [| done].
    intros Hex. exfalso. apply Exists_exists in Hex as (key & Hel & Hnone).
    rewrite Forall_forall in Hall. destruct (Hall key Hel) as [n Hn]. congruence.
  - rewrite Hraise. split; [done |]. intros e He. by inversion He.
Qed.

(** ** The dictionary [poe_id] *)

Section poe_id_facts.
Context {A : Type} `{Number A}.

Lemma dict_set_fresh (d : list (option A * nat)) (k : option A) (v : nat) :
  (forall k' v', (k', v') ∈ d -> poe_eqb k' k = false) ->
  dict_set d k v = d ++ [(k, v)].
Proof.
  induction d as [| [k' v'] d IH]; intros Hfresh; simpl; [done |].
  rewrite (Hfresh k' v') by left. f_equal. apply IH.
  intros k'' v'' Hel. apply (Hfresh k'' v''). by right.
Qed.

Lemma make_poe_id_snoc (poes : list A) (poe : A) :
  make_poe_id (poes ++ [poe])
  = dict_set (make_poe_id poes) (Some poe) (length poes).
Proof.
  unfold make_poe_id. rewrite imap_app, fold_left_app. simpl.
  by rewrite Nat.add_0_r.
Qed.

Lemma make_poe_id_distinct (poes : list A) :
  (forall i j p q, (i < j)%nat -> poes !! i = Some p -> poes !! j = Some q ->
     eqb p q = false) ->
  make_poe_id poes = imap (fun i p => (Some p, i)) poes.
Proof.
  induction poes as [| poe poes IH] using rev_ind; intros Hdist; [done |].
  rewrite make_poe_id_snoc, IH.
  - rewrite imap_app. simpl. rewrite Nat.add_0_r. apply dict_set_fresh.
    intros k' v' Hel. apply elem_of_lookup_imap in Hel as (i & p & Heq & Hi).
    inversion Heq; subst. simpl. apply (Hdist i (length poes) p poe).
    + by eapply lookup_lt_Some.
    + apply lookup_app_Some. by left.
    + by rewrite lookup_app_r, Nat.sub_diag.
  - intros i j p q Hij Hi Hj. apply (Hdist i j p q Hij).
    + apply lookup_app_Some. by left.
    + apply lookup_app_Some. by left.
Qed.

Lemma poe_id_getitem_imap (poes : list A) (off i : nat) (p : A) :
  (forall i j p q, (i < j)%nat -> poes !! i = Some p -> poes !! j = Some q ->
     eqb p q = false) ->
  eqb p p = true ->
  poes !! i = Some p ->
  poe_id_getitem (imap (fun j q => (Some q, off + j)%nat) poes) (Some p) = Ok (off + i)%nat.
Proof.
  revert off i. induction poes as [| q poes IH]; intros off i Hdist Hrefl Hi; [done |].
  cbn [imap poe_id_getitem]. destruct i as [| i].
  - simpl in Hi. inversion Hi; subst q. simpl. by rewrite Hrefl.
  - simpl in Hi. cbn [poe_eqb].
    rewrite (Hdist 0%nat (S i) q p) by (done || lia).
    unfold compose.
    rewrite (imap_ext _ (fun j q => (Some q, (S off + j)%nat)))
      by (intros; f_equal; lia).
    rewrite (IH (S off) i); [f_equal; lia | | done | done].
    intros i' j' p' q' Hij Hi' Hj'. apply (Hdist (S i') (S j') p' q'); [lia | done | done].
Qed.

End poe_id_facts.

(** X9.  The dictionary [poe_id] built from pairwise different poes, none a
    NaN, gives each poe back its position in [poes_disagg]. *)
Theorem poe_id_positions {A : Type} `{Number A} (poes_disagg : list A) :
  (forall i j p q, (i < j)%nat -> poes_disagg !! i = Some p -> poes_disagg !! j = Some q ->
     eqb p q = false) ->
  (forall p, p ∈ poes_disagg -> eqb p p = true) ->
  forall i p, poes_disagg !! i = Some p ->
    poe_id_getitem (make_poe_id poes_disagg) (Some p) = Ok i.
Proof.
  intros Hdist Hrefl i p Hi. rewrite make_poe_id_distinct by done.
  apply (poe_id_getitem_imap poes_disagg 0 i p); [done | | done].
  apply Hrefl. by eapply list_elem_of_lookup_2.
Qed.

Lemma poe_id_positions_witness :
  poe_id_getitem (make_poe_id [0.5; 0.25]%float) (Some 0.25%float) = Ok 1%nat.
Proof.
  apply (poe_id_positions [0.5; 0.25]%float); [| | reflexivity].
  - intros [| [| i]] [| [| j]] p q Hij Hi Hj; try lia; try done.
    simpl in Hi, Hj. inversion Hi; inversion Hj; subst. reflexivity.
  - intros p Hel.
    apply elem_of_cons in Hel as [-> | Hel];
      [| apply list_elem_of_singleton in Hel as ->]; reflexivity.
Defined.

(** A poe that is repeated has a single entry, with the later position. *)
Example poe_id_repeated :
  make_poe_id [0.5; 0.25; 0.5]%float = [(Some 0.5%float, 2%nat); (Some 0.25%float, 1%nat)].
Proof. reflexivity. Qed.

(** ** The curves of [get_curve] and the check *)

Section get_curve_facts.
Context {A : Type} `{Number A}.

Lemma zip_app_l {X Y} (l1 l2 : list X) (k : list Y) :
  length k = length l1 -> zip (l1 ++ l2) k = zip l1 k.
Proof.
  revert k. induction l1 as [| x l1 IH]; intros [| y k] Hlen; simpl in *; try done.
  - by destruct l2.
  - by rewrite IH by lia.
Qed.

(** A curve that is missing after curves that are there: [curve[imt]]
    raises once the warnings of the curves before it are logged. *)
Lemma curves_loop_missing (sid : nat) (rlzs : list Z)
    (cs1 cs2 : list (option (curve A))) (imtls : list string)
    (poes_disagg : list A) (bad : nat) (log : list (warning A)) :
  present imtls cs1 -> (length cs1 < length rlzs)%nat -> imtls ≠ [] ->
  for_loop (zip rlzs (cs1 ++ None :: cs2)) bad (fun bad '(rlz, c) =>
    for_loop imtls bad (fun bad imt =>
      max_poe ← lift (curve_max c imt);
      for_loop poes_disagg bad (fun bad poe =>
        if ltb max_poe poe
        then _ ← logging_warning (POE_TOO_BIG sid poe max_poe rlz imt);
             mret (bad + 1)%nat
        else mret bad))) log
  = (log ++ site_warnings sid rlzs cs1 imtls poes_disagg, Raise TypeError).
Proof.
  intros Hp. revert rlzs bad log.
  induction Hp as [| c cs1 (cv & -> & Hcv) _ IH]; intros rlzs bad log Hlen Himt.
  - destruct rlzs as [| rlz rlzs]; [simpl in Hlen; lia |].
    destruct imtls as [| imt imtls']; [done |].
    unfold site_warnings. destruct rlzs; simpl; by rewrite app_nil_r.
  - destruct rlzs as [| rlz rlzs]; [simpl in Hlen; lia |].
    unfold site_warnings. cbn [app zip zip_with flat_map for_loop].
    fold (site_warnings sid rlzs cs1 imtls poes_disagg).
    unfold mbind at 1, logged_bind.
    pose proof (imts_loop sid rlz cv imtls poes_disagg bad log Hcv) as Hfirst.
    match goal with
    | |- (let (_, _) := ?x in _) = _ =>
        match type of Hfirst with ?y = _ => change x with y end
    end.
    rewrite Hfirst.
    rewrite IH by (simpl in Hlen; lia || done).
    by rewrite <- app_assoc.
Qed.

End get_curve_facts.

(** X10.  [get_curve] puts [None] for a realization whose curves lack the site,
    and [_check_curves] does not skip it: when the site is in the curves of
    the first realizations and not in those of the next one, the warnings
    of the first are logged and [curve[imt]] raises a [TypeError]. *)
Theorem get_curve_missing_raises {A : Type} `{Number A} {PCurve : Type}
    (pgetter_get : Z -> gmap nat PCurve) (convert : PCurve -> curve A)
    (sid : nat) (rlzs1 : list Z) (rlz : Z) (rlzs2 : list Z)
    (imtls : list string) (poes_disagg : list A) (log : list (warning A)) :
  imtls ≠ [] ->
  Forall (fun r => exists pc, pgetter_get r !! sid = Some pc /\
                     Forall (fun imt => convert pc imt ≠ []) imtls) rlzs1 ->
  pgetter_get rlz !! sid = None ->
  get_curve pgetter_get convert sid (rlzs1 ++ rlz :: rlzs2) !! length rlzs1 = Some None /\
  _check_curves sid (rlzs1 ++ rlz :: rlzs2)
                (get_curve pgetter_get convert sid (rlzs1 ++ rlz :: rlzs2))
                imtls poes_disagg log
  = (log ++ site_warnings sid rlzs1 (get_curve pgetter_get convert sid rlzs1)
                          imtls poes_disagg,
     Raise TypeError).
Proof.
  intros Himt Hthere Hmissing. unfold get_curve.
  rewrite fmap_app, fmap_cons, Hmissing. cbn [fmap option_fmap option_map].
  split.
  - rewrite lookup_app_r by (by rewrite length_fmap).
    by rewrite length_fmap, Nat.sub_diag.
  - assert (Hp : present imtls
                   ((fun rlz0 => convert <$> pgetter_get rlz0 !! sid) <$> rlzs1)).
    { induction Hthere as [| r rs (pc & Hpc & Hne) _ IH]; [constructor |].
      rewrite fmap_cons. constructor; [| exact IH].
      exists (convert pc). rewrite Hpc. done. }
    pose proof (curves_loop_missing sid (rlzs1 ++ rlz :: rlzs2) _
                  ((fun rlz0 => convert <$> pgetter_get rlz0 !! sid) <$> rlzs2)
                  imtls poes_disagg 0 log Hp) as Hrun.
    unfold _check_curves. unfold mbind at 1, logged_bind.
    match goal with
    | |- (let (_, _) := ?x in _) = _ =>
        match type of Hrun with _ -> _ -> ?y = _ => change x with y end
    end.
    rewrite Hrun; [| rewrite length_fmap, length_app; simpl; lia | done].
    do 2 f_equal. unfold site_warnings. f_equal.
    apply zip_app_l. by rewrite length_fmap.
Qed.

Lemma get_curve_missing_raises_witness :
  get_curve pmaps_of_rlz0 (fun c => c) 0 ([0%Z] ++ 1%Z :: []) !! length [0%Z] = Some None /\
  _check_curves 0 ([0%Z] ++ 1%Z :: [])
                (get_curve pmaps_of_rlz0 (fun c => c) 0 ([0%Z] ++ 1%Z :: []))
                ["PGA"] [0.75%float] []
  = ([] ++ site_warnings 0 [0%Z] (get_curve pmaps_of_rlz0 (fun c => c) 0 [0%Z])
                         ["PGA"] [0.75%float],
     Raise TypeError).
Proof.
  apply (get_curve_missing_raises pmaps_of_rlz0 (fun c => c) 0 [0%Z] 1%Z [] ["PGA"]
           [0.75%float] []); [done | | reflexivity].
  repeat constructor. eexists. split; [reflexivity |]. repeat constructor. done.
Defined.

Section get_curves_facts.
Context {A : Type} `{Number A} {PCurve : Type}.
Variable pgetter_get : Z -> gmap nat PCurve.
Variable convert : PCurve -> curve A.

(** With the sites numbered from 0, the list of the curves has the curves
    of site [sid] at position [sid]. *)
Lemma get_curves_run (N : nat) (rlzs : list (list Z)) :
  (forall sid, (sid < N)%nat -> is_Some (rlzs !! sid)) ->
  exists curves,
    get_curves pgetter_get convert (seq 0 N) rlzs = Ok curves /\
    length curves = N /\
    forall sid rs, (sid < N)%nat -> rlzs !! sid = Some rs ->
      curves !! sid = Some (get_curve pgetter_get convert sid rs).
Proof.
  unfold get_curves. induction N as [| n IH]; intros Hrows.
  - exists []. split; [done |]. split; [done |]. intros; lia.
  - destruct IH as (curves & Hrun & Hlen & Hcs); [intros; apply Hrows; lia |].
    destruct (Hrows n) as [rs Hrs]; [lia |].
    rewrite seq_S, foldlM_app, Hrun. simpl.
    unfold getitem. rewrite Hrs. simpl.
    eexists. split; [reflexivity |]. split; [rewrite length_app; simpl; lia |].
    intros sid rs' Hsid Hrs'. destruct (decide (sid = n)) as [-> | Hne].
    + rewrite lookup_app_r by lia. rewrite Hlen, Nat.sub_diag. simpl. congruence.
    + rewrite lookup_app_l by lia. apply Hcs; [lia | done].
Qed.

End get_curves_facts.

(** X11.  The curves that [full_disaggregation] builds with [get_curve], for
    sites numbered from 0, are what [check_poes_disagg] expects: each site
    finds its own curves at its position, and a site whose selected
    realizations all lack it, or all have it with a poe at least per IMT,
    has curves that are all missing or all there. *)
Theorem get_curves_well_formed {A : Type} `{Number A} {PCurve : Type}
    (pgetter_get : Z -> gmap nat PCurve) (convert : PCurve -> curve A)
    (N : nat) (rlzs : list (list Z)) (imtls : list string) :
  (forall sid, (sid < N)%nat ->
     exists rs, rlzs !! sid = Some rs /\
       (Forall (fun r => pgetter_get r !! sid = None) rs \/
        Forall (fun r => exists pc, pgetter_get r !! sid = Some pc /\
                           Forall (fun imt => convert pc imt ≠ []) imtls) rs)) ->
  exists curves,
    get_curves pgetter_get convert (seq 0 N) rlzs = Ok curves /\
    length curves = N /\
    (forall sid rs, (sid < N)%nat -> rlzs !! sid = Some rs ->
       curves !! sid = Some (get_curve pgetter_get convert sid rs)) /\
    Forall (well_formed_site imtls curves rlzs) (seq 0 N).
Proof.
  intros Hsites.
  destruct (get_curves_run pgetter_get convert N rlzs) as (curves & Hrun & Hlen & Hcs).
  { intros sid Hsid. destruct (Hsites sid Hsid) as (rs & Hrs & _). by eexists. }
  exists curves. split; [done |]. split; [done |]. split; [done |].
  apply Forall_forall. intros sid Hsid. apply elem_of_seq in Hsid as [_ Hsid].
  simpl in Hsid. destruct (Hsites sid Hsid) as (rs & Hrs & Hcase).
  exists (get_curve pgetter_get convert sid rs), rs.
  split; [by apply Hcs |]. split; [done |]. unfold get_curve. clear Hrs.
  destruct Hcase as [Hnone | Hthere]; [left | right].
  - induction Hnone as [| r rs' Hr _ IH]; [done |].
    rewrite fmap_cons, Hr. simpl. apply IH.
  - induction Hthere as [| r rs' (pc & Hpc & Hne) _ IH]; [constructor |].
    rewrite fmap_cons. constructor; [| exact IH].
    exists (convert pc). by rewrite Hpc.
Qed.

Lemma get_curves_well_formed_witness :
  exists curves,
    get_curves pmaps_of_rlz0 (fun c => c) (seq 0 2) [[0%Z]; [1%Z]] = Ok curves /\
    length curves = 2%nat /\
    (forall sid rs, (sid < 2)%nat -> [[0%Z]; [1%Z]] !! sid = Some rs ->
       curves !! sid = Some (get_curve pmaps_of_rlz0 (fun c => c) sid rs)) /\
    Forall (well_formed_site ["PGA"] curves [[0%Z]; [1%Z]]) (seq 0 2).
Proof.
  apply (get_curves_well_formed pmaps_of_rlz0 (fun c => c) 2 [[0%Z]; [1%Z]] ["PGA"]).
  intros [| [| sid]] Hsid; [| | lia].
  - exists [0%Z]. split; [reflexivity |]. right.
    repeat constructor. eexists. split; [reflexivity |]. repeat constructor. done.
  - exists [1%Z]. split; [reflexivity |]. left. repeat constructor.
Defined.

(** ** The second warning of [check_poes_disagg] *)

Lemma filter_length_lt {X} (f : X -> bool) (l : list X) :
  (length (List.filter f l) <= length l)%nat /\
  ((length (List.filter f l) < length l)%nat <-> exists x, x ∈ l /\ f x = false).
Proof.
  induction l as [| x l [IHle IHlt]]; simpl.
  - split; [lia |]. split; [lia |]. intros (x & Hx & _). by inversion Hx.
  - destruct (f x) eqn:Hfx; simpl; (split; [lia |]).
    + rewrite <- Nat.succ_lt_mono, IHlt. split.
      * intros (y & Hy & Hfy). exists y. split; [by right | done].
      * intros (y & Hy & Hfy). apply elem_of_cons in Hy as [-> | Hy]; [congruence |].
        by exists y.
    + split; [| lia]. intros _. exists x. split; [left | done].
Qed.

(** X12.  On sites whose curves are all missing or all there,
    [check_poes_disagg] logs 'Doing the disaggregation on' exactly when
    some site is kept and some site is left out, and what it names is the
    whole site collection, the sites left out included. *)
Theorem check_poes_disagg_second_warning {A : Type} `{Number A}
    (sids : list nat) (imtls : list string) (poes_disagg : list A)
    (curves : list (list (option (curve A)))) (rlzs : list (list Z)) :
  Forall (well_formed_site imtls curves rlzs) sids ->
  exists log r,
    check_poes_disagg sids imtls poes_disagg curves rlzs [] = (log, r) /\
    (Doing_the_disaggregation_on sids ∈ log <->
     (exists sid, sid ∈ sids /\ ~ too_big imtls poes_disagg curves rlzs sid) /\
     (exists sid, sid ∈ sids /\ too_big imtls poes_disagg curves rlzs sid)) /\
    (forall sitecol, Doing_the_disaggregation_on sitecol ∈ log -> sitecol = sids).
Proof.
  intros Hwf. rewrite check_poes_disagg_run by done. cbn zeta.
  set (ok := sid_ok imtls poes_disagg curves rlzs).
  set (warns := flat_map (sid_warnings imtls poes_disagg curves rlzs) sids).
  assert (Hwarns : forall sitecol, Doing_the_disaggregation_on sitecol ∉ warns).
  { intros sitecol Hin. unfold warns in Hin.
    apply list_elem_of_In, in_flat_map in Hin as (sid & Hsid & Hw).
    apply list_elem_of_In in Hsid, Hw. rewrite Forall_forall in Hwf.
    apply sid_warnings_elem in Hw as (? & ? & ? & ? & _ & Heq); [done | by apply Hwf]. }
  assert (Hkept : (exists sid, sid ∈ sids /\ ~ too_big imtls poes_disagg curves rlzs sid)
                  <-> length (List.filter ok sids) ≠ 0%nat).
  { split.
    - intros (sid & Hsid & Hno) Hlen. apply length_zero_iff_nil in Hlen.
      assert (Hin : sid ∈ List.filter ok sids).
      { apply list_elem_of_In, filter_In. split; [by apply list_elem_of_In |].
        rewrite Forall_forall in Hwf. by apply (sid_ok_too_big _ _ _ _ _ (Hwf sid Hsid)). }
      rewrite Hlen in Hin. by inversion Hin.
    - intros Hlen. destruct (List.filter ok sids) as [| sid l] eqn:Hf; [done |].
      assert (Hin : sid ∈ List.filter ok sids) by (rewrite Hf; left).
      apply list_elem_of_In, filter_In in Hin as [Hsid Hok].
      apply list_elem_of_In in Hsid. exists sid. split; [done |].
      rewrite Forall_forall in Hwf. by apply (sid_ok_too_big _ _ _ _ _ (Hwf sid Hsid)). }
  assert (Hleft : (exists sid, sid ∈ sids /\ too_big imtls poes_disagg curves rlzs sid)
                  <-> (length (List.filter ok sids) < length sids)%nat).
  { rewrite (proj2 (filter_length_lt ok sids)). rewrite Forall_forall in Hwf. split.
    - intros (sid & Hsid & Hbig). exists sid. split; [done |].
      destruct (ok sid) eqn:Hok; [| done].
      by apply (sid_ok_too_big _ _ _ _ _ (Hwf sid Hsid)) in Hok.
    - intros (sid & Hsid & Hok). exists sid. split; [done |].
      unfold ok, sid_ok in Hok.
      destruct (sid_warnings imtls poes_disagg curves rlzs sid) as [| w ws] eqn:Hws;
        [done |].
      assert (Hin : w ∈ sid_warnings imtls poes_disagg curves rlzs sid)
        by (rewrite Hws; left).
      apply sid_warnings_elem in Hin as (poe & m & rlz & imt & Hex & _); [| by apply Hwf].
      by exists poe, m, rlz, imt. }
  destruct (Nat.eqb_spec (length (List.filter ok sids)) 0) as [Hnil | Hcons].
  - eexists _, _. split; [reflexivity |]. simpl. split.
    + split; [intros Hin; by apply Hwarns in Hin |].
      intros [Hk _]. apply Hkept in Hk. done.
    + intros sitecol Hin. by apply Hwarns in Hin.
  - destruct (Nat.ltb_spec (length (List.filter ok sids)) (length sids)) as [Hlt | Hge].
    + eexists _, _. split; [reflexivity |]. simpl. split.
      * split; [intros _ | intros _; apply elem_of_app; right; left].
        split; [by apply Hkept | by apply Hleft].
      * intros sitecol Hin. apply elem_of_app in Hin as [Hin | Hin];
          [by apply Hwarns in Hin |].
        apply list_elem_of_singleton in Hin. by inversion Hin.
    + eexists _, _. split; [reflexivity |]. simpl. split.
      * split; [intros Hin; by apply Hwarns in Hin |].
        intros [_ Hl]. apply Hleft in Hl. lia.
      * intros sitecol Hin. by apply Hwarns in Hin.
Qed.

Lemma check_poes_disagg_second_warning_witness :
  exists log r,
    check_poes_disagg [0; 1] ["PGA"] [0x1.999999999999ap-4%float] low_curves
                      [[0%Z]; [0%Z]] [] = (log, r) /\
    (Doing_the_disaggregation_on [0; 1] ∈ log <->
     (exists sid, sid ∈ [0; 1] /\
        ~ too_big ["PGA"] [0x1.999999999999ap-4%float] low_curves [[0%Z]; [0%Z]] sid) /\
     (exists sid, sid ∈ [0; 1] /\
        too_big ["PGA"] [0x1.999999999999ap-4%float] low_curves [[0%Z]; [0%Z]] sid)) /\
    (forall sitecol, Doing_the_disaggregation_on sitecol ∈ log -> sitecol = [0; 1]).
Proof.
  apply (check_poes_disagg_second_warning [0; 1] ["PGA"] [0x1.999999999999ap-4%float]
           low_curves [[0%Z]; [0%Z]]).
  repeat constructor.
  - eexists _, _. split; [reflexivity |]. split; [reflexivity |]. right.
    repeat constructor. eexists. split; [reflexivity |]. repeat constructor. done.
  - eexists _, _. split; [reflexivity |]. split; [reflexivity |]. right.
    repeat constructor. eexists. split; [reflexivity |]. repeat constructor. done.
Defined.

(** ** The rows of the selected realizations *)

Section select_rlzs_rows.
Variable closest_to_ref : nat -> list Z.

Lemma rows_loop (num : nat) (sids : list nat) (rlzs0 rlzs : list (list Z)) :
  foldlM (fun rlzs sid => set_row rlzs num sid (take num (closest_to_ref sid)))
         rlzs0 sids = Ok rlzs ->
  (forall sid, sid ∈ sids -> num <= length (closest_to_ref sid)) ->
  (forall sid, sid ∈ sids -> rlzs !! sid = Some (take num (closest_to_ref sid))) /\
  (forall s, s ∉ sids -> rlzs !! s = rlzs0 !! s).
Proof.
  revert rlzs0. induction sids as [| sid sids IH]; intros rlzs0 Hrun Hlen.
  - simpl in Hrun. inversion Hrun; subst. split; [| done].
    intros sid Hin. by inversion Hin.
  - cbn [foldlM] in Hrun.
    destruct (set_row rlzs0 num sid (take num (closest_to_ref sid))) as [rlzs1 |] eqn:Hset;
      [| done].
    cbn [mbind result_bind] in Hrun.
    destruct (IH rlzs1 Hrun) as [Hin Hout]; [intros; apply Hlen; by right |].
    assert (Hrow : rlzs1 = <[sid := take num (closest_to_ref sid)]> rlzs0
                   /\ sid < length rlzs0).
    { unfold set_row in Hset.
      destruct (rlzs0 !! sid) as [row |] eqn:Hrow; [| done].
      apply lookup_lt_Some in Hrow.
      rewrite length_take, Nat.min_l, Nat.eqb_refl in Hset by (apply Hlen; left).
      by inversion Hset. }
    destruct Hrow as [-> Hsid]. split.
    + intros sid' Hel. destruct (decide (sid' ∈ sids)) as [Hin' | Hnin]; [by apply Hin |].
      apply elem_of_cons in Hel as [-> | Hel]; [| done].
      rewrite Hout by done. by apply list_lookup_insert_eq.
    + intros s Hs. apply not_elem_of_cons in Hs as [Hne Hs].
      rewrite Hout by done. by apply list_lookup_insert_ne.
Qed.

End select_rlzs_rows.

(** X13.  When the realizations are not configured and the selection returns:
    with more than one realization, the row of each site holds the first
    [Z] realizations that [closest_to_ref] ranks for it, in that order;
    with one realization at most, [closest_to_ref] is not consulted and
    every row holds zeros, that is, realization 0. *)
Theorem select_rlzs_rows_closest (closest_to_ref : nat -> list Z)
    (num_rlzs_disagg : nat) (sids : list nat) (R : Z) (nZ : nat)
    (rlzs : list (list Z)) :
  select_rlzs closest_to_ref None num_rlzs_disagg sids R = Ok (nZ, rlzs) ->
  (forall sid, sid ∈ sids -> num_rlzs_disagg <= length (closest_to_ref sid)) ->
  ((1 < R)%Z ->
   forall sid, sid ∈ sids ->
     rlzs !! sid = Some (take num_rlzs_disagg (closest_to_ref sid))) /\
  ((R <= 1)%Z -> rlzs = replicate (length sids) (replicate num_rlzs_disagg 0%Z)).
Proof.
  unfold select_rlzs. intros Hrun Hlen.
  destruct (Z.ltb_spec 1 R) as [HR | HR].
  - destruct (foldlM _ _ sids) as [rlzs1 |] eqn:Hloop; [| done].
    cbn [mbind result_bind] in Hrun.
    destruct (Z.of_nat num_rlzs_disagg <=? R)%Z; [| done].
    inversion Hrun; subst. split; [| lia].
    intros _. by apply (rows_loop _ _ _ _ _ Hloop).
  - cbn [mbind result_bind] in Hrun.
    destruct (Z.of_nat num_rlzs_disagg <=? R)%Z; [| done].
    inversion Hrun; subst. split; [lia | done].
Qed.

Lemma select_rlzs_rows_closest_witness :
  ((1 < 3)%Z ->
   forall sid, sid ∈ [0; 1] ->
     [[2; 0]; [1; 2]]%Z !! sid
     = Some (take 2 (match sid with O => [2; 0; 1] | _ => [1; 2; 0] end)%Z)) /\
  ((3 <= 1)%Z -> [[2; 0]; [1; 2]]%Z = replicate (length [0; 1]) (replicate 2 0%Z)).
Proof.
  apply (select_rlzs_rows_closest
           (fun sid => match sid with O => [2; 0; 1] | _ => [1; 2; 0] end)%Z
           2 [0; 1] 3%Z 2 [[2; 0]; [1; 2]]%Z); [reflexivity |].
  intros sid Hel.
  apply elem_of_cons in Hel as [-> | Hel];
    [| apply list_elem_of_singleton in Hel as ->]; simpl; lia.
Defined.

(** X14.  What stops the selection when [Z] exceeds [R]: the assertion, with
    configured indices or with one realization at most; but with more than
    one realization, a first site whose ranking has the [R] realizations
    makes the assignment [rlzs[sid] = ...[:Z]] raise a [ValueError] for the
    shapes before the assertion is reached. *)
Theorem select_rlzs_too_many :
  (forall closest_to_ref (idx : list Z) num_rlzs_disagg (sids : list nat) (R : Z),
     (R < Z.of_nat (length idx))%Z ->
     select_rlzs closest_to_ref (Some idx) num_rlzs_disagg sids R
     = Raise (AssertionError (Z.of_nat (length idx)) R)) /\
  (forall closest_to_ref (num_rlzs_disagg : nat) (sids : list nat) (R : Z),
     (R < Z.of_nat num_rlzs_disagg)%Z -> (R <= 1)%Z ->
     select_rlzs closest_to_ref None num_rlzs_disagg sids R
     = Raise (AssertionError (Z.of_nat num_rlzs_disagg) R)) /\
  (forall closest_to_ref (num_rlzs_disagg : nat) (sid : nat) (sids : list nat) (R : Z),
     (R < Z.of_nat num_rlzs_disagg)%Z -> (1 < R)%Z ->
     sid < length (sid :: sids) ->
     Z.of_nat (length (closest_to_ref sid)) = R ->
     select_rlzs closest_to_ref None num_rlzs_disagg (sid :: sids) R
     = Raise ValueError_shape).
Proof.
  split; [| split].
  - intros closest idx num sids R HR. unfold select_rlzs.
    cbn [mbind result_bind].
    destruct (Z.leb_spec (Z.of_nat (length idx)) R); [lia | done].
  - intros closest num sids R HR H1. unfold select_rlzs.
    destruct (Z.ltb_spec 1 R); [lia |]. cbn [mbind result_bind].
    destruct (Z.leb_spec (Z.of_nat num) R); [lia | done].
  - intros closest num sid sids R HR H1 Hsid Hlen. unfold select_rlzs.
    destruct (Z.ltb_spec 1 R); [| lia]. cbn [foldlM].
    assert (Hset : set_row (replicate (length (sid :: sids)) (replicate num 0%Z))
                     num sid (take num (closest sid)) = Raise ValueError_shape).
    { unfold set_row. rewrite lookup_replicate_2 by done.
      rewrite firstn_all2 by lia.
      destruct (Nat.eqb_spec (length (closest sid)) num) as [Heq | Hne]; [lia |].
      destruct (closest sid) as [| v [| w l]]; simpl in Hlen; try done; lia. }
    by rewrite Hset.
Qed.

(** ** The bin of a magnitude *)

Section mag_bin_bounds.
Context {A : Type} `{Number A}.

Lemma searchsorted_spec (a : list A) (v : A) :
  (forall j e, (j < Z.to_nat (searchsorted a v))%nat -> a !! j = Some e ->
     ltb e v = true) /\
  (forall e, a !! Z.to_nat (searchsorted a v) = Some e -> ltb e v = false).
Proof.
  induction a as [| x a [IHlt IHat]]; simpl searchsorted.
  - split; [intros j e Hj; simpl in Hj; lia | done].
  - pose proof (searchsorted_range a v) as Hr. unfold len in Hr.
    destruct (ltb x v) eqn:Hx.
    + replace (Z.to_nat (1 + searchsorted a v)) with (S (Z.to_nat (searchsorted a v)))
        by lia.
      split.
      * intros [| j] e Hj He; simpl in He; [by inversion He; subst |].
        apply (IHlt j); [lia | done].
      * intros e He. simpl in He. by apply IHat.
    + split; [intros j e Hj; simpl in Hj; lia |].
      intros e He. simpl in He. by inversion He; subst.
Qed.

End mag_bin_bounds.

(** X15.  The bin of a magnitude among edges in increasing order, where
    the scan of [searchsorted] is numpy's bisection, is open on the left
    and closed on the right: the edges up to [mag_edges[magi]] are below
    the magnitude, and [mag_edges[magi + 1]], if there is one, is not.
    [magi] goes from -1, when no edge is below the magnitude, to
    [len(mag_edges) - 1], when all are. *)
Theorem mag_bin_left_open {A : Type} `{Number A} (mag_edges : list A) (mag : A) :
  (forall j e, (0 <= j <= mag_bin mag_edges mag)%Z ->
     mag_edges !! Z.to_nat j = Some e -> ltb e mag = true) /\
  (forall e, mag_edges !! Z.to_nat (mag_bin mag_edges mag + 1) = Some e ->
     ltb e mag = false) /\
  (-1 <= mag_bin mag_edges mag <= len mag_edges - 1)%Z.
Proof.
  destruct (searchsorted_spec mag_edges mag) as [Hlt Hat].
  pose proof (searchsorted_range mag_edges mag) as Hr.
  unfold mag_bin. split; [| split].
  - intros j e Hj He. apply (Hlt (Z.to_nat j)); [lia | done].
  - intros e He. apply Hat.
    by replace (searchsorted mag_edges mag - 1 + 1)%Z with (searchsorted mag_edges mag)
      in He by lia.
  - lia.
Qed.

(** ** The results of a task, reduced *)

Section task_reduce_facts.
Context {A : Type} `{Number A}.

Lemma agg_result_singleton (acc : accum A) (t : nat) (g : Z) (i sid : nat)
    (m : ndarray A) :
  agg_result acc {| trti := t; magi := g; imti := i; by_sid := {[ sid := m ]} |}
  = agg_result_step t g i acc sid m.
Proof. unfold agg_result. simpl. by rewrite map_fold_singleton. Qed.

Lemma agg_result_step_slots (t : nat) (g : Z) (i : nat) (acc acc' : accum A)
    (sid : nat) (m : ndarray A) :
  agg_result_step t g i acc sid m = Ok acc' ->
  (exists v, agg_probs [default (Sc zero) (slot acc i sid t g); m] = Ok v /\
             slot acc' i sid t g = Some v) /\
  (forall i' s' t' g', (i, sid, t, g) ≠ (i', s', t', g') ->
     slot acc' i' s' t' g' = slot acc i' s' t' g').
Proof.
  intros Hstep.
  destruct (agg_probs [default (Sc zero) (slot acc i sid t g); m]) as [v | e] eqn:Hv.
  - rewrite (agg_result_step_Ok t g i acc sid m v Hv) in Hstep.
    inversion Hstep; subst acc'. split.
    + exists v. split; [done | apply slot_update_eq].
    + intros i' s' t' g' Hne. by apply slot_update_ne.
  - exfalso. revert Hstep Hv.
    unfold agg_result_step, accum_getitem, get_before, slot.
    destruct (acc !! (i, sid)) as [inner |]; cbn [mbind option_bind default].
    + intros Hstep Hv. by rewrite Hv in Hstep.
    + rewrite lookup_empty. cbn [default]. intros Hstep Hv. by rewrite Hv in Hstep.
Qed.

Lemma reduce_singletons (sids : list nat) (t : nat) (g : Z) (i : nat)
    (rs : list (task_result A)) (acc acc' : accum A) :
  (forall r, r ∈ rs -> exists sid m,
     sid ∈ sids /\
     r = {| trti := t; magi := g; imti := i; by_sid := {[ sid := m ]} |}) ->
  foldlM agg_result acc rs = Ok acc' ->
  (forall i' s' t' g', ~ (i' = i /\ t' = t /\ g' = g /\ s' ∈ sids) ->
     slot acc' i' s' t' g' = slot acc i' s' t' g') /\
  (forall i' s' t' g', is_Some (slot acc i' s' t' g') ->
     is_Some (slot acc' i' s' t' g')) /\
  (forall r sid, r ∈ rs -> is_Some (by_sid r !! sid) ->
     is_Some (slot acc' i sid t g)).
Proof.
  revert acc. induction rs as [| r rs IH]; intros acc Hrs Hrun.
  - simpl in Hrun. inversion Hrun; subst. split; [done |]. split; [done |].
    intros r sid Hr. by inversion Hr.
  - cbn [foldlM] in Hrun.
    destruct (Hrs r) as (sid & m & Hsid & ->); [left |].
    rewrite agg_result_singleton in Hrun.
    destruct (agg_result_step t g i acc sid m) as [acc1 |] eqn:Hstep; [| done].
    cbn [mbind result_bind] in Hrun.
    destruct (agg_result_step_slots _ _ _ _ _ _ _ Hstep) as [(v & _ & Hv) Hframe1].
    destruct (IH acc1) as (Hframe & Hmono & Hlive);
      [intros r Hr; apply Hrs; by right | done |].
    assert (Hmono1 : forall i' s' t' g', is_Some (slot acc i' s' t' g') ->
              is_Some (slot acc1 i' s' t' g')).
    { intros i' s' t' g' Hsome.
      destruct (decide ((i, sid, t, g) = (i', s', t', g'))) as [Heq | Hne].
      - inversion Heq; subst. rewrite Hv. by eexists.
      - by rewrite Hframe1. }
    split; [| split].
    + intros i' s' t' g' Hout. rewrite Hframe by done. apply Hframe1.
      intros Heq. inversion Heq; subst. by apply Hout.
    + intros i' s' t' g' Hsome. by apply Hmono, Hmono1.
    + intros r sid' Hr Hsome. apply elem_of_cons in Hr as [-> | Hr].
      * simpl in Hsome. destruct Hsome as [m' Hm'].
        apply lookup_singleton_Some in Hm' as [<- _].
        apply Hmono. rewrite Hv. by eexists.
      * by apply (Hlive r).
Qed.

End task_reduce_facts.

(** X16.  The results that one task yields, folded into the accumulator by
    [agg_result]: only the slots of the task's IMT, TRT and magnitude bin
    change, and only for the sites of the task; no slot that was filled
    is emptied; and every site for which the task yields a matrix has its
    slot filled. *)
Theorem task_results_reduce {A : Type} `{Number A} {IML2 BinData : Type}
    (close_ruptures : nat -> list nat)
    (disaggregate : nat -> list nat -> IML2 -> BinData)
    (pnes_sum : BinData -> A) (build_disagg_matrix : BinData -> nat -> ndarray A)
    (sids : list nat) (iml3 : list IML2) (t : nat) (g : Z) (i : nat)
    (acc acc' : accum A) :
  foldlM agg_result acc
         (compute_disagg close_ruptures disaggregate pnes_sum build_disagg_matrix
                         sids iml3 t g i) = Ok acc' ->
  (forall i' s' t' g', ~ (i' = i /\ t' = t /\ g' = g /\ s' ∈ sids) ->
     slot acc' i' s' t' g' = slot acc i' s' t' g') /\
  (forall i' s' t' g', is_Some (slot acc i' s' t' g') ->
     is_Some (slot acc' i' s' t' g')) /\
  (forall r sid,
     r ∈ compute_disagg close_ruptures disaggregate pnes_sum build_disagg_matrix
           sids iml3 t g i ->
     is_Some (by_sid r !! sid) -> is_Some (slot acc' i sid t g)).
Proof.
  apply reduce_singletons. intros r Hr.
  apply compute_disagg_nonzero in Hr as (sid & iml2 & Hin & -> & _).
  eexists _, _. split; [| reflexivity].
  apply elem_of_zip_l in Hin. done.
Qed.

Lemma task_results_reduce_witness :
  (forall i' s' t' g', ~ (i' = 0%nat /\ t' = 0%nat /\ g' = 0%Z /\ s' ∈ [0%nat]) ->
     slot (A := float) {[ (0%nat, 0%nat) := {[ (0%nat, 0%Z) := Arr [Sc 0.5%float] ]} ]}
          i' s' t' g'
     = slot (A := float) ∅ i' s' t' g') /\
  (forall i' s' t' g', is_Some (slot (A := float) ∅ i' s' t' g') ->
     is_Some (slot (A := float)
                   {[ (0%nat, 0%nat) := {[ (0%nat, 0%Z) := Arr [Sc 0.5%float] ]} ]}
                   i' s' t' g')) /\
  (forall r sid,
     r ∈ compute_disagg (fun _ => [0%nat]) (fun _ _ (_ : unit) => tt)
           (fun _ => 1%float) (fun _ _ => Arr [Sc 0.5%float])
           [0%nat] [tt] 0 0%Z 0 ->
     is_Some (by_sid r !! sid) ->
     is_Some (slot (A := float)
                   {[ (0%nat, 0%nat) := {[ (0%nat, 0%Z) := Arr [Sc 0.5%float] ]} ]}
                   0 sid 0 0%Z)).
Proof.
  apply (task_results_reduce (fun _ => [0%nat]) (fun _ _ (_ : unit) => tt)
           (fun _ => 1%float) (fun _ _ => Arr [Sc 0.5%float])
           [0%nat] [tt] 0 0%Z 0 ∅).
  vm_compute. reflexivity.
Defined.

(** ** The sites of a task *)

(** X17.  A task yields its results in the order of its sites, one at most for
    each position in [sids]. *)
Theorem compute_disagg_sites {A : Type} `{Number A} {IML2 BinData : Type}
    (close_ruptures : nat -> list nat)
    (disaggregate : nat -> list nat -> IML2 -> BinData)
    (pnes_sum : BinData -> A) (build_disagg_matrix : BinData -> nat -> ndarray A)
    (sids : list nat) (iml3 : list IML2) (t : nat) (g : Z) (i : nat) :
  sublist (sites_of (compute_disagg close_ruptures disaggregate pnes_sum
                                    build_disagg_matrix sids iml3 t g i))
          sids.
Proof.
  unfold compute_disagg, sites_of. revert iml3.
  induction sids as [| sid sids IH]; intros [| iml2 iml3]; simpl;
    try apply sublist_nil_l.
  rewrite flat_map_app.
  assert (Hhead : forall l : list (task_result A),
            l = [] \/ (exists m, l = [ {| trti := t; magi := g; imti := i;
                                          by_sid := {[ sid := m ]} |} ]) ->
            sublist (flat_map (fun r => (map_to_list (by_sid r)).*1) l
                     ++ flat_map (fun r => (map_to_list (by_sid r)).*1)
                          (flat_map (fun '(sid, iml2) =>
                             match close_ruptures sid with
                             | [] => []
                             | ctxs =>
                                 let bdata := disaggregate sid ctxs iml2 in
                                 if truthy (pnes_sum bdata) then
                                   let matrix := build_disagg_matrix bdata sid in
                                   if nd_any matrix
                                   then [ {| trti := t; magi := g; imti := i;
                                             by_sid := {[ sid := matrix ]} |} ]
                                   else []
                                 else []
                             end) (zip sids iml3)))
                    (sid :: sids)).
  { intros l [-> | [m ->]]; simpl.
    - apply sublist_cons. apply IH.
    - rewrite map_to_list_singleton. simpl. apply sublist_skip. apply IH. }
  apply Hhead.
  destruct (close_ruptures sid) as [| u ctxs]; [by left |].
  destruct (truthy _); [| by left].
  destruct (nd_any _); [right; by eexists | by left].
Qed.

(** ** What [agg_probs] raises *)

Section agg_probs_raises_facts.
Context {A : Type} `{Number A}.

Lemma imul_raises (acc x : ndarray A) (e : exn) :
  imul acc x = Raise e -> e = ValueError_shape.
Proof.
  unfold imul. destruct acc, x; try done.
  destruct (nd_broadcast _ _ _); [done | by intros [= <-]].
Qed.

Lemma agg_probs_raises (probs : list (ndarray A)) (e : exn) :
  agg_probs probs = Raise e ->
  (e = IndexError /\ probs = []) \/ e = ValueError_shape.
Proof.
  unfold agg_probs. destruct probs as [| p0 rest]; [intros [= <-]; by left |].
  generalize (rsub one p0). intros acc Hrun. right.
  destruct (foldlM _ acc rest) as [acc1 | e1] eqn:Hloop; [done |].
  simpl in Hrun. inversion Hrun; subst e1. clear Hrun.
  revert acc Hloop. induction rest as [| p rest IH]; intros acc Hloop; [done |].
  cbn [foldlM] in Hloop.
  destruct (imul acc (rsub one p)) as [acc1 | e1] eqn:Hmul.
  - by apply (IH acc1).
  - simpl in Hloop. inversion Hloop; subst. by apply imul_raises in Hmul.
Qed.

End agg_probs_raises_facts.

(** ** The datasets of the bin edges *)

Section save_bin_edges_datasets.
Context {A : Type}.

Lemma site_edges_loop (b : bin_edges A) (sids : list nat)
    (ds : list (bins_key * list A)) :
  (Forall (fun sid => is_Some (lon_edges b !! sid) /\ is_Some (lat_edges b !! sid)) sids /\
   foldlM (fun ds sid =>
             lo ← dict_getitem (lon_edges b) sid;
             la ← dict_getitem (lat_edges b) sid;
             Ok (ds ++ [(disagg_bins_lons sid, lo); (disagg_bins_lats sid, la)]))
          ds sids
   = Ok (ds ++ site_edges b sids)) \/
  (Exists (fun sid => lon_edges b !! sid = None \/ lat_edges b !! sid = None) sids /\
   foldlM (fun ds sid =>
             lo ← dict_getitem (lon_edges b) sid;
             la ← dict_getitem (lat_edges b) sid;
             Ok (ds ++ [(disagg_bins_lons sid, lo); (disagg_bins_lats sid, la)]))
          ds sids
   = Raise KeyError).
Proof.
  revert ds. induction sids as [| sid sids IH]; intros ds.
  - left. split; [constructor |]. simpl. by rewrite app_nil_r.
  - cbn [foldlM].
    destruct (lon_edges b !! sid) as [lo |] eqn:Hlo.
    2: { right. split; [apply Exists_cons_hd; by left |].
         replace (dict_getitem (lon_edges b) sid) with (Raise (T := list A) KeyError)
           by (unfold dict_getitem; by rewrite Hlo).
         done. }
    replace (dict_getitem (lon_edges b) sid) with (Ok (T := list A) lo)
      by (unfold dict_getitem; by rewrite Hlo).
    destruct (lat_edges b !! sid) as [la |] eqn:Hla.
    2: { right. split; [apply Exists_cons_hd; by right |].
         replace (dict_getitem (lat_edges b) sid) with (Raise (T := list A) KeyError)
           by (unfold dict_getitem; by rewrite Hla).
         done. }
    replace (dict_getitem (lat_edges b) sid) with (Ok (T := list A) la)
      by (unfold dict_getitem; by rewrite Hla).
    cbn [mbind result_bind].
    destruct (IH (ds ++ [(disagg_bins_lons sid, lo); (disagg_bins_lats sid, la)]))
      as [[Hall ->] | [Hex ->]].
    + left. split; [constructor; [split; by eexists | done] |].
      unfold site_edges. cbn [flat_map]. rewrite Hlo, Hla. simpl.
      by rewrite <- app_assoc.
    + right. split; [by apply Exists_cons_tl | done].
Qed.

End save_bin_edges_datasets.

(** X18.  [save_bin_edges] on a matrix that passes the check of its size (the
    size itself fitting in 64 bits): when every site has its edges, it
    writes the magnitudes, the distances, the longitudes and latitudes of
    each site in the order of the sites, and the epsilons; when a site has
    no edges, it raises a [KeyError]. *)
Theorem save_bin_edges_writes {A : Type} (b : bin_edges A)
    (trts : list string) (sids : list nat) (lons0 lats0 : list A)
    (datastore : list (bins_key * list A)) :
  lon_edges b !! 0%nat = Some lons0 ->
  lat_edges b !! 0%nat = Some lats0 ->
  (- 2 ^ 63 <= element_count b lons0 lats0 trts <= 1000000)%Z ->
  (Forall (fun sid => is_Some (lon_edges b !! sid) /\ is_Some (lat_edges b !! sid)) sids ->
   save_bin_edges b trts sids datastore
   = Ok (datastore ++ [(disagg_bins_mags, mag_edges b); (disagg_bins_dists, dist_edges b)]
         ++ site_edges b sids ++ [(disagg_bins_eps, eps_edges b)])) /\
  (Exists (fun sid => lon_edges b !! sid = None \/ lat_edges b !! sid = None) sids ->
   save_bin_edges b trts sids datastore = Raise KeyError).
Proof.
  intros Hlon Hlat Hsize.
  destruct (save_bin_edges_guard (Ok tt) b trts sids lons0 lats0 datastore Hlon Hlat)
    as [_ Hwrite]; [cbn zeta; lia |].
  rewrite Hwrite by (cbn zeta; lia).
  destruct (site_edges_loop b sids
              (datastore ++ [(disagg_bins_mags, mag_edges b);
                             (disagg_bins_dists, dist_edges b)]))
    as [[Hall ->] | [Hex ->]]; cbn [mbind result_bind].
  - split.
    + intros _. by rewrite <- !app_assoc.
    + intros Hex. exfalso. apply Exists_exists in Hex as (sid & Hsid & Hnone).
      rewrite Forall_forall in Hall. destruct (Hall sid Hsid) as [[lo Hlo] [la Hla]].
      destruct Hnone; congruence.
  - split; [| done].
    intros Hall. exfalso. apply Exists_exists in Hex as (sid & Hsid & Hnone).
    rewrite Forall_forall in Hall. destruct (Hall sid Hsid) as [[lo Hlo] [la Hla]].
    destruct Hnone; congruence.
Qed.

Lemma save_bin_edges_writes_witness :
  (Forall (fun sid => is_Some (lon_edges small_bins !! sid) /\
                      is_Some (lat_edges small_bins !! sid)) [1%nat; 0%nat] ->
   save_bin_edges small_bins ["Active Shallow Crust"] [1%nat; 0%nat] []
   = Ok ([] ++ [(disagg_bins_mags, mag_edges small_bins);
                (disagg_bins_dists, dist_edges small_bins)]
         ++ site_edges small_bins [1%nat; 0%nat]
         ++ [(disagg_bins_eps, eps_edges small_bins)])) /\
  (Exists (fun sid => lon_edges small_bins !! sid = None \/
                      lat_edges small_bins !! sid = None) [1%nat; 0%nat] ->
   save_bin_edges small_bins ["Active Shallow Crust"] [1%nat; 0%nat] []
   = Raise KeyError).
Proof.
  apply (save_bin_edges_writes small_bins ["Active Shallow Crust"] [1%nat; 0%nat]
           [10; 11]%float [40; 41]%float []).
  - reflexivity.
  - reflexivity.
  - vm_compute. split; discriminate.
Defined.

(** X19.  As long as the number of cells fits in 64 bits, a matrix of more than
    1,000,000 cells is refused with that number in the error, and nothing
    that follows [save_bin_edges] in [full_disaggregation] runs. *)
Theorem save_bin_edges_refuses {A Res : Type} (submit : result Res) (b : bin_edges A)
    (trts : list string) (sids : list nat) (lons0 lats0 : list A)
    (datastore : list (bins_key * list A)) :
  lon_edges b !! 0%nat = Some lons0 ->
  lat_edges b !! 0%nat = Some lats0 ->
  (1000000 < element_count b lons0 lats0 trts < 2 ^ 63)%Z ->
  save_bin_edges b trts sids datastore
  = Raise (ValueError_too_large (element_count b lons0 lats0 trts)) /\
  save_then_submit submit b trts sids datastore
  = Raise (ValueError_too_large (element_count b lons0 lats0 trts)).
Proof.
  intros Hlon Hlat Hsize.
  destruct (save_bin_edges_guard submit b trts sids lons0 lats0 datastore Hlon Hlat)
    as [Hrefuse _]; [cbn zeta; lia |].
  apply Hrefuse. lia.
Qed.

Lemma save_bin_edges_refuses_witness :
  save_bin_edges large_bins ["Active Shallow Crust"] [0%nat] []
  = Raise (ValueError_too_large
             (element_count large_bins (edges_from 0%float 102) [40; 41]%float
                            ["Active Shallow Crust"])) /\
  save_then_submit (Ok tt) large_bins ["Active Shallow Crust"] [0%nat] []
  = Raise (ValueError_too_large
             (element_count large_bins (edges_from 0%float 102) [40; 41]%float
                            ["Active Shallow Crust"])).
Proof.
  apply (save_bin_edges_refuses (Ok tt) large_bins ["Active Shallow Crust"] [0%nat]
           (edges_from 0%float 102) [40; 41]%float []).
  - reflexivity.
  - reflexivity.
  - vm_compute. split; reflexivity.
Defined.

(** ** The order of the reduction *)

Section zip_facts.

Lemma zip_Arr_cons (x : ndarray R) (ra : list (ndarray R)) (y : ndarray R)
    (rb : list (ndarray R)) :
  nd_zip_mul (Arr (x :: ra)) (Arr (y :: rb))
  = (z ← nd_zip_mul x y;
     r ← nd_zip_mul (Arr ra) (Arr rb);
     match r with Arr zs => Some (Arr (z :: zs)) | Sc _ => None end).
Proof.
  simpl. destruct (nd_zip_mul x y) as [z |]; [| done]. simpl.
  match goal with |- _ = option_map Arr ?r ≫= _ => destruct r end; done.
Qed.

Lemma zip_Arr_is_Arr (ra rb : list (ndarray R)) (r : ndarray R) :
  nd_zip_mul (Arr ra) (Arr rb) = Some r ->
  exists zs, r = Arr zs /\ length zs = length ra /\ length zs = length rb.
Proof.
  revert rb r. induction ra as [| x ra IH]; intros [| y rb] r; try done.
  - simpl. intros [= <-]. by exists [].
  - rewrite zip_Arr_cons. destruct (nd_zip_mul x y) as [z |]; [| done].
    cbn [mbind option_bind].
    destruct (nd_zip_mul (Arr ra) (Arr rb)) as [l |] eqn:Hl; [| done].
    cbn [mbind option_bind].
    destruct (IH rb l Hl) as (zs & -> & Hlen1 & Hlen2).
    intros [= <-]. exists (z :: zs). simpl. repeat split; congruence.
Qed.

Lemma zip_right_comm (a b c : ndarray R) :
  (ab ← nd_zip_mul a b; nd_zip_mul ab c) = (ac ← nd_zip_mul a c; nd_zip_mul ac b).
Proof.
  revert b c. induction a as [x | ra IH] using ndarray_nested_ind; intros b c.
  - destruct b as [y | rb], c as [z | rc]; simpl; try done.
    do 2 f_equal. ring.
  - destruct b as [y | rb].
    { simpl nd_zip_mul at 1. simpl mbind at 1.
      destruct (nd_zip_mul (Arr ra) c) as [ac |] eqn:Hac; [| done]. simpl.
      destruct c as [z | rc]; [done |].
      apply zip_Arr_is_Arr in Hac as (zs & -> & _). done. }
    destruct c as [z | rc].
    { destruct (nd_zip_mul (Arr ra) (Arr rb)) as [ab |] eqn:Hab; [| done]. simpl.
      apply zip_Arr_is_Arr in Hab as (zs & -> & _). done. }
    revert rb rc. induction IH as [| x ra Hx _ IHra]; intros rb rc.
    + destruct rb, rc; done.
    + destruct rb as [| y rb].
      { simpl nd_zip_mul at 1. simpl mbind at 1.
        destruct (nd_zip_mul (Arr (x :: ra)) (Arr rc)) as [ac |] eqn:Hac; [| done].
        apply zip_Arr_is_Arr in Hac as (zs & -> & Hl & _). simpl.
        destruct zs; done. }
      destruct rc as [| w rc].
      { destruct (nd_zip_mul (Arr (x :: ra)) (Arr (y :: rb))) as [ab |] eqn:Hab; [| done].
        apply zip_Arr_is_Arr in Hab as (zs & -> & Hl & _). simpl.
        destruct zs; done. }
      rewrite !zip_Arr_cons.
      pose proof (Hx y w) as E1. pose proof (IHra rb rc) as E2.
      destruct (nd_zip_mul x y) as [xy |] eqn:Hxy;
        destruct (nd_zip_mul x w) as [xw |] eqn:Hxw;
        destruct (nd_zip_mul (Arr ra) (Arr rb)) as [l1 |] eqn:Hl1;
        destruct (nd_zip_mul (Arr ra) (Arr rc)) as [l2 |] eqn:Hl2;
        try (apply zip_Arr_is_Arr in Hl1 as (zs1 & -> & _));
        try (apply zip_Arr_is_Arr in Hl2 as (zs2 & -> & _));
        cbn [mbind option_bind] in E1, E2 |- *; rewrite ?zip_Arr_cons;
        try (match type of E1 with
             | None = None => idtac
             | None = _ => rewrite <- E1
             | _ => rewrite E1
             end);
        try (match type of E2 with
             | None = None => idtac
             | None = _ => rewrite <- E2
             | _ => rewrite E2
             end);
        cbn [mbind option_bind]; try done;
        repeat match goal with
               | |- context [nd_zip_mul ?a ?b ≫= _] => destruct (nd_zip_mul a b)
               end;
        cbn [mbind option_bind]; done.
Qed.


Lemma zip_comm (a b : ndarray R) : nd_zip_mul a b = nd_zip_mul b a.
Proof.
  revert b. induction a as [x | ra IH] using ndarray_nested_ind; intros b.
  - destruct b as [y | rb]; simpl; [| done]. do 2 f_equal. ring.
  - destruct b as [y | rb]; [done |].
    revert rb. induction IH as [| x ra Hx _ IHra]; intros [| y rb]; try done.
    rewrite !zip_Arr_cons, (Hx y), (IHra rb). done.
Qed.

Lemma zip_map_l (f : R -> R) (a b : ndarray R) :
  (forall u v, (f u * v)%R = f (u * v)%R) ->
  nd_zip_mul (nd_map f a) b = nd_map f <$> nd_zip_mul a b.
Proof.
  intros Hf. revert b. induction a as [x | ra IH] using ndarray_nested_ind; intros b.
  - destruct b as [y | rb]; simpl; [| done]. by rewrite Hf.
  - destruct b as [y | rb]; [done |].
    revert rb. induction IH as [| x ra Hx _ IHra]; intros [| y rb]; try done.
    change (nd_map f (Arr (x :: ra))) with (Arr (nd_map f x :: List.map (nd_map f) ra)).
    change (Arr (List.map (nd_map f) ra)) with (nd_map f (Arr ra)) in IHra.
    rewrite !zip_Arr_cons, (Hx y).
    change (Arr (List.map (nd_map f) ra)) with (nd_map f (Arr ra)).
    rewrite (IHra rb).
    destruct (nd_zip_mul x y) as [z |]; [| done]. cbn [fmap option_fmap option_map mbind option_bind].
    destruct (nd_zip_mul (Arr ra) (Arr rb)) as [l |] eqn:Hl; [| done].
    apply zip_Arr_is_Arr in Hl as (zs & -> & _). done.
Qed.

Lemma imul_Sc (c : R) (x : ndarray R) : imul (Sc c) x = Ok (nd_map (Rmult c) x).
Proof. done. Qed.

Lemma imul_cells_Sc (c : R) (x : ndarray R) :
  imul_cells (Sc c) x = Ok (nd_map (Rmult c) x).
Proof. done. Qed.

Lemma imul_cells_map_Sc (f : R -> R) (l : list (ndarray R)) (d : R) :
  imul_cells (nd_map f (Arr l)) (Sc d)
  = Ok (nd_map (fun v => v * d)%R (nd_map f (Arr l))).
Proof. done. Qed.

Lemma imul_cells_map_Arr (f : R -> R) (l rb : list (ndarray R)) :
  imul_cells (nd_map f (Arr l)) (Arr rb)
  = match nd_zip_mul (nd_map f (Arr l)) (Arr rb) with
    | Some r => Ok r
    | None => Raise ValueError_shape
    end.
Proof. done. Qed.

Lemma imul_cells_Arr_Arr (ra rb : list (ndarray R)) :
  imul_cells (Arr ra) (Arr rb)
  = match nd_zip_mul (Arr ra) (Arr rb) with
    | Some r => Ok r
    | None => Raise ValueError_shape
    end.
Proof. done. Qed.

Lemma imul_cells_Arr_Sc (ra : list (ndarray R)) (d : R) :
  imul_cells (Arr ra) (Sc d) = Ok (nd_map (fun v => v * d)%R (Arr ra)).
Proof. done. Qed.

(** Without broadcasting, [acc *= p] and then [acc *= q], or the other way
    round. *)
Lemma imul_cells_right_comm (a p q : ndarray R) :
  (x ← imul_cells a p; imul_cells x q) = (y ← imul_cells a q; imul_cells y p).
Proof.
  destruct a as [c | ra].
  - (* a Python scalar *)
    rewrite !imul_cells_Sc. cbn [mbind result_bind].
    destruct p as [d | rp], q as [e | rq].
    + simpl. do 2 f_equal. ring.
    + change (nd_map (Rmult c) (Sc d)) with (Sc (c * d)%R).
      rewrite imul_cells_Sc, imul_cells_map_Sc, nd_map_map. f_equal.
      apply nd_map_ext. intros v. ring.
    + change (nd_map (Rmult c) (Sc e)) with (Sc (c * e)%R).
      rewrite imul_cells_Sc, imul_cells_map_Sc, nd_map_map. f_equal.
      apply nd_map_ext. intros v. ring.
    + rewrite !imul_cells_map_Arr, !zip_map_l by (intros; ring).
      by rewrite (zip_comm (Arr rp) (Arr rq)).
  - destruct p as [d | rp], q as [e | rq].
    + rewrite !imul_cells_Arr_Sc. cbn [mbind result_bind].
      rewrite !imul_cells_map_Sc, !nd_map_map. f_equal.
      apply nd_map_ext. intros v. ring.
    + rewrite imul_cells_Arr_Sc, imul_cells_Arr_Arr. cbn [mbind result_bind].
      rewrite imul_cells_map_Arr, zip_map_l by (intros; ring).
      destruct (nd_zip_mul (Arr ra) (Arr rq)) as [r |] eqn:Hr; [| done].
      apply zip_Arr_is_Arr in Hr as (zs & -> & _). done.
    + rewrite imul_cells_Arr_Sc, imul_cells_Arr_Arr. cbn [mbind result_bind].
      rewrite imul_cells_map_Arr, zip_map_l by (intros; ring).
      destruct (nd_zip_mul (Arr ra) (Arr rp)) as [r |] eqn:Hr; [| done].
      apply zip_Arr_is_Arr in Hr as (zs & -> & _). done.
    + rewrite !imul_cells_Arr_Arr.
      pose proof (zip_right_comm (Arr ra) (Arr rp) (Arr rq)) as Hc.
      destruct (nd_zip_mul (Arr ra) (Arr rp)) as [x |] eqn:Hx;
        destruct (nd_zip_mul (Arr ra) (Arr rq)) as [y |] eqn:Hy;
        try (apply zip_Arr_is_Arr in Hx as (xs & -> & _));
        try (apply zip_Arr_is_Arr in Hy as (ys & -> & _));
        cbn [mbind option_bind result_bind] in Hc |- *; rewrite ?imul_cells_Arr_Arr;
        try (match type of Hc with
             | None = None => idtac
             | None = _ => rewrite <- Hc
             | _ => rewrite Hc
             end); done.
Qed.

(** On scalars and arrays of one shape nothing is broadcast, [acc *= x]
    returns, and gives a scalar or an array of that shape. *)
Lemma imul_one_shape {A : Type} `{Number A} (sh : list nat) (a b : ndarray A) :
  scalar_or sh a -> scalar_or sh b ->
  imul a b = imul_cells a b /\
  exists c, imul_cells a b = Ok c /\ scalar_or sh c.
Proof.
  intros Ha Hb.
  assert (Harr : forall (x : ndarray A) rows,
            x = Arr rows -> scalar_or sh x -> of_shape sh x).
  { intros x rows -> [[c Hc] | Hx]; done. }
  destruct a as [c | ra], b as [d | rb].
  - split; [done |]. eexists. split; [reflexivity |]. left. by eexists.
  - split; [done |]. eexists. split; [reflexivity |]. right.
    apply of_shape_map. by eapply Harr.
  - split; [done |]. eexists. split; [reflexivity |]. right.
    apply of_shape_map. by eapply Harr.
  - pose proof (Harr _ _ eq_refl Ha) as Ha'. pose proof (Harr _ _ eq_refl Hb) as Hb'.
    unfold imul, imul_cells. rewrite (nd_broadcast_zip sh) by done.
    split; [done |].
    destruct (nd_zip_mul_same_shape sh _ _ Ha' Hb') as (c & -> & Hc).
    exists c. split; [done | by right].
Qed.

Lemma scalar_or_rsub {A : Type} `{Number A} (sh : list nat) (c : A) (a : ndarray A) :
  scalar_or sh a -> scalar_or sh (rsub c a).
Proof. intros [Ha | Ha]; [left | right]; by apply of_shape_map. Qed.

(** [acc *= p] and then [acc *= q], or the other way round, on scalars and
    arrays of one shape. *)
Lemma imul_right_comm (sh : list nat) (a p q : ndarray R) :
  scalar_or sh a -> scalar_or sh p -> scalar_or sh q ->
  (x ← imul a p; imul x q) = (y ← imul a q; imul y p).
Proof.
  intros Ha Hp Hq.
  destruct (imul_one_shape sh a p Ha Hp) as [E1 (x & Hx & Ix)].
  destruct (imul_one_shape sh a q Ha Hq) as [E2 (y & Hy & Iy)].
  destruct (imul_one_shape sh x q Ix Hq) as [E3 _].
  destruct (imul_one_shape sh y p Iy Hp) as [E4 _].
  pose proof (imul_cells_right_comm a p q) as Hc.
  rewrite E1, E2, Hx, Hy. rewrite Hx, Hy in Hc.
  cbn [mbind result_bind] in Hc |- *. by rewrite E3, E4.
Qed.

Lemma result_bind_assoc {X Y Z'} (m : result X) (f : X -> result Y) (g : Y -> result Z') :
  (m ≫= f) ≫= g = m ≫= (fun x => f x ≫= g).
Proof. by destruct m. Qed.

(** A loop whose steps commute, under an invariant of the state, does not
    depend on the order of the items. *)
Lemma foldlM_Permutation {S T} (I : S -> Prop) (P : T -> Prop)
    (body : S -> T -> result S) (l l' : list T) (s : S) :
  (forall s x s', I s -> P x -> body s x = Ok s' -> I s') ->
  (forall s x y, I s -> P x -> P y ->
     (s1 ← body s x; body s1 y) = (s2 ← body s y; body s2 x)) ->
  I s -> Forall P l -> l ≡ₚ l' -> foldlM body s l = foldlM body s l'.
Proof.
  intros Hkeep Hcomm Hs HP Hperm. revert s Hs.
  induction Hperm as [| x l l' _ IH | x y l | l l' l'' Hp1 IH1 _ IH2]; intros s Hs.
  - done.
  - apply Forall_cons in HP as [Hx HP].
    cbn [foldlM]. destruct (body s x) as [s1 |] eqn:Hs1; [| done].
    cbn [mbind result_bind]. apply IH; [done |]. by apply (Hkeep s x).
  - apply Forall_cons in HP as [Hy HP]. apply Forall_cons in HP as [Hx _].
    cbn [foldlM]. rewrite <- !result_bind_assoc. by rewrite (Hcomm s y x).
  - rewrite IH1 by done. apply IH2; [| done]. by rewrite <- Hp1.
Qed.

(** Over the reals [agg_probs] starts as well from the scalar 1. *)
Lemma agg_probs_from_one (p0 : ndarray R) (rest : list (ndarray R)) :
  agg_probs (p0 :: rest)
  = (acc ← foldlM (fun acc prob => imul acc (rsub 1%R prob)) (Sc 1%R) (p0 :: rest);
     Ok (rsub 1%R acc)).
Proof.
  unfold agg_probs. cbn [foldlM]. rewrite imul_Sc. cbn [mbind result_bind].
  rewrite (nd_map_id (Rmult 1)); [done |]. intros x. ring.
Qed.

Lemma agg_probs_Permutation (sh : list nat) (probs probs' : list (ndarray R)) :
  Forall (scalar_or sh) probs -> probs ≡ₚ probs' -> agg_probs probs = agg_probs probs'.
Proof.
  intros Hsh Hperm. destruct probs as [| p0 rest], probs' as [| q0 rest'].
  - done.
  - by apply Permutation_nil_l in Hperm.
  - by apply Permutation_nil_r in Hperm.
  - rewrite !agg_probs_from_one.
    rewrite (foldlM_Permutation (scalar_or sh) (scalar_or sh) _
               (p0 :: rest) (q0 :: rest')); [done | | | | done | done].
    + intros s x s' Hs Hx Hs'.
      destruct (imul_one_shape sh s (rsub 1%R x) Hs (scalar_or_rsub sh _ _ Hx))
        as [E (c & Hc & Ic)].
      rewrite E, Hc in Hs'. by inversion Hs'; subst.
    + intros s x y Hs Hx Hy. apply (imul_right_comm sh); [done | |];
        by apply scalar_or_rsub.
    + left. by eexists.
Qed.

(** On scalars and arrays of one shape [agg_probs] returns. *)
Lemma agg_probs_one_shape {A : Type} `{Number A} (sh : list nat)
    (p0 : ndarray A) (rest : list (ndarray A)) :
  Forall (scalar_or sh) (p0 :: rest) -> is_Ok (agg_probs (p0 :: rest)).
Proof.
  intros Hall. apply Forall_cons in Hall as [H0 Hrest]. unfold agg_probs.
  destruct (foldlM_returns (scalar_or sh) (fun acc prob => imul acc (rsub one prob))
              rest (rsub one p0)) as (acc & -> & _).
  - intros s x Hx Hs.
    destruct (imul_one_shape sh s (rsub one x) Hs) as [E (c & Hc & Ic)].
    { apply scalar_or_rsub. by eapply Forall_forall in Hrest. }
    exists c. by rewrite E.
  - by apply scalar_or_rsub.
  - by eexists.
Qed.

End zip_facts.

Section reduce_order.

Lemma agg_result_step_eq {A : Type} `{Number A} (t : nat) (g : Z) (i : nat)
    (acc : accum A) (sid : nat) (m : ndarray A) :
  agg_result_step t g i acc sid m
  = (v ← agg_probs [default (Sc zero) (slot acc i sid t g); m];
     Ok (<[(i, sid) := <[(t, g) := v]> (default ∅ (acc !! (i, sid)))]> acc)).
Proof.
  destruct (agg_probs [default (Sc zero) (slot acc i sid t g); m]) as [v | e] eqn:Hv.
  - by apply agg_result_step_Ok.
  - revert Hv. unfold agg_result_step, accum_getitem, get_before, slot.
    destruct (acc !! (i, sid)) as [inner |]; cbn [mbind option_bind default].
    + by intros ->.
    + rewrite lookup_empty. cbn [default]. by intros ->.
Qed.

Lemma agg_probs_pair_raises {A : Type} `{Number A} (b m : ndarray A) (e : exn) :
  agg_probs [b; m] = Raise e -> e = ValueError_shape.
Proof.
  intros Hr. by destruct (agg_probs_raises _ _ Hr) as [[_ ?] | ?].
Qed.

(** Two steps of the reducer, in one order or the other, when the two
    matrices have the shape of what their slot holds. *)
Lemma agg_result_steps_comm (sh : nat -> list nat) (acc : accum R)
    (t1 : nat) (g1 : Z) (i1 s1 : nat) (m1 : ndarray R)
    (t2 : nat) (g2 : Z) (i2 s2 : nat) (m2 : ndarray R) :
  of_shape (sh s1) m1 -> of_shape (sh s2) m2 ->
  (forall old, slot acc i1 s1 t1 g1 = Some old -> of_shape (sh s1) old) ->
  (acc1 ← agg_result_step t1 g1 i1 acc s1 m1; agg_result_step t2 g2 i2 acc1 s2 m2)
  = (acc2 ← agg_result_step t2 g2 i2 acc s2 m2; agg_result_step t1 g1 i1 acc2 s1 m1).
Proof.
  intros Hm1 Hm2 Hold.
  rewrite (agg_result_step_eq t1 g1 i1 acc), (agg_result_step_eq t2 g2 i2 acc).
  rewrite !result_bind_assoc.
  destruct (decide ((i1, s1, t1, g1) = (i2, s2, t2, g2))) as [Heq | Hne].
  - inversion Heq; subst i2 s2 t2 g2. clear Heq.
    pose proof (agg_probs_Permutation (sh s1)
                  [default (Sc 0%R) (slot acc i1 s1 t1 g1); m1; m2]
                  [default (Sc 0%R) (slot acc i1 s1 t1 g1); m2; m1]) as Hperm.
    assert (Hall : Forall (scalar_or (sh s1))
                     [default (Sc 0%R) (slot acc i1 s1 t1 g1); m1; m2]).
    { apply Forall_cons. split; [| by repeat (apply Forall_cons; split; [by right |])].
      destruct (slot acc i1 s1 t1 g1) as [old |]; simpl;
        [right; by apply Hold | left; by eexists]. }
    specialize (Hperm Hall (perm_skip _ (perm_swap _ _ _))).
    rewrite (agg_probs_cons2 _ m1 [m2]), (agg_probs_cons2 _ m2 [m1]) in Hperm.
    change (@zero R R_Number) with 0%R.
    destruct (agg_probs [default (Sc 0%R) (slot acc i1 s1 t1 g1); m1]) as [v1 | e1];
      destruct (agg_probs [default (Sc 0%R) (slot acc i1 s1 t1 g1); m2]) as [v2 | e2];
      cbn [mbind result_bind] in Hperm |- *;
      rewrite ?agg_result_step_eq, ?slot_update_eq, ?lookup_insert_eq;
      cbn [default from_option]; unfold Datatypes.id; change (@zero R R_Number) with 0%R.
    + rewrite Hperm. destruct (agg_probs [v2; m1]) as [v |]; [| done].
      cbn [mbind result_bind]. by rewrite !insert_insert_eq.
    + rewrite Hperm. done.
    + rewrite <- Hperm. done.
    + by inversion Hperm.
  - change (@zero R R_Number) with 0%R.
    destruct (agg_probs [default (Sc 0%R) (slot acc i1 s1 t1 g1); m1]) as [v1 | e1] eqn:H1;
      destruct (agg_probs [default (Sc 0%R) (slot acc i2 s2 t2 g2); m2]) as [v2 | e2] eqn:H2;
      cbn [mbind result_bind];
      rewrite ?agg_result_step_eq, ?slot_update_ne by congruence;
      change (@zero R R_Number) with 0%R; rewrite ?H1, ?H2; cbn [mbind result_bind].
    + f_equal. destruct (decide ((i1, s1) = (i2, s2))) as [Hk | Hk].
      * inversion Hk; subst i2 s2. rewrite !lookup_insert_eq. cbn [default from_option]. unfold Datatypes.id.
        rewrite !insert_insert_eq. f_equal.
        apply insert_insert_ne. congruence.
      * rewrite !lookup_insert_ne by congruence.
        apply insert_insert_ne. congruence.
    + done.
    + done.
    + apply agg_probs_pair_raises in H1, H2. by subst.
Qed.

(** Once a result is merged, the results that fitted the accumulator still
    fit it. *)
Lemma fits_preserved {A : Type} `{Number A} (sh : nat -> list nat)
    (acc acc' : accum A) (res r : task_result A) :
  fits sh acc res -> fits sh acc r -> agg_result acc res = Ok acc' -> fits sh acc' r.
Proof.
  intros Hres Hr Hrun.
  destruct (agg_result_cells sh acc res Hres) as (acc1 & Hacc1 & Hslots & Hframe).
  rewrite Hrun in Hacc1. inversion Hacc1; subst acc1. clear Hacc1.
  intros sid probs Hl. destruct (Hr sid probs Hl) as [Hp Hold]. split; [done |].
  intros old Hs.
  destruct (decide (imti r = imti res /\ trti r = trti res /\ magi r = magi res /\
                    is_Some (by_sid res !! sid))) as [(Hi & Ht & Hg & [m Hm]) | Hout].
  - rewrite Hi, Ht, Hg in Hs. destruct (Hslots sid m Hm) as (v & Hv & Hshv & _).
    rewrite Hv in Hs. by inversion Hs; subst.
  - rewrite Hframe in Hs by done. by apply Hold.
Qed.

End reduce_order.

(** X20.  Over the reals, [agg_probs] does not depend on the order of its
    arguments when these are scalars and arrays of one shape, as in the
    calls of the calculator: it returns the same array in any order.  (With
    arrays of different shapes the order matters: numpy broadcasts the
    later arguments to the shape of the first array.) *)
Theorem agg_probs_any_order (sh : list nat) (probs probs' : list (ndarray R)) :
  Forall (scalar_or sh) probs -> probs ≡ₚ probs' ->
  agg_probs probs = agg_probs probs' /\ (probs ≠ [] -> is_Ok (agg_probs probs)).
Proof.
  intros Hsh Hperm. split; [by apply (agg_probs_Permutation sh) |].
  destruct probs as [| p0 rest]; [done |]. intros _.
  by apply (agg_probs_one_shape sh).
Qed.

Lemma agg_probs_any_order_witness :
  agg_probs [Sc 0%R; Arr [Sc (1 / 2)%R; Sc 0%R]; Arr [Sc (1 / 4)%R; Sc (1 / 2)%R]]
  = agg_probs [Arr [Sc (1 / 4)%R; Sc (1 / 2)%R]; Sc 0%R; Arr [Sc (1 / 2)%R; Sc 0%R]] /\
  ([Sc 0%R; Arr [Sc (1 / 2)%R; Sc 0%R]; Arr [Sc (1 / 4)%R; Sc (1 / 2)%R]] ≠ [] ->
   is_Ok (agg_probs
            [Sc 0%R; Arr [Sc (1 / 2)%R; Sc 0%R]; Arr [Sc (1 / 4)%R; Sc (1 / 2)%R]])).
Proof.
  apply (agg_probs_any_order [2%nat]
           [Sc 0%R; Arr [Sc (1 / 2)%R; Sc 0%R]; Arr [Sc (1 / 4)%R; Sc (1 / 2)%R]]
           [Arr [Sc (1 / 4)%R; Sc (1 / 2)%R]; Sc 0%R; Arr [Sc (1 / 2)%R; Sc 0%R]]).
  - apply Forall_cons. split; [left; by eexists |].
    repeat (apply Forall_cons; split;
            [right; eexists; split; [reflexivity |]; split; [reflexivity |];
             repeat (apply Forall_cons; split; [by eexists |]); constructor |]).
    constructor.
  - apply Permutation_sym.
    exact (Permutation_cons_append [Sc 0%R; Arr [Sc (1 / 2)%R; Sc 0%R]]
             (Arr [Sc (1 / 4)%R; Sc (1 / 2)%R])).
Defined.

Lemma agg_result_one_site {A : Type} `{Number A} (acc : accum A) (r : task_result A)
    (sid : nat) (m : ndarray A) :
  by_sid r = {[ sid := m ]} ->
  agg_result acc r = agg_result_step (trti r) (magi r) (imti r) acc sid m.
Proof. intros Hr. unfold agg_result. rewrite Hr. by rewrite map_fold_singleton. Qed.

(** X21.  Over the reals, the accumulator that [agg_result] builds from the
    results of the tasks does not depend on the order in which the results
    arrive, when the matrices of a site have one shape: folding in results
    of one site each that fit the accumulator, in any order, returns and
    gives the same accumulator. *)
Theorem reduce_any_order (sh : nat -> list nat) (acc : accum R)
    (results results' : list (task_result R)) :
  Forall one_site results -> Forall (fits sh acc) results -> results ≡ₚ results' ->
  foldlM agg_result acc results = foldlM agg_result acc results' /\
  is_Ok (foldlM agg_result acc results).
Proof.
  intros Hone Hfit Hperm.
  set (I := fun s : accum R => Forall (fits sh s) results).
  set (P := fun r : task_result R => one_site r /\ r ∈ results).
  assert (Hkeep : forall s x s', I s -> P x -> agg_result s x = Ok s' -> I s').
  { intros s x s' Hs [_ Hx] Hrun. apply Forall_forall. intros r Hr.
    apply (fits_preserved sh s s' x r); [| | done].
    - by eapply Forall_forall in Hs.
    - by eapply Forall_forall in Hs. }
  assert (HP : Forall P results).
  { apply Forall_forall. intros r Hr. split; [| done]. by eapply Forall_forall in Hone. }
  split.
  - apply (foldlM_Permutation I P); [done | | done | done | done].
    intros s r1 r2 Hs [(s1 & m1 & H1) Hr1] [(s2 & m2 & H2) Hr2].
    assert (Hf1 : fits sh s r1) by (by eapply Forall_forall in Hs).
    assert (Hf2 : fits sh s r2) by (by eapply Forall_forall in Hs).
    destruct (Hf1 s1 m1) as [Hm1 Hold1]; [rewrite H1; apply lookup_singleton_eq |].
    destruct (Hf2 s2 m2) as [Hm2 _]; [rewrite H2; apply lookup_singleton_eq |].
    pose proof (agg_result_steps_comm sh s (trti r1) (magi r1) (imti r1) s1 m1
                  (trti r2) (magi r2) (imti r2) s2 m2 Hm1 Hm2 Hold1) as Hc.
    rewrite (agg_result_one_site s r1 s1 m1 H1), (agg_result_one_site s r2 s2 m2 H2).
    destruct (agg_result_step (trti r1) (magi r1) (imti r1) s s1 m1) as [a1 | e1];
      destruct (agg_result_step (trti r2) (magi r2) (imti r2) s s2 m2) as [a2 | e2];
      cbn [mbind result_bind] in Hc |- *;
      rewrite ?(agg_result_one_site _ r1 s1 m1 H1), ?(agg_result_one_site _ r2 s2 m2 H2);
      exact Hc.
  - destruct (foldlM_returns I agg_result results acc) as (acc' & Hacc' & _);
      [| done | by exists acc'].
    intros s x Hx Hs.
    assert (Hfx : fits sh s x) by (by eapply Forall_forall in Hs).
    destruct (agg_result_cells sh s x Hfx) as (s' & Hs' & _).
    exists s'. split; [done |]. apply (Hkeep s x); [done | | done].
    split; [by eapply Forall_forall in Hone | done].
Qed.

Lemma reduce_any_order_witness :
  foldlM agg_result ∅ real_results = foldlM agg_result ∅ (reverse real_results) /\
  is_Ok (foldlM agg_result ∅ real_results).
Proof.
  apply (reduce_any_order (fun _ => [2%nat]) ∅ real_results (reverse real_results)).
  - repeat constructor; eexists _, _; reflexivity.
  - repeat (apply Forall_cons; split;
            [intros sid probs Hl; cbn [by_sid] in Hl;
             apply lookup_singleton_Some in Hl as [<- <-];
             (split; [| intros old Hold; by vm_compute in Hold]);
             eexists; split; [reflexivity |]; split; [reflexivity |];
             repeat (apply Forall_cons; split; [by eexists |]); constructor |]).
    constructor.
  - apply Permutation_sym, reverse_Permutation.
Defined.
